(** * build_digest_pdf: TrueType parsing, glyph subsetting, line layout and
    PDF object serialisation

    A shallow embedding of [scripts/build_digest_pdf.py].  Python values are
    modelled as follows.

    - [bytes] is [list byte]; a slice [b[i:j]] with non-negative bounds is
      [slice i j b] (it silently shortens at the end of the buffer, as in
      Python).
    - [str] is a list of Unicode code points ([pystr]); ASCII literals are
      written [lit "..."].
    - unsigned integers read from a font are [N], signed ones are [Z];
      Python integers never overflow, so no wrap-around is needed except
      where the source masks with [& 0xFFFF].
    - a [float] is a binary64 number, one of the primitive floats of Rocq;
      [+], [-], [*], [<] and [<=] on floats are the IEEE 754 operations, and
      the quotient of two integers is the float nearest to it.
    - exceptions are the constructors of [exn]; a computation that may raise
      is in the [result] monad.
    - dictionaries whose iteration order is irrelevant to the modelled code
      are [gmap]s, the others are association lists. *)

From Stdlib Require Import ZArith NArith List Bool Lia QArith String Ascii.
From Stdlib.Strings Require Import Byte.
From Stdlib Require Import DecimalN DecimalFacts.
From Stdlib Require Import Floats.
From stdpp Require Import base option list gmap strings sorting.

Local Open Scope N_scope.

(** ** Python values *)

Definition bytes : Type := list byte.
Definition pystr : Type := list N.

(** An ASCII literal of the source as a [str]. *)
Definition lit (s : string) : pystr :=
  map (fun a => N_of_ascii a) (list_ascii_of_string s).

(** A [bytes] literal of the source. *)
Definition blit (s : string) : bytes := list_byte_of_string s.

(** [b[i:j]] for [0 <= i], [0 <= j]. *)
Definition slice {A} (i j : nat) (b : list A) : list A :=
  take (j - i) (drop i b).

Definition nslice {A} (i j : N) (b : list A) : list A :=
  slice (N.to_nat i) (N.to_nat j) b.

(** [range(lo, hi)] over naturals [N]. *)
Definition range (lo hi : N) : list N :=
  map (fun k => lo + N.of_nat k) (seq 0 (N.to_nat (hi - lo))).

(** ** Exceptions and the error monad *)

Inductive runtime_msg : Type :=
  | CmapNotFound                         (* "Unicode cmap subtable not found in font" *)
  | UnsupportedCmapFormat (format_type : N). (* f"Unsupported cmap format: {format_type}" *)

Inductive exn : Type :=
  | KeyError (key : pystr)
  | StructError
  | IndexError
  | ZeroDivisionError
  | OverflowError
  | UnicodeDecodeError
  | UnicodeEncodeError
  | AssertionError
  | RuntimeError (msg : runtime_msg).

Inductive result (A : Type) : Type :=
  | Ok (a : A)
  | Raise (e : exn).
Arguments Ok {A} a.
Arguments Raise {A} e.

Definition result_bind {A B} (f : A → result B) (m : result A) : result B :=
  match m with
  | Ok a => f a
  | Raise e => Raise e
  end.

#[global] Instance result_mbind : MBind result := @result_bind.
#[global] Instance result_mret : MRet result := @Ok.

Definition is_ok {A} (r : result A) : Prop := ∃ a, r = Ok a.
Definition raises {A} (r : result A) : Prop := ∃ e, r = Raise e.

(** [d[key]] on a dictionary with [str] keys. *)
Definition getitem {V} (d : gmap pystr V) (key : pystr) : result V :=
  match d !! key with
  | Some v => Ok v
  | None => Raise (KeyError key)
  end.

(** [seq[i]] for a list or tuple and [0 <= i]. *)
Definition item {A} (l : list A) (i : nat) : result A :=
  match l !! i with
  | Some x => Ok x
  | None => Raise IndexError
  end.

(** [for x in xs: acc = body(acc, x)] in the error monad. *)
Fixpoint for_each {A S} (body : S → A → result S) (xs : list A) (acc : S)
    : result S :=
  match xs with
  | [] => Ok acc
  | x :: xs' => acc' ← body acc x; for_each body xs' acc'
  end.

(** [[f(x) for x in xs]] in the error monad. *)
Fixpoint map_each {A B} (f : A → result B) (xs : list A) : result (list B) :=
  match xs with
  | [] => Ok []
  | x :: xs' => y ← f x; ys ← map_each f xs'; Ok (y :: ys)
  end.

(** ** [struct.unpack] for the big-endian formats the parser uses *)

Module Struct.

(** Big-endian unsigned value of a byte string. *)
Definition be (b : bytes) : N :=
  fold_left (fun acc x => 256 * acc + Byte.to_N x) b 0.

(** Two's complement reading of an unsigned [bits]-bit value. *)
Definition signed (bits : N) (n : N) : Z :=
  if n <? 2 ^ (bits - 1) then Z.of_N n else (Z.of_N n - 2 ^ Z.of_N bits)%Z.

(** [struct.unpack] raises [struct.error] unless the buffer has exactly
    the size of the format. *)
Definition check_size (size : nat) (b : bytes) : result unit :=
  if Nat.eqb (length b) size then Ok tt else Raise StructError.

(** Field readers at a byte position of an already size-checked buffer. *)
Definition fH (pos : nat) (b : bytes) : N := be (slice pos (pos + 2) b).
Definition fh (pos : nat) (b : bytes) : Z := signed 16 (fH pos b).
Definition fI (pos : nat) (b : bytes) : N := be (slice pos (pos + 4) b).
Definition fl (pos : nat) (b : bytes) : Z := signed 32 (fI pos b).

(** [">H"] *)
Definition unpack_H (b : bytes) : result N :=
  _ ← check_size 2 b; Ok (fH 0 b).
(** [">h"] *)
Definition unpack_h (b : bytes) : result Z :=
  _ ← check_size 2 b; Ok (fh 0 b).
(** [">l"] *)
Definition unpack_l (b : bytes) : result Z :=
  _ ← check_size 4 b; Ok (fl 0 b).
(** [">HH"] *)
Definition unpack_HH (b : bytes) : result (N * N) :=
  _ ← check_size 4 b; Ok (fH 0 b, fH 2 b).
(** [">HHH"] *)
Definition unpack_HHH (b : bytes) : result (N * N * N) :=
  _ ← check_size 6 b; Ok (fH 0 b, fH 2 b, fH 4 b).
(** [">hhh"] *)
Definition unpack_hhh (b : bytes) : result (Z * Z * Z) :=
  _ ← check_size 6 b; Ok (fh 0 b, fh 2 b, fh 4 b).
(** [">hhhh"] *)
Definition unpack_hhhh (b : bytes) : result (Z * Z * Z * Z) :=
  _ ← check_size 8 b; Ok (fh 0 b, fh 2 b, fh 4 b, fh 6 b).
(** [">HHI"] *)
Definition unpack_HHI (b : bytes) : result (N * N * N) :=
  _ ← check_size 8 b; Ok (fH 0 b, fH 2 b, fI 4 b).
(** [">III"] *)
Definition unpack_III (b : bytes) : result (N * N * N) :=
  _ ← check_size 12 b; Ok (fI 0 b, fI 4 b, fI 8 b).
(** [">IHHHH"] *)
Definition unpack_IHHHH (b : bytes) : result (N * N * N * N * N) :=
  _ ← check_size 12 b; Ok (fI 0 b, fH 4 b, fH 6 b, fH 8 b, fH 10 b).
(** [">4sIII"] *)
Definition unpack_4sIII (b : bytes) : result (bytes * N * N * N) :=
  _ ← check_size 16 b; Ok (slice 0 4 b, fI 4 b, fI 8 b, fI 12 b).
(** [">" + "H" * n] *)
Definition unpack_Hn (n : nat) (b : bytes) : result (list N) :=
  _ ← check_size (2 * n) b; Ok (map (fun k => fH (2 * k) b) (seq 0 n)).
(** [">" + "h" * n] *)
Definition unpack_hn (n : nat) (b : bytes) : result (list Z) :=
  _ ← check_size (2 * n) b; Ok (map (fun k => fh (2 * k) b) (seq 0 n)).

End Struct.

(** [b.decode("ascii")] *)
Definition decode_ascii (b : bytes) : result pystr :=
  if forallb (fun x => Byte.to_N x <? 128) b
  then Ok (map Byte.to_N b)
  else Raise UnicodeDecodeError.

(** ** class TrueTypeFont *)

Module TrueTypeFont.

Record t : Type := mk {
  data : bytes;
  tables : gmap pystr (N * N);
  units_per_em : N;
  ascender : Z;
  descender : Z;
  line_gap : Z;
  num_h_metrics : N;
  num_glyphs : N;
  advance_widths : list N;
  cmap : gmap N N;
  s_typo_ascender : Z;
  s_typo_descender : Z;
  s_cap_height : Z;
  x_min : Z;
  y_min : Z;
  x_max : Z;
  y_max : Z;
  italic_angle : Q
}.

(** The table slice [self.data[offset : offset + length]]. *)
Definition table_bytes (data : bytes) (entry : N * N) : bytes :=
  nslice entry.1 (entry.1 + entry.2) data.

(** The loop of [_parse_offset_table]: [n] records remain, the next one
    is at [offset]. *)
Fixpoint offset_table_loop (data : bytes) (n : nat) (offset : N)
    (tables : gmap pystr (N * N)) : result (gmap pystr (N * N)) :=
  match n with
  | O => Ok tables
  | S n' =>
      '(tag, _check, table_offset, length) ←
        Struct.unpack_4sIII (nslice offset (offset + 16) data);
      key ← decode_ascii tag;
      offset_table_loop data n' (offset + 16)
        (<[key := (table_offset, length)]> tables)
  end.

Definition _parse_offset_table (data : bytes) : result (gmap pystr (N * N)) :=
  '(_scaler, num_tables, _, _, _) ← Struct.unpack_IHHHH (slice 0 12 data);
  offset_table_loop data (N.to_nat num_tables) 12 ∅.

(** Returns [units_per_em] and the bounding box stored in [_head_bbox]. *)
Definition _parse_head (data : bytes) (tables : gmap pystr (N * N))
    : result (N * (Z * Z * Z * Z)) :=
  entry ← getitem tables (lit "head");
  let table := table_bytes data entry in
  units_per_em ← Struct.unpack_H (slice 18 20 table);
  bbox ← Struct.unpack_hhhh (slice 36 44 table);
  Ok (units_per_em, bbox).

Definition _parse_hhea (data : bytes) (tables : gmap pystr (N * N))
    : result (Z * Z * Z * N) :=
  entry ← getitem tables (lit "hhea");
  let table := table_bytes data entry in
  '(ascender, descender, line_gap) ← Struct.unpack_hhh (slice 4 10 table);
  num_h_metrics ← Struct.unpack_H (slice 34 36 table);
  Ok (ascender, descender, line_gap, num_h_metrics).

Definition _parse_maxp (data : bytes) (tables : gmap pystr (N * N))
    : result N :=
  entry ← getitem tables (lit "maxp");
  let table := table_bytes data entry in
  Struct.unpack_H (slice 4 6 table).

(** The loop of [_parse_hmtx]: [n] long metrics remain, the next one is
    at [pos]; [widths] holds those read so far. *)
Fixpoint hmtx_loop (table : bytes) (n : nat) (pos : nat) (widths : list N)
    : result (list N) :=
  match n with
  | O => Ok widths
  | S n' =>
      '(advance_width, _lsb) ← Struct.unpack_HH (slice pos (pos + 4) table);
      hmtx_loop table n' (pos + 4) (widths ++ [advance_width])
  end.

(** [widths[-1]] *)
Definition last_item (widths : list N) : result N :=
  match last widths with
  | Some w => Ok w
  | None => Raise IndexError
  end.

Definition _parse_hmtx (data : bytes) (tables : gmap pystr (N * N))
    (num_h_metrics num_glyphs : N) : result (list N) :=
  entry ← getitem tables (lit "hmtx");
  let table := table_bytes data entry in
  widths ← hmtx_loop table (N.to_nat num_h_metrics) 0 [];
  if num_h_metrics <? num_glyphs then
    last_width ← last_item widths;
    Ok (widths ++ replicate (N.to_nat (num_glyphs - num_h_metrics)) last_width)
  else Ok widths.


(** The directory scan of [_parse_cmap]: records [i], [i+1], ... of the
    [n] remaining ones; the first record with platform 3 and encoding 1 or
    10 gives [preferred_subtable] and leaves the loop. *)
Fixpoint find_preferred (table : bytes) (offset : N) (n : nat) (i : N)
    : result (option N) :=
  match n with
  | O => Ok None
  | S n' =>
      '(platform_id, encoding_id, sub_offset) ←
        Struct.unpack_HHI (nslice (4 + i * 8) (12 + i * 8) table);
      if (platform_id =? 3) && ((encoding_id =? 1) || (encoding_id =? 10))
      then Ok (Some (offset + sub_offset))
      else find_preferred table offset n' (i + 1)
  end.

(** The body of the inner loop of [_parse_cmap_format4] for one [code] of
    segment [i]. *)
Definition format4_code (data : bytes) (offset length id_range_offset_offset : N)
    (i : N) (start : N) (delta : Z) (ro : N) (cmap : gmap N N) (code : N)
    : result (gmap N N) :=
  if ro =? 0 then
    let glyph := Z.to_N (Z.land (Z.of_N code + delta) 0xFFFF) in
    Ok (<[code := glyph]> cmap)
  else
    let ro_address := id_range_offset_offset + 2 * i in
    let glyph_index_offset := ro_address + ro + 2 * (code - start) in
    if offset + length <=? glyph_index_offset then Ok cmap
    else
      glyph_index ←
        Struct.unpack_H (nslice glyph_index_offset (glyph_index_offset + 2) data);
      let glyph :=
        if glyph_index =? 0 then 0
        else Z.to_N (Z.land (Z.of_N glyph_index + delta) 0xFFFF) in
      Ok (<[code := glyph]> cmap).

(** The body of the outer loop of [_parse_cmap_format4] for segment [i]. *)
Definition format4_segment (data : bytes) (offset length id_range_offset_offset : N)
    (end_count start_count : list N) (id_delta : list Z)
    (id_range_offset : list N) (cmap : gmap N N) (i : nat)
    : result (gmap N N) :=
  start ← item start_count i;
  end_ ← item end_count i;
  delta ← item id_delta i;
  ro ← item id_range_offset i;
  for_each
    (format4_code data offset length id_range_offset_offset (N.of_nat i) start delta ro)
    (range start (end_ + 1)) cmap.

Definition _parse_cmap_format4 (data : bytes) (offset : N) : result (gmap N N) :=
  '(length, _language, seg_count_x2) ←
    Struct.unpack_HHH (nslice (offset + 2) (offset + 8) data);
  let seg_count := seg_count_x2 / 2 in
  let n := N.to_nat seg_count in
  let end_offset := offset + 14 in
  end_count ← Struct.unpack_Hn n (nslice end_offset (end_offset + 2 * seg_count) data);
  let reserved_pad_offset := end_offset + 2 * seg_count in
  start_count ←
    Struct.unpack_Hn n
      (nslice (reserved_pad_offset + 2) (reserved_pad_offset + 2 + 2 * seg_count) data);
  let id_delta_offset := reserved_pad_offset + 2 + 2 * seg_count in
  id_delta ←
    Struct.unpack_hn n (nslice id_delta_offset (id_delta_offset + 2 * seg_count) data);
  let id_range_offset_offset := id_delta_offset + 2 * seg_count in
  id_range_offset ←
    Struct.unpack_Hn n
      (nslice id_range_offset_offset (id_range_offset_offset + 2 * seg_count) data);
  for_each
    (format4_segment data offset length id_range_offset_offset
       end_count start_count id_delta id_range_offset)
    (seq 0 n) ∅.

(** One group of a format 12 subtable: every code of the range is
    assigned in increasing order. *)
Definition format12_group (start_char end_char start_glyph : N) (cmap : gmap N N)
    : gmap N N :=
  fold_left (fun m code => <[code := start_glyph + (code - start_char)]> m)
    (range start_char (end_char + 1)) cmap.

(** The loop of [_parse_cmap_format12]: [n] groups remain, the next one is
    at [pos]. *)
Fixpoint format12_loop (data : bytes) (n : nat) (pos : N) (cmap : gmap N N)
    : result (gmap N N) :=
  match n with
  | O => Ok cmap
  | S n' =>
      '(start_char, end_char, start_glyph) ←
        Struct.unpack_III (nslice pos (pos + 12) data);
      format12_loop data n' (pos + 12)
        (format12_group start_char end_char start_glyph cmap)
  end.

Definition _parse_cmap_format12 (data : bytes) (offset : N) : result (gmap N N) :=
  _ ← Struct.unpack_HH (nslice offset (offset + 4) data);
  '(_length, _language, num_groups) ←
    Struct.unpack_III (nslice (offset + 4) (offset + 16) data);
  format12_loop data (N.to_nat num_groups) (offset + 16) ∅.

Definition _parse_cmap (data : bytes) (tables : gmap pystr (N * N))
    : result (gmap N N) :=
  entry ← getitem tables (lit "cmap");
  let offset := entry.1 in
  let table := table_bytes data entry in
  '(_version, num_tables) ← Struct.unpack_HH (slice 0 4 table);
  preferred_subtable ← find_preferred table offset (N.to_nat num_tables) 0;
  match preferred_subtable with
  | None => Raise (RuntimeError CmapNotFound)
  | Some preferred =>
      format_type ← Struct.unpack_H (nslice preferred (preferred + 2) data);
      if format_type =? 4 then _parse_cmap_format4 data preferred
      else if format_type =? 12 then _parse_cmap_format12 data preferred
      else Raise (RuntimeError (UnsupportedCmapFormat format_type))
  end.

Definition _parse_os2 (data : bytes) (tables : gmap pystr (N * N))
    : result (Z * Z * Z) :=
  entry ← getitem tables (lit "OS/2");
  let table := table_bytes data entry in
  version ← Struct.unpack_H (slice 0 2 table);
  s_typo_ascender ← Struct.unpack_h (slice 68 70 table);
  s_typo_descender ← Struct.unpack_h (slice 70 72 table);
  if (2 <=? version) && (Nat.leb 88 (List.length table)) then
    s_cap_height ← Struct.unpack_h (slice 88 90 table);
    Ok (s_typo_ascender, s_typo_descender, s_cap_height)
  else Ok (s_typo_ascender, s_typo_descender, s_typo_ascender).

(** [italic_angle_fixed / 65536.0]; the quotient of a 32-bit integer by a
    power of two is exact in binary64, so the rational is the float. *)
Definition _parse_post (data : bytes) (tables : gmap pystr (N * N)) : result Q :=
  match tables !! lit "post" with
  | None => Ok 0%Q
  | Some entry =>
      let table := table_bytes data entry in
      italic_angle_fixed ← Struct.unpack_l (slice 4 8 table);
      Ok (inject_Z italic_angle_fixed / 65536)%Q
  end.

(** [TrueTypeFont.__init__], from the bytes of the font file. *)
Definition __init__ (data : bytes) : result t :=
  tables ← _parse_offset_table data;
  '(units_per_em, bbox) ← _parse_head data tables;
  '(ascender, descender, line_gap, num_h_metrics) ← _parse_hhea data tables;
  num_glyphs ← _parse_maxp data tables;
  advance_widths ← _parse_hmtx data tables num_h_metrics num_glyphs;
  cmap ← _parse_cmap data tables;
  '(s_typo_ascender, s_typo_descender, s_cap_height) ← _parse_os2 data tables;
  let '(x_min, y_min, x_max, y_max) := bbox in
  italic_angle ← _parse_post data tables;
  Ok (mk data tables units_per_em ascender descender line_gap num_h_metrics
        num_glyphs advance_widths cmap s_typo_ascender s_typo_descender
        s_cap_height x_min y_min x_max y_max italic_angle).

End TrueTypeFont.

(** ** Python strings: formatting and encoding *)

Definition byte_of_N (n : N) : byte := default x00 (Byte.of_N n).

(** [sep.join(parts)] *)
Fixpoint join {A} (sep : list A) (parts : list (list A)) : list A :=
  match parts with
  | [] => []
  | [p] => p
  | p :: rest => p ++ sep ++ join sep rest
  end.

(** The characters of a decimal numeral, most significant digit first. *)
Fixpoint uint_chars (u : Decimal.uint) : pystr :=
  match u with
  | Decimal.Nil => []
  | Decimal.D0 u => 48 :: uint_chars u
  | Decimal.D1 u => 49 :: uint_chars u
  | Decimal.D2 u => 50 :: uint_chars u
  | Decimal.D3 u => 51 :: uint_chars u
  | Decimal.D4 u => 52 :: uint_chars u
  | Decimal.D5 u => 53 :: uint_chars u
  | Decimal.D6 u => 54 :: uint_chars u
  | Decimal.D7 u => 55 :: uint_chars u
  | Decimal.D8 u => 56 :: uint_chars u
  | Decimal.D9 u => 57 :: uint_chars u
  end.

(** The characters of a hexadecimal numeral, upper case. *)
Fixpoint hex_chars (u : Hexadecimal.uint) : pystr :=
  match u with
  | Hexadecimal.Nil => []
  | Hexadecimal.D0 u => 48 :: hex_chars u
  | Hexadecimal.D1 u => 49 :: hex_chars u
  | Hexadecimal.D2 u => 50 :: hex_chars u
  | Hexadecimal.D3 u => 51 :: hex_chars u
  | Hexadecimal.D4 u => 52 :: hex_chars u
  | Hexadecimal.D5 u => 53 :: hex_chars u
  | Hexadecimal.D6 u => 54 :: hex_chars u
  | Hexadecimal.D7 u => 55 :: hex_chars u
  | Hexadecimal.D8 u => 56 :: hex_chars u
  | Hexadecimal.D9 u => 57 :: hex_chars u
  | Hexadecimal.Da u => 65 :: hex_chars u
  | Hexadecimal.Db u => 66 :: hex_chars u
  | Hexadecimal.Dc u => 67 :: hex_chars u
  | Hexadecimal.Dd u => 68 :: hex_chars u
  | Hexadecimal.De u => 69 :: hex_chars u
  | Hexadecimal.Df u => 70 :: hex_chars u
  end.

(** [str(n)] for a non-negative integer. *)
Definition str_N (n : N) : pystr := uint_chars (N.to_uint n).

(** [str(z)] for an integer. *)
Definition str_Z (z : Z) : pystr :=
  if (z <? 0)%Z then 45 :: str_N (Z.abs_N z) else str_N (Z.to_N z).

(** Left padding with ["0"] up to [width] characters; longer strings are
    left as they are. *)
Definition zfill (width : nat) (s : pystr) : pystr :=
  replicate (width - length s) 48 ++ s.

(** [f"{n:010d}"] *)
Definition fmt_010d (n : N) : pystr := zfill 10 (str_N n).

(** [f"{n:04X}"] *)
Definition fmt_04X (n : N) : pystr := zfill 4 (hex_chars (N.to_hex_uint n)).

(** [s.encode("ascii")] *)
Definition encode_ascii (s : pystr) : result bytes :=
  if forallb (fun c => c <? 128) s
  then Ok (map byte_of_N s)
  else Raise UnicodeEncodeError.

(** UTF-8 encoding of one code point; lone surrogates cannot be encoded. *)
Definition utf8_char (c : N) : result bytes :=
  if c <? 0x80 then Ok [byte_of_N c]
  else if c <? 0x800 then
    Ok [byte_of_N (0xC0 + c / 64); byte_of_N (0x80 + c mod 64)]
  else if c <? 0x10000 then
    if (0xD800 <=? c) && (c <=? 0xDFFF) then Raise UnicodeEncodeError
    else Ok [byte_of_N (0xE0 + c / 4096); byte_of_N (0x80 + (c / 64) mod 64);
             byte_of_N (0x80 + c mod 64)]
  else if c <? 0x110000 then
    Ok [byte_of_N (0xF0 + c / 262144); byte_of_N (0x80 + (c / 4096) mod 64);
        byte_of_N (0x80 + (c / 64) mod 64); byte_of_N (0x80 + c mod 64)]
  else Raise UnicodeEncodeError.

(** [s.encode("utf-8")] *)
Fixpoint encode_utf8 (s : pystr) : result bytes :=
  match s with
  | [] => Ok []
  | c :: s' => b ← utf8_char c; rest ← encode_utf8 s'; Ok (b ++ rest)
  end.

(** ** Stateful methods: a state and exception monad

    A method that mutates [self] (or other objects) and may raise is a
    function from the state before the call to the outcome and the state at
    the return or at the raise. *)

Definition M (S A : Type) : Type := S → result A * S.

Definition M_ret {S A} (a : A) : M S A := fun s => (Ok a, s).
Definition M_bind {S A B} (f : A → M S B) (m : M S A) : M S B :=
  fun s =>
    match m s with
    | (Ok a, s') => f a s'
    | (Raise e, s') => (Raise e, s')
    end.
#[global] Instance M_mret S : MRet (M S) := @M_ret S.
#[global] Instance M_mbind S : MBind (M S) := @M_bind S.

Definition get {S} : M S S := fun s => (Ok s, s).
Definition put {S} (s : S) : M S unit := fun _ => (Ok tt, s).
Definition modify {S} (f : S → S) : M S unit := fun s => (Ok tt, f s).
(** A pure computation that may raise. *)
Definition lift {S A} (r : result A) : M S A := fun s => (r, s).

(** [for x in xs: body(x)] *)
Fixpoint for_ {S A} (xs : list A) (body : A → M S unit) : M S unit :=
  match xs with
  | [] => mret tt
  | x :: xs' => _ ← body x; for_ xs' body
  end.

(** ** class PDFDocument *)

Module PDFDocument.

(** A [Dict[str, str]]: the items in insertion order, keys distinct. *)
Definition pydict : Type := list (pystr * pystr).

(** [d[key] = value]: an existing key keeps its position. *)
Fixpoint setitem (key value : pystr) (d : pydict) : pydict :=
  match d with
  | [] => [(key, value)]
  | (k, v) :: d' =>
      if decide (k = key) then (k, value) :: d'
      else (k, v) :: setitem key value d'
  end.

Record t : Type := mk {
  objects : list bytes;
  trailer_extra : pydict
}.

Definition __init__ : t := mk [] [].

(** Dictionaries are mutable objects passed by reference: a [ref] is an
    index into the store of all dictionaries alive, and the methods run on
    the store together with the document. *)
Definition ref : Type := nat.

Record world : Type := World {
  heap : list pydict;
  self : t
}.

(** Reading the dictionary a reference points to. *)
Definition deref (r : ref) : M world pydict :=
  fun w => (Ok (default [] (heap w !! r)), w).

(** [dict(d)]: a new dictionary with the same items. *)
Definition dict_copy (r : ref) : M world ref :=
  fun w =>
    let d := default [] (heap w !! r) in
    (Ok (length (heap w)), World (heap w ++ [d]) (self w)).

(** A dictionary display [{...}] evaluated by a caller. *)
Definition dict_new (d : pydict) : M world ref :=
  fun w => (Ok (length (heap w)), World (heap w ++ [d]) (self w)).

(** [r[key] = value] *)
Definition dict_setitem (r : ref) (key value : pystr) : M world unit :=
  fun w =>
    let d := default [] (heap w !! r) in
    (Ok tt, World (<[r := setitem key value d]> (heap w)) (self w)).

(** [self.objects.append(b)] *)
Definition objects_append (b : bytes) : M world unit :=
  fun w => (Ok tt, World (heap w) (mk (objects (self w) ++ [b]) (trailer_extra (self w)))).

(** [len(self.objects)] *)
Definition objects_len : M world nat :=
  fun w => (Ok (length (objects (self w))), w).

(** The text [<< /k v /k v ... >>] of a dictionary. *)
Definition dict_text (d : pydict) : pystr :=
  join (lit " ")
    ([lit "<<"] ++ map (fun kv => lit "/" ++ kv.1 ++ lit " " ++ kv.2) d ++ [lit ">>"]).

Definition add_object (dictionary : ref) : M world nat :=
  d ← deref dictionary;
  obj_bytes ← lift (encode_utf8 (dict_text d));
  _ ← objects_append obj_bytes;
  objects_len.

Section WithZlib.

(** [zlib.compress] is a library function; any function on byte strings
    will do. *)
Variable zlib_compress : bytes → bytes.

Definition add_stream (dictionary : ref) (data : bytes) (compress : bool)
    : M world nat :=
  '(data, dictionary) ←
    (if compress then
       let data := zlib_compress data in
       dictionary ← dict_copy dictionary;
       _ ← dict_setitem dictionary (lit "Filter") (lit "/FlateDecode");
       mret (data, dictionary)
     else mret (data, dictionary));
  dictionary ← dict_copy dictionary;
  _ ← dict_setitem dictionary (lit "Length") (str_N (N.of_nat (length data)));
  d ← deref dictionary;
  header ← lift (encode_utf8 (dict_text d));
  let stream_bytes := join [x0a] [header; blit "stream"; data; blit "endstream"] in
  _ ← objects_append stream_bytes;
  objects_len.

End WithZlib.

Definition set_trailer_entry (key value : pystr) : M world unit :=
  fun w =>
    (Ok tt, World (heap w) (mk (objects (self w)) (setitem key value (trailer_extra (self w))))).

(** The output file [fh], opened for writing: the state is the bytes
    written so far. *)
Definition fh_write (b : bytes) : M bytes unit := fun fh => (Ok tt, fh ++ b).
Definition fh_tell : M bytes N := fun fh => (Ok (N.of_nat (length fh)), fh).

(** [b"%PDF-1.6\n%\xE2\xE3\xCF\xD3\n"] *)
Definition pdf_header : bytes :=
  blit "%PDF-1.6" ++ [x0a; x25; xe2; xe3; xcf; xd3; x0a].

(** [f"{index} 0 obj\n"] *)
Definition obj_marker (index : N) : pystr := str_N index ++ lit " 0 obj" ++ [10].

(** [f"{offset:010d} 00000 n \n"] *)
Definition xref_record (offset : N) : pystr :=
  fmt_010d offset ++ lit " 00000 n " ++ [10].

(** The first loop of [write]: the objects from number [index] on;
    returns [offsets] extended by one position per object. *)
Fixpoint write_objects (objs : list bytes) (index : N) (offsets : list N)
    : M bytes (list N) :=
  match objs with
  | [] => mret offsets
  | obj :: rest =>
      pos ← fh_tell;
      let offsets := offsets ++ [pos] in
      marker ← lift (encode_ascii (obj_marker index));
      _ ← fh_write marker;
      _ ← fh_write obj;
      _ ← fh_write ([x0a] ++ blit "endobj" ++ [x0a]);
      write_objects rest (index + 1) offsets
  end.

(** The second loop of [write]: one record per offset. *)
Definition write_xref_records (offsets : list N) : M bytes unit :=
  for_ offsets (fun offset =>
    record ← lift (encode_ascii (xref_record offset));
    fh_write record).

Definition trailer_text (doc : t) (root_object : Z) (xref_position : N) : pystr :=
  let trailer_parts :=
    [lit "<<";
     lit "/Size " ++ str_N (N.of_nat (length (objects doc)) + 1);
     lit "/Root " ++ str_Z root_object ++ lit " 0 R"]
    ++ map (fun kv => lit "/" ++ kv.1 ++ lit " " ++ kv.2) (trailer_extra doc)
    ++ [lit ">>"] in
  join [10]
    [lit "trailer"; join (lit " ") trailer_parts; lit "startxref";
     str_N xref_position; lit "%%EOF"].

(** [write], on a freshly opened (empty) file. *)
Definition write (doc : t) (root_object : Z) : M bytes unit :=
  _ ← fh_write pdf_header;
  offsets ← write_objects (objects doc) 1 [0];
  xref_position ← fh_tell;
  head ← lift (encode_ascii
    (lit "xref" ++ [10] ++ lit "0 " ++ str_N (N.of_nat (length (objects doc)) + 1) ++ [10]));
  _ ← fh_write head;
  _ ← fh_write (blit "0000000000 65535 f " ++ [x0a]);
  _ ← write_xref_records (drop 1 offsets);
  trailer ← lift (encode_ascii (trailer_text doc root_object xref_position));
  fh_write trailer.

End PDFDocument.

(** ** class FontEncoder *)

(** [int(round(a / b))] for integers [a] and [b > 0]: Python rounds halves
    to even.  In the source [a] is below [2^53] and [b] below [2^16], so the
    correctly rounded binary64 quotient lies on the same side of every
    half-integer as the exact quotient, and is exact when the quotient is a
    half-integer: rounding the float gives the integer computed here. *)
Definition round_half_even (a b : Z) : Z :=
  let q := (a / b)%Z in
  let r := (a mod b)%Z in
  if (2 * r <? b)%Z then q
  else if (b <? 2 * r)%Z then (q + 1)%Z
  else if Z.even q then q else (q + 1)%Z.

(** [int(round(v * 1000 / units_per_em))] *)
Definition per_mille (units_per_em : N) (v : Z) : result Z :=
  if units_per_em =? 0 then Raise ZeroDivisionError
  else Ok (round_half_even (v * 1000) (Z.of_N units_per_em)).

(** [a / b] for two integers that are not negative: Python returns the
    float nearest to the quotient, ties to even (for operands below [2^53]
    it divides the two floats, which is the same value); it raises
    [ZeroDivisionError] for [b = 0] and [OverflowError] when the quotient is
    too large for a float.  [SFdiv_core_binary] computes the quotient with
    the digits that the rounding of [binary_round_aux] needs. *)
Definition int_truediv (a b : N) : result float :=
  match b, a with
  | 0, _ => Raise ZeroDivisionError
  | _, 0 => Ok 0.0%float
  | Npos b, Npos a =>
      let '(m, e, l) := SFdiv_core_binary prec emax (Z.pos a) 0 (Z.pos b) 0 in
      match binary_round_aux prec emax false m e l with
      | S754_infinity _ => Raise OverflowError
      | quotient => Ok (SF2Prim quotient)
      end
  end.

(** [d[ch]] on a dictionary keyed by one-character strings. *)
Definition getitem_char {V} (d : gmap N V) (ch : N) : result V :=
  match d !! ch with
  | Some v => Ok v
  | None => Raise (KeyError [ch])
  end.

(** [struct.pack(">H", v)] *)
Definition pack_H (v : N) : result bytes :=
  if v <? 65536 then Ok [byte_of_N (v / 256); byte_of_N (v mod 256)]
  else Raise StructError.

(** [ch.encode("utf-16-be").hex().upper()] *)
Definition utf16be_hex (ch : N) : result pystr :=
  if ch <? 0x10000 then
    if (0xD800 <=? ch) && (ch <=? 0xDFFF) then Raise UnicodeEncodeError
    else Ok (fmt_04X ch)
  else
    let v := ch - 0x10000 in
    Ok (fmt_04X (0xD800 + v / 1024) ++ fmt_04X (0xDC00 + v mod 1024)).

(** [[l[i:i+n] for i in range(0, len(l), n)]]; [fuel] bounds the number of
    chunks. *)
Fixpoint chunks_of {A} (fuel n : nat) (l : list A) : list (list A) :=
  match fuel, l with
  | _, [] => []
  | O, _ => []
  | S fuel', _ => take n l :: chunks_of fuel' n (drop n l)
  end.

Module FontEncoder.

(** [char_set] is a dictionary used as a set and never iterated;
    [used_glyphs] is a dictionary used as a set and iterated: its keys are
    kept in insertion order. *)
Record t : Type := mk {
  font : TrueTypeFont.t;
  used_chars : list N;
  char_set : gset N;
  char_to_gid : gmap N N;
  used_glyphs : list N
}.

Definition space_char : N := 32.
Definition base_font_name : pystr := lit "/DejaVuSans".

Definition __init__ (font : TrueTypeFont.t) : t := mk font [] ∅ ∅ [].

Definition _glyph_for_char (self : t) (ch : N) : N :=
  default 0 (TrueTypeFont.cmap (font self) !! ch).

(** [d[k] = None] on the keys of a dictionary. *)
Definition keys_add (k : N) (keys : list N) : list N :=
  if decide (k ∈ keys) then keys else keys ++ [k].

(** The body of the loop of [ensure_text]. *)
Definition ensure_char (self : t) (ch : N) : t :=
  if decide (ch ∈ char_set self) then self
  else
    let glyph := _glyph_for_char self ch in
    mk (font self)
       (used_chars self ++ [ch])
       ({[ch]} ∪ char_set self)
       (<[ch := glyph]> (char_to_gid self))
       (keys_add glyph (used_glyphs self)).

Definition ensure_text (text : pystr) (self : t) : t :=
  fold_left ensure_char text self.

(** The body of the loop of [measure_text]. *)
Definition measure_char (total : N) (ch : N) : M t N :=
  self ← get;
  glyph ←
    match char_to_gid self !! ch with
    | Some glyph => mret glyph
    | None =>
        _ ← modify (ensure_text [ch]);
        self ← get;
        lift (getitem_char (char_to_gid self) ch)
    end;
  self ← get;
  width_units ← lift (item (TrueTypeFont.advance_widths (font self)) (N.to_nat glyph));
  mret (total + width_units).

Fixpoint measure_loop (text : pystr) (total : N) : M t N :=
  match text with
  | [] => mret total
  | ch :: text' => total' ← measure_char total ch; measure_loop text' total'
  end.

(** [total / units_per_em * font_size]: the quotient of the two integers
    is a float, which is multiplied by the font size. *)
Definition scale (total units_per_em : N) (font_size : float) : result float :=
  quotient ← int_truediv total units_per_em;
  Ok (quotient * font_size)%float.

Definition measure_text (text : pystr) (font_size : float) : M t float :=
  total ← measure_loop text 0;
  self ← get;
  lift (scale total (TrueTypeFont.units_per_em (font self)) font_size).

Definition encode_text (text : pystr) : M t pystr :=
  _ ← (match text with
       | [] => mret tt
       | _ => modify (ensure_text text)
       end);
  self ← get;
  hex_buffer ←
    lift (map_each (fun ch => gid ← getitem_char (char_to_gid self) ch; Ok (fmt_04X gid)) text);
  mret (lit "<" ++ concat hex_buffer ++ lit ">").

Definition _widths_1000 (self : t) : result (gmap N Z) :=
  for_each
    (fun widths glyph =>
       width_units ← item (TrueTypeFont.advance_widths (font self)) (N.to_nat glyph);
       w ← per_mille (TrueTypeFont.units_per_em (font self)) (Z.of_N width_units);
       Ok (<[glyph := w]> widths))
    (used_glyphs self) ∅.

(** [sorted(widths.keys())] *)
Definition sorted_keys (widths : gmap N Z) : list N :=
  merge_sort N.le (map_to_list widths).*1.

(** [max(widths.keys()) if widths else 0] *)
Definition max_gid_of (widths : gmap N Z) : N :=
  foldr N.max 0 (map_to_list widths).*1.

(** [widths.get(self.char_to_gid.get(self.space_char, 0), 600)] *)
Definition default_width_of (self : t) (widths : gmap N Z) : Z :=
  default 600%Z (widths !! default 0 (char_to_gid self !! space_char)).

(** The pairs [(glyph, width)] behind [w_entries]. *)
Definition w_pairs (widths : gmap N Z) (default_width : Z) : list (N * Z) :=
  omap
    (fun glyph =>
       match widths !! glyph with
       | Some width =>
           if bool_decide (width = default_width) && negb (glyph =? 0) then None
           else Some (glyph, width)
       | None => None
       end)
    (sorted_keys widths).

(** [w_array]: ["[" + " ".join(f"{glyph} {width}" ...) + "]"] *)
Definition w_array_of (pairs : list (N * Z)) : pystr :=
  lit "[" ++ join (lit " ") (map (fun gw => str_N gw.1 ++ lit " " ++ str_Z gw.2) pairs)
  ++ lit "]".

(** *** [build_pdf_objects]

    The method works on the encoder and on the document it is handed; the
    state is the pair of both. *)

Definition on_self {A} (m : M t A) : M (t * PDFDocument.world) A :=
  fun s => let '(r, e) := m s.1 in (r, (e, s.2)).
Definition on_pdf {A} (m : M PDFDocument.world A) : M (t * PDFDocument.world) A :=
  fun s => let '(r, w) := m s.2 in (r, (s.1, w)).

(** A source line that ends in a newline. *)
Definition line (s : string) : pystr := lit s ++ [10].

(** [cid_to_gid]: two bytes per glyph id up to [max_gid], the id itself
    for used glyphs and zero for the others. *)
Definition cid_to_gid_of (self : t) (max_gid : N) : result bytes :=
  packed ← map_each
    (fun glyph => pack_H (if decide (glyph ∈ used_glyphs self) then glyph else 0))
    (range 0 (max_gid + 1));
  Ok (concat packed).

(** The [entries] of the ToUnicode CMap. *)
Definition to_unicode_entries (self : t) : result (list pystr) :=
  map_each
    (fun ch =>
       gid ← getitem_char (char_to_gid self) ch;
       let cid_hex := fmt_04X gid in
       unicode_hex ← utf16be_hex ch;
       Ok (lit "<" ++ cid_hex ++ lit "> <" ++ unicode_hex ++ lit ">"))
    (merge_sort N.le (used_chars self)).

Definition to_unicode_chunks (entries : list pystr) : list pystr :=
  map
    (fun chunk =>
       str_N (N.of_nat (length chunk)) ++ line " beginbfchar"
       ++ join [10] chunk ++ [10] ++ line "endbfchar")
    (chunks_of (length entries) 100 entries).

Definition cmap_content_of (chunks : list pystr) : pystr :=
  line "/CIDInit /ProcSet findresource begin"
  ++ line "12 dict begin"
  ++ line "begincmap"
  ++ line "/CIDSystemInfo << /Registry (Adobe) /Ordering (UCS) /Supplement 0 >> def"
  ++ line "/CMapName /Adobe-Identity-UCS def"
  ++ line "/CMapType 2 def"
  ++ line "1 begincodespacerange"
  ++ line "<0000> <FFFF>"
  ++ line "endcodespacerange"
  ++ concat chunks
  ++ line "endcmap"
  ++ line "CMapName currentdict /CMap defineresource pop"
  ++ line "end" ++ line "end".

Section Build.

(** [zlib.compress] and the [str] of a float are library functions. *)
Variable zlib_compress : bytes → bytes.
Variable str_float : Q → pystr.

(** [pdf.add_stream({...}, data, compress=True)] *)
Definition add_stream_of (d : PDFDocument.pydict) (data : bytes)
    : M (t * PDFDocument.world) nat :=
  on_pdf (r ← PDFDocument.dict_new d; PDFDocument.add_stream zlib_compress r data true).

(** [pdf.add_object({...})] *)
Definition add_object_of (d : PDFDocument.pydict) : M (t * PDFDocument.world) nat :=
  on_pdf (r ← PDFDocument.dict_new d; PDFDocument.add_object r).

(** [f"{obj} 0 R"] *)
Definition obj_ref (obj : nat) : pystr := str_N (N.of_nat obj) ++ lit " 0 R".

Definition build_pdf_objects : M (t * PDFDocument.world) nat :=
  self ← on_self get;
  _ ← (match used_chars self with
       | [] => on_self (modify (ensure_text (lit " ")))
       | _ => mret tt
       end);
  self ← on_self get;
  let f := font self in
  let upm := TrueTypeFont.units_per_em f in
  widths ← lift (_widths_1000 self);
  let max_gid := max_gid_of widths in
  cid_to_gid ← lift (cid_to_gid_of self max_gid);
  cid_map_obj ← add_stream_of [] cid_to_gid;
  entries ← lift (to_unicode_entries self);
  let cmap_content := cmap_content_of (to_unicode_chunks entries) in
  cmap_bytes ← lift (encode_utf8 cmap_content);
  to_unicode_obj ← add_stream_of [] cmap_bytes;
  font_file_obj ←
    add_stream_of
      [(lit "Length1", str_N (N.of_nat (length (TrueTypeFont.data f))))]
      (TrueTypeFont.data f);
  ascent ← lift (per_mille upm (TrueTypeFont.s_typo_ascender f));
  descent ← lift (per_mille upm (TrueTypeFont.s_typo_descender f));
  cap_height ← lift (per_mille upm (TrueTypeFont.s_cap_height f));
  bx0 ← lift (per_mille upm (TrueTypeFont.x_min f));
  by0 ← lift (per_mille upm (TrueTypeFont.y_min f));
  bx1 ← lift (per_mille upm (TrueTypeFont.x_max f));
  by1 ← lift (per_mille upm (TrueTypeFont.y_max f));
  let default_width := default_width_of self widths in
  let w_array := w_array_of (w_pairs widths default_width) in
  font_descriptor_obj ←
    add_object_of
      [(lit "Type", lit "/FontDescriptor");
       (lit "FontName", base_font_name);
       (lit "Flags", lit "4");
       (lit "Ascent", str_Z ascent);
       (lit "Descent", str_Z descent);
       (lit "CapHeight", str_Z cap_height);
       (lit "ItalicAngle", str_float (TrueTypeFont.italic_angle f));
       (lit "StemV", lit "80");
       (lit "FontBBox",
        lit "[" ++ str_Z bx0 ++ lit " " ++ str_Z by0 ++ lit " " ++ str_Z bx1
        ++ lit " " ++ str_Z by1 ++ lit "]");
       (lit "FontFile2", obj_ref font_file_obj)];
  descendant_obj ←
    add_object_of
      [(lit "Type", lit "/Font");
       (lit "Subtype", lit "/CIDFontType2");
       (lit "BaseFont", base_font_name);
       (lit "CIDSystemInfo",
        lit "<< /Registry (Adobe) /Ordering (Identity) /Supplement 0 >>");
       (lit "FontDescriptor", obj_ref font_descriptor_obj);
       (lit "DW", str_Z default_width);
       (lit "W", w_array);
       (lit "CIDToGIDMap", obj_ref cid_map_obj)];
  add_object_of
    [(lit "Type", lit "/Font");
     (lit "Subtype", lit "/Type0");
     (lit "BaseFont", base_font_name);
     (lit "Encoding", lit "/Identity-H");
     (lit "DescendantFonts", lit "[" ++ obj_ref descendant_obj ++ lit "]");
     (lit "ToUnicode", obj_ref to_unicode_obj)].

End Build.

End FontEncoder.

(** ** Whitespace in Python strings *)

(** [ch.isspace()]: the code points Python treats as whitespace. *)
Definition isspace (c : N) : bool :=
  ((9 <=? c) && (c <=? 13)) || ((28 <=? c) && (c <=? 32))
  || (c =? 0x85) || (c =? 0xA0) || (c =? 0x1680)
  || ((0x2000 <=? c) && (c <=? 0x200A))
  || (c =? 0x2028) || (c =? 0x2029) || (c =? 0x202F) || (c =? 0x205F)
  || (c =? 0x3000).

(** [s.lstrip()] *)
Fixpoint lstrip (s : pystr) : pystr :=
  match s with
  | [] => []
  | c :: s' => if isspace c then lstrip s' else s
  end.

(** [s.strip()] *)
Definition strip (s : pystr) : pystr := reverse (lstrip (reverse (lstrip s))).

(** [bool(s)] for a string. *)
Definition nonempty {A} (s : list A) : bool :=
  match s with
  | [] => false
  | _ => true
  end.

(** [s.split()]: the maximal runs of non-whitespace characters; [cur] is
    the run being read. *)
Fixpoint split_from (s : pystr) (cur : pystr) : list pystr :=
  match s with
  | [] => if nonempty cur then [cur] else []
  | c :: s' =>
      if isspace c then
        if nonempty cur then cur :: split_from s' [] else split_from s' []
      else split_from s' (cur ++ [c])
  end.

Definition split (s : pystr) : list pystr := split_from s [].

(** [s.replace(chr(0xA0), chr(32))] *)
Definition replace_nbsp (s : pystr) : pystr :=
  map (fun c => if c =? 0xA0 then 32 else c) s.

(** ** Page geometry

    The lengths of the layout are floats.  A decimal literal of the source
    is the float nearest to it, as the literal of the same digits is here.
    Where the source writes an integer for a length ([26], [0]) the float
    of the same value stands here: Python converts the integer, exactly,
    when it meets a float. *)

#[local] Set Warnings "-inexact-float".

Definition PAGE_WIDTH : float := 595.28%float.
Definition PAGE_HEIGHT : float := 841.89%float.
Definition MARGIN_LEFT : float := 56.0%float.
Definition MARGIN_RIGHT : float := 56.0%float.
Definition MARGIN_TOP : float := 72.0%float.
Definition MARGIN_BOTTOM : float := 64.0%float.

Record Paragraph : Type := mkParagraph {
  text : pystr;
  kind : pystr;
  size : float;
  space_before : float;
  space_after : float;
  color : option (float * float * float);
  bullet : bool;
  indent : float
}.

(** ** class LayoutEngine *)

Module LayoutEngine.

(** The draw commands of a page.  The source keeps each as the string its
    f-string formats; the fields are the values that are formatted. *)
Inductive command : Type :=
  | SetFill (r g b : float)   (* f"{r:.3f} {g:.3f} {b:.3f} rg" *)
  | ResetFill                 (* "0 0 0 rg" *)
  | ShowText (size x y : float) (encoded : pystr).
      (* f"BT /F1 {size:.2f} Tf 1 0 0 1 {x:.2f} {y:.2f} Tm {encoded} Tj ET" *)

(** [current_page] is the page object that was appended last to [pages],
    or [None]: it is kept as the index of that page. *)
Record t : Type := mk {
  font : FontEncoder.t;
  pages : list (list command);
  current_page : option nat;
  cursor_y : float
}.

Definition line_spacing_factor : float := 1.45%float.

Definition __init__ (font : FontEncoder.t) : t := mk font [] None 0.0%float.

Definition on_font {A} (m : M FontEncoder.t A) : M t A :=
  fun s =>
    let '(r, f) := m (font s) in
    (r, mk f (pages s) (current_page s) (cursor_y s)).

(** [self.cursor_y -= amount] *)
Definition move_down (amount : float) : M t unit :=
  modify (fun s => mk (font s) (pages s) (current_page s) (cursor_y s - amount)%float).

(** [self.cursor_y += amount] *)
Definition move_up (amount : float) : M t unit :=
  modify (fun s => mk (font s) (pages s) (current_page s) (cursor_y s + amount)%float).

Definition _new_page : M t unit :=
  modify (fun s =>
    mk (font s) (pages s ++ [[]]) (Some (length (pages s)))
       (PAGE_HEIGHT - MARGIN_TOP)%float).

Definition _ensure_page : M t unit :=
  s ← get;
  match current_page s with
  | None => _new_page
  | Some _ => mret tt
  end.

Definition _append_command (c : command) : M t unit :=
  s ← get;
  match current_page s with
  | None => lift (Raise AssertionError)
  | Some i =>
      put (mk (font s) (alter (fun cmds => cmds ++ [c]) i (pages s))
             (current_page s) (cursor_y s))
  end.

Definition _set_color (color : option (float * float * float)) : M t unit :=
  match color with
  | None => mret tt
  | Some (r, g, b) => _append_command (SetFill r g b)
  end.

(** The local variables of the word loop of [add_paragraph]. *)
Record wrap : Type := mkWrap {
  lines : list (float * pystr);
  line_indent : float;
  line_text : pystr;
  line_width : float;
  available_width : float
}.

(** [PAGE_WIDTH - MARGIN_LEFT - MARGIN_RIGHT] *)
Definition max_width : float := (PAGE_WIDTH - MARGIN_LEFT - MARGIN_RIGHT)%float.
Definition bullet_indent : float := 14.0%float.
(** ["• "] *)
Definition bullet_prefix : pystr := [0x2022; 32].

(** The continuation indent [paragraph.indent + (bullet_indent if
    paragraph.bullet else 0.0)]. *)
Definition continuation_indent (paragraph : Paragraph) : float :=
  (indent paragraph + (if bullet paragraph then bullet_indent else 0.0))%float.

(** The decision taken for one word, once it is measured. *)
Definition place_word (paragraph : Paragraph) (space_width : float) (w : wrap)
    (word : pystr) (word_width : float) : wrap :=
  let add_space := nonempty (strip (line_text w)) in
  let projected :=
    (line_width w + (if add_space then space_width else 0.0) + word_width)%float in
  if (projected <=? available_width w)%float || negb (nonempty (strip (line_text w)))
  then
    let line_text1 := if add_space then line_text w ++ lit " " else line_text w in
    let line_width1 :=
      if add_space then (line_width w + space_width)%float else line_width w in
    mkWrap (lines w) (line_indent w) (line_text1 ++ word)
      (line_width1 + word_width)%float (available_width w)
  else
    let line_indent' := continuation_indent paragraph in
    mkWrap (lines w ++ [(line_indent w, line_text w)]) line_indent' word word_width
      (max_width - line_indent')%float.

(** The word loop of [add_paragraph]. *)
Fixpoint wrap_words (paragraph : Paragraph) (space_width : float) (words : list pystr)
    (w : wrap) : M t wrap :=
  match words with
  | [] => mret w
  | word :: words' =>
      word_width ← on_font (FontEncoder.measure_text word (size paragraph));
      wrap_words paragraph space_width words'
        (place_word paragraph space_width w word word_width)
  end.

(** The body of the line loop of [add_paragraph]. *)
Definition draw_line (paragraph : Paragraph) (leading : float) (l : float * pystr)
    : M t unit :=
  let '(indent, line) := l in
  s ← get;
  _ ← (if (cursor_y s <? MARGIN_BOTTOM + size paragraph)%float
       then _new_page else mret tt);
  s ← get;
  let x := (MARGIN_LEFT + indent)%float in
  let y := cursor_y s in
  _ ← _set_color (color paragraph);
  encoded ← on_font (FontEncoder.encode_text line);
  _ ← _append_command (ShowText (size paragraph) x y encoded);
  _ ← (match color paragraph with
       | Some _ => _append_command ResetFill
       | None => mret tt
       end);
  move_down leading.

(** The lines computed by the word loop of [add_paragraph], with the
    last, unfinished line. *)
Definition finished_lines (w : wrap) : list (float * pystr) :=
  if nonempty (line_text w) then lines w ++ [(line_indent w, line_text w)]
  else lines w.

(** The part of [add_paragraph] that computes [lines]. *)
Definition paragraph_lines (paragraph : Paragraph) (text : pystr)
    : M t (list (float * pystr)) :=
  let words := split text in
  prefix ←
    (if bullet paragraph then
       _ ← on_font (modify (FontEncoder.ensure_text bullet_prefix));
       mret bullet_prefix
     else mret []);
  _ ← move_down (space_before paragraph);
  space_width ← on_font (FontEncoder.measure_text (lit " ") (size paragraph));
  line_width ←
    (if nonempty prefix
     then on_font (FontEncoder.measure_text prefix (size paragraph))
     else mret 0.0%float);
  w ← wrap_words paragraph space_width words
         (mkWrap [] (indent paragraph) prefix line_width
            (max_width - indent paragraph)%float);
  mret (finished_lines w).

Definition add_paragraph (paragraph : Paragraph) : M t unit :=
  _ ← _ensure_page;
  let text := replace_nbsp (text paragraph) in
  if nonempty text then
    lines ← paragraph_lines paragraph text;
    let leading := (size paragraph * line_spacing_factor)%float in
    _ ← for_ lines (draw_line paragraph leading);
    _ ← move_up (leading - size paragraph * line_spacing_factor)%float;
    move_down (space_after paragraph)
  else move_down (space_before paragraph + space_after paragraph)%float.

Definition add_heading (text : pystr) (level : Z) : M t unit :=
  s ← get;
  let size : float :=
    (if (level =? 1)%Z then 26 else if (level =? 2)%Z then 17 else 14)%float in
  let space_before : float :=
    (if (level =? 1)%Z && negb (nonempty (pages s)) then 0 else 24)%float in
  add_paragraph
    (mkParagraph text (lit "heading") size space_before
       (if (level =? 1)%Z then 16 else 12)%float
       (Some (if (level <=? 2)%Z then (0.05, 0.24, 0.55)
              else (0.1, 0.28, 0.6))%float)
       false 0.0%float).

Definition add_bullet_list (items : list pystr) : M t unit :=
  _ ← for_ items (fun item =>
         add_paragraph
           (mkParagraph item (lit "body") 11.5%float 0.0%float 6.0%float None true
              6.0%float));
  if nonempty items then move_down 4.0%float else mret tt.

Definition add_spacing (amount : float) : M t unit := move_down amount.

End LayoutEngine.

(** ** Synthetic fonts

    Builders for small sfnt buffers, used to run the parser on concrete
    inputs. *)

Module Fixture.

Definition u16 (n : N) : bytes := [byte_of_N (n / 256 mod 256); byte_of_N (n mod 256)].
Definition u32 (n : N) : bytes := u16 (n / 65536) ++ u16 (n mod 65536).
Definition s16 (z : Z) : bytes := u16 (Z.to_N (z mod 65536)).
Definition zeros (k : nat) : bytes := replicate k x00.
Definition len {A} (l : list A) : N := N.of_nat (length l).

(** The table directory: one record per table, the bodies laid out one
    after the other from [offset]. *)
Fixpoint directory (tables : list (string * bytes)) (offset : N) : bytes :=
  match tables with
  | [] => []
  | (tag, body) :: rest =>
      blit tag ++ u32 0 ++ u32 offset ++ u32 (len body)
      ++ directory rest (offset + len body)
  end.

Definition sfnt (tables : list (string * bytes)) : bytes :=
  u32 0x00010000 ++ u16 (len tables) ++ zeros 6
  ++ directory tables (12 + 16 * len tables)
  ++ concat (map snd tables).

Definition head_table (units_per_em : N) (x_min y_min x_max y_max : Z) : bytes :=
  zeros 18 ++ u16 units_per_em ++ zeros 16
  ++ s16 x_min ++ s16 y_min ++ s16 x_max ++ s16 y_max ++ zeros 10.

Definition hhea_table (ascender descender line_gap : Z) (num_h_metrics : N) : bytes :=
  zeros 4 ++ s16 ascender ++ s16 descender ++ s16 line_gap ++ zeros 24
  ++ u16 num_h_metrics.

Definition maxp_table (num_glyphs : N) : bytes := zeros 4 ++ u16 num_glyphs.

Definition hmtx_table (widths : list N) : bytes :=
  concat (map (fun w => u16 w ++ u16 0) widths).

(** A cmap table with one encoding record that points to the subtable
    right behind the directory. *)
Definition cmap_table (platform_id encoding_id : N) (subtable : bytes) : bytes :=
  u16 0 ++ u16 1 ++ u16 platform_id ++ u16 encoding_id ++ u32 12 ++ subtable.

(** A format 4 subtable from its segments [(start, end, delta, ro)] and
    its glyph index array. *)
Definition format4_subtable (segments : list (N * N * Z * N)) (glyphs : list N)
    : bytes :=
  let n := len segments in
  u16 4 ++ u16 (16 + 8 * n + 2 * len glyphs) ++ u16 0 ++ u16 (2 * n) ++ zeros 6
  ++ concat (map (fun s => u16 s.1.1.2) segments)
  ++ u16 0
  ++ concat (map (fun s => u16 s.1.1.1) segments)
  ++ concat (map (fun s => s16 s.1.2) segments)
  ++ concat (map (fun s => u16 s.2) segments)
  ++ concat (map u16 glyphs).

(** A format 12 subtable from its groups [(start, end, start_glyph)]. *)
Definition format12_subtable (groups : list (N * N * N)) : bytes :=
  u16 12 ++ u16 0 ++ u32 (16 + 12 * len groups) ++ u32 0 ++ u32 (len groups)
  ++ concat (map (fun g => u32 g.1.1 ++ u32 g.1.2 ++ u32 g.2) groups).

Definition os2_table (version : N) (typo_ascender typo_descender cap_height : Z)
    : bytes :=
  u16 version ++ zeros 66 ++ s16 typo_ascender ++ s16 typo_descender ++ zeros 16
  ++ s16 cap_height.

(** The four metrics tables. *)
Definition metrics_tables (num_h_metrics num_glyphs : N) (widths : list N)
    : list (string * bytes) :=
  [("head"%string, head_table 1000 0 (-200) 1000 800);
   ("hhea"%string, hhea_table 800 (-200) 0 num_h_metrics);
   ("maxp"%string, maxp_table num_glyphs);
   ("hmtx"%string, hmtx_table widths)].

(** A complete font around the given metrics and cmap subtable. *)
Definition font_with (num_h_metrics num_glyphs : N) (widths : list N)
    (subtable : bytes) : bytes :=
  sfnt (metrics_tables num_h_metrics num_glyphs widths
        ++ [("cmap"%string, cmap_table 3 1 subtable);
            ("OS/2"%string, os2_table 2 800 (-200) 700)]).

(** The subtable with the single segment [0x41 .. 0x43], delta 0. *)
Definition latin_subtable : bytes := format4_subtable [(0x41, 0x43, 0%Z, 0)] [].




(** Four glyphs of widths 500, 600, 700 and 800 in a 1000 unit em; the
    letters A, B, C are glyphs 1, 2, 3 and every other character is
    glyph 0. *)
Definition sample_font : bytes :=
  font_with 4 4 [500; 600; 700; 800] (format4_subtable [(0x41, 0x43, (-64)%Z, 0)] []).

(** The font record of a buffer that parses; fields are empty otherwise. *)
Definition parsed (data : bytes) : TrueTypeFont.t :=
  match TrueTypeFont.__init__ data with
  | Ok ft => ft
  | Raise _ =>
      TrueTypeFont.mk data ∅ 0 0 0 0 0 0 [] ∅ 0 0 0 0 0 0 0 0%Q
  end.

End Fixture.


(** ** Views of the cmap subtables

    The records of a subtable as the parsing loops read them, used to state
    what the parsed map holds. *)

(** The groups [(start_char, end_char, start_glyph)] of the format 12
    subtable at [offset], in the order of the subtable. *)
Definition format12_groups (data : bytes) (offset : N) : list (N * N * N) :=
  let num_groups := Struct.fI 8 (nslice (offset + 4) (offset + 16) data) in
  map (fun j =>
         let rec := nslice (offset + 16 + 12 * N.of_nat j)
                      (offset + 16 + 12 * N.of_nat j + 12) data in
         (Struct.fI 0 rec, Struct.fI 4 rec, Struct.fI 8 rec))
      (seq 0 (N.to_nat num_groups)).

(** The assignments of a list of groups, applied in order. *)
Definition apply_groups (groups : list (N * N * N)) (m : gmap N N) : gmap N N :=
  fold_left (fun m g => TrueTypeFont.format12_group g.1.1 g.1.2 g.2 m) groups m.

(** The [length] field of the format 4 subtable at [offset]. *)
Definition format4_length (data : bytes) (offset : N) : N :=
  Struct.fH 0 (nslice (offset + 2) (offset + 8) data).

(** [seg_count] of the format 4 subtable at [offset]. *)
Definition format4_seg_count (data : bytes) (offset : N) : N :=
  Struct.fH 4 (nslice (offset + 2) (offset + 8) data) / 2.

(** The address of the [idRangeOffset] array of the format 4 subtable at
    [offset]. *)
Definition format4_id_range_offset_offset (data : bytes) (offset : N) : N :=
  let seg_count := format4_seg_count data offset in
  offset + 14 + 2 * seg_count + 2 + 2 * seg_count + 2 * seg_count.

(** The segments [(start, end, delta, ro)] of the format 4 subtable at
    [offset], in the order of the subtable. *)
Definition format4_segments (data : bytes) (offset : N) : list (N * N * Z * N) :=
  let seg_count := format4_seg_count data offset in
  let end_offset := offset + 14 in
  let start_offset := end_offset + 2 * seg_count + 2 in
  let id_delta_offset := start_offset + 2 * seg_count in
  let id_range_offset_offset := id_delta_offset + 2 * seg_count in
  let array (base : N) := nslice base (base + 2 * seg_count) data in
  map (fun i =>
         (Struct.fH (2 * i) (array start_offset),
          Struct.fH (2 * i) (array end_offset),
          Struct.fh (2 * i) (array id_delta_offset),
          Struct.fH (2 * i) (array id_range_offset_offset)))
      (seq 0 (N.to_nat seg_count)).

(** What segment [i] assigns to [code], if anything: the value the inner
    loop of [_parse_cmap_format4] stores when it does not skip the code. *)
Definition format4_assign (data : bytes) (offset length id_range_offset_offset : N)
    (i : nat) (seg : N * N * Z * N) (code : N) : option N :=
  let '(start, end_, delta, ro) := seg in
  if (start <=? code) && (code <=? end_) then
    if ro =? 0 then Some (Z.to_N (Z.land (Z.of_N code + delta) 0xFFFF))
    else
      let position := id_range_offset_offset + 2 * N.of_nat i + ro + 2 * (code - start) in
      if offset + length <=? position then None
      else
        let raw := Struct.be (nslice position (position + 2) data) in
        Some (if raw =? 0 then 0 else Z.to_N (Z.land (Z.of_N raw + delta) 0xFFFF))
  else None.

(** What the segments of the subtable assign to [k], taken by index. *)
Definition format4_assign_at (data : bytes) (offset : N) (i : nat) (k : N) : option N :=
  match format4_segments data offset !! i with
  | Some seg =>
      format4_assign data offset (format4_length data offset)
        (format4_id_range_offset_offset data offset) i seg k
  | None => None
  end.

(** ** Conditions on a font buffer

    The failure conditions of the parser in the words of the format: what
    it means for the directory or a table to be absent or truncated, and
    which encoding records the cmap table holds. *)



















(** ** Sequences of calls on a [FontEncoder] *)

(** A call of one of the three text methods. *)
Inductive call : Type :=
  | EnsureText (text : pystr)
  | MeasureText (text : pystr) (font_size : float)
  | EncodeText (text : pystr).

(** The encoder after a call; a call that raises leaves the encoder as it
    is at the raise. *)
Definition run_call (self : FontEncoder.t) (c : call) : FontEncoder.t :=
  match c with
  | EnsureText text => FontEncoder.ensure_text text self
  | MeasureText text font_size => (FontEncoder.measure_text text font_size self).2
  | EncodeText text => (FontEncoder.encode_text text self).2
  end.

Definition run_calls (calls : list call) (self : FontEncoder.t) : FontEncoder.t :=
  fold_left run_call calls self.

(** The distinct elements of a list, each at its first occurrence. *)
Fixpoint first_seen (l : list N) : list N :=
  match l with
  | [] => []
  | x :: l' => x :: filter (fun y => y ≠ x) (first_seen l')
  end.

(** The advance width of the glyph the font gives to [ch]. *)
Definition char_units (font : TrueTypeFont.t) (ch : N) : option N :=
  TrueTypeFont.advance_widths font
    !! N.to_nat (default 0 (TrueTypeFont.cmap font !! ch)).

(** The characters [measure_text] looks at: all of [text], or those up to
    and including the first one whose glyph has no advance width. *)
Fixpoint measured_prefix (font : TrueTypeFont.t) (text : pystr) : pystr :=
  match text with
  | [] => []
  | ch :: text' =>
      ch :: match char_units font ch with
            | Some _ => measured_prefix font text'
            | None => []
            end
  end.

(** The characters a call looks at, in order. *)
Definition seen_by (font : TrueTypeFont.t) (c : call) : pystr :=
  match c with
  | EnsureText text => text
  | MeasureText text _ => measured_prefix font text
  | EncodeText text => text
  end.

(** The sum of the advance widths of the glyphs of [text], if all have
    one. *)
Fixpoint text_units (font : TrueTypeFont.t) (text : pystr) : option N :=
  match text with
  | [] => Some 0
  | ch :: text' =>
      match char_units font ch, text_units font text' with
      | Some w, Some rest => Some (w + rest)
      | _, _ => None
      end
  end.

(** The state of an encoder of [font] that has looked at the characters
    [trace]. *)
Record tracked (font : TrueTypeFont.t) (trace : pystr) (self : FontEncoder.t) : Prop :=
  Tracked {
    tracked_font : FontEncoder.font self = font;
    tracked_chars : FontEncoder.used_chars self = first_seen trace;
    tracked_set : FontEncoder.char_set self = list_to_set trace;
    tracked_dom : dom (FontEncoder.char_to_gid self) = FontEncoder.char_set self;
    tracked_gid : ∀ ch g, FontEncoder.char_to_gid self !! ch = Some g →
                    g = default 0 (TrueTypeFont.cmap font !! ch) ∧
                    g ∈ FontEncoder.used_glyphs self;
    tracked_glyphs : ∀ g, g ∈ FontEncoder.used_glyphs self →
                       ∃ ch, FontEncoder.char_to_gid self !! ch = Some g
  }.


(** ** Frames of the document methods *)

(** The dictionary a reference stands for. *)
Definition dict_at (w : PDFDocument.world) (r : PDFDocument.ref) : PDFDocument.pydict :=
  default [] (PDFDocument.heap w !! r).

(** What a method that appends one object leaves in place: every
    dictionary alive before the call, the trailer entries and the objects
    inserted before; on return the object list is longer by exactly the new
    object [obj], whose number is returned, and on a raise it is as before. *)
Definition appends_object (w : PDFDocument.world)
    (outcome : result nat * PDFDocument.world) (obj : result bytes) : Prop :=
  let w' := outcome.2 in
  (∀ r d, PDFDocument.heap w !! r = Some d → PDFDocument.heap w' !! r = Some d) ∧
  PDFDocument.trailer_extra (PDFDocument.self w')
    = PDFDocument.trailer_extra (PDFDocument.self w) ∧
  (∀ i b, PDFDocument.objects (PDFDocument.self w) !! i = Some b →
          PDFDocument.objects (PDFDocument.self w') !! i = Some b) ∧
  match obj with
  | Ok b =>
      outcome.1 = Ok (S (length (PDFDocument.objects (PDFDocument.self w)))) ∧
      PDFDocument.objects (PDFDocument.self w')
        = PDFDocument.objects (PDFDocument.self w) ++ [b]
  | Raise e =>
      outcome.1 = Raise e ∧
      PDFDocument.objects (PDFDocument.self w')
        = PDFDocument.objects (PDFDocument.self w)
  end.

(** The bytes of a stream object: the dictionary text, then the data
    between the two keywords. *)
Definition stream_object (d : PDFDocument.pydict) (data : bytes) : result bytes :=
  header ← encode_utf8 (PDFDocument.dict_text d);
  Ok (join [x0a] [header; blit "stream"; data; blit "endstream"]).


(** ** Reading a cross-reference section

    What a PDF reader does with the bytes at the [startxref] position:
    check the keyword, read the entry count, skip the free-list head and
    read one offset per in-use entry. *)

(** The decimal digit a byte stands for. *)
Definition digit_of_byte (b : byte) : option (Decimal.uint → Decimal.uint) :=
  match b with
  | x30 => Some Decimal.D0
  | x31 => Some Decimal.D1
  | x32 => Some Decimal.D2
  | x33 => Some Decimal.D3
  | x34 => Some Decimal.D4
  | x35 => Some Decimal.D5
  | x36 => Some Decimal.D6
  | x37 => Some Decimal.D7
  | x38 => Some Decimal.D8
  | x39 => Some Decimal.D9
  | _ => None
  end.

(** The longest run of digits at the start of [b], and what follows. *)
Fixpoint read_uint (b : bytes) : Decimal.uint * bytes :=
  match b with
  | [] => (Decimal.Nil, [])
  | c :: b' =>
      match digit_of_byte c with
      | Some digit => let '(u, rest) := read_uint b' in (digit u, rest)
      | None => (Decimal.Nil, b)
      end
  end.

(** A decimal number, at least one digit long. *)
Definition read_number (b : bytes) : option (N * bytes) :=
  match read_uint b with
  | (Decimal.Nil, _) => None
  | (u, rest) => Some (N.of_uint u, rest)
  end.

#[global] Instance byte_eq_dec : EqDecision byte := Byte.byte_eq_dec.

(** The bytes [keyword], literally. *)
Definition expect (keyword : bytes) (b : bytes) : option bytes :=
  if decide (take (length keyword) b = keyword)
  then Some (drop (length keyword) b) else None.

(** [n] in-use entries: an offset, then [" 00000 n \n"]. *)
Fixpoint read_xref_entries (n : nat) (b : bytes) : option (list N) :=
  match n with
  | O => Some []
  | S n' =>
      '(offset, b) ← read_number b;
      b ← expect (blit " 00000 n " ++ [x0a]) b;
      offsets ← read_xref_entries n' b;
      Some (offset :: offsets)
  end.

(** The offsets of the objects 1, 2, ... listed by the section at the
    start of [b]. *)
Definition read_xref (b : bytes) : option (list N) :=
  b ← expect (blit "xref" ++ [x0a] ++ blit "0 ") b;
  '(count, b) ← read_number b;
  b ← expect [x0a] b;
  b ← expect (blit "0000000000 65535 f " ++ [x0a]) b;
  read_xref_entries (N.to_nat count - 1) b.

(** The bytes of an ASCII string. *)
Definition ascii_bytes (s : pystr) : bytes := map byte_of_N s.

(** [b] holds [keyword] at position [pos]. *)
Definition at_position (b : bytes) (pos : N) (keyword : bytes) : Prop :=
  take (length keyword) (drop (N.to_nat pos) b) = keyword.


(** ** The body of the output file *)

(** One object as [write] emits it. *)
Definition object_bytes (index : N) (obj : bytes) : bytes :=
  ascii_bytes (PDFDocument.obj_marker index) ++ obj ++ [x0a] ++ blit "endobj" ++ [x0a].

(** The objects from number [index] on, one after the other. *)
Fixpoint body_bytes (index : N) (objs : list bytes) : bytes :=
  match objs with
  | [] => []
  | obj :: rest => object_bytes index obj ++ body_bytes (index + 1) rest
  end.

(** The positions at which these objects start, the first one at
    [start]. *)
Fixpoint body_offsets (start : nat) (index : N) (objs : list bytes) : list N :=
  match objs with
  | [] => []
  | obj :: rest =>
      N.of_nat start
      :: body_offsets (start + length (object_bytes index obj)) (index + 1) rest
  end.

(** The records of the cross-reference section for the given offsets. *)
Definition xref_records (offsets : list N) : bytes :=
  concat (map (fun offset => ascii_bytes (PDFDocument.xref_record offset)) offsets).
(** * Binary64 *)

Module Binary64.
Local Open Scope Z_scope.

(** The quotient [n / d] of two integers, as a mantissa with the position
    of the exact value between it and its successor. *)
Definition located (n d : Z) : Z * location :=
  (n / d, if n mod d =? 0 then loc_Exact else loc_Inexact (2 * (n mod d) ?= d)).

(** The binary64 value nearest to [n / d * 2 ^ e] (ties to even), for
    [0 <= n] and [0 < d]. *)
Definition round_frac (n d e : Z) : spec_float :=
  binary_round_aux prec emax false (located n d).1 e (located n d).2.

(** The end of [binary_round_aux]: the rounded mantissa [m] at exponent
    [e] is normalised and checked for overflow. *)
Definition finish (m e : Z) : spec_float :=
  let '(mrs, e') := shr_fexp prec emax m e loc_Exact in
  match shr_m mrs with
  | Z0 => S754_zero false
  | Zpos m' => if e' <=? emax - prec then S754_finite false m' e' else S754_infinity false
  | Zneg _ => S754_nan
  end.

(** [n / d] rounded to the nearest integer, ties to even. *)
Definition rne (n d : Z) : Z :=
  round_nearest_even (located n d).1 (located n d).2.

(** The exponent at which [n / d * 2 ^ e] is rounded. *)
Definition cexp (n d e : Z) : Z := SpecFloat.fexp prec emax (Zdigits2 (n / d) + e).

(** The mantissa [n / d] at exponent [e] has all digits that rounding
    needs. *)
Definition aligned (n d e : Z) : Prop := e <= cexp n d e.

(** A float that is zero, positive or plus infinity: [0 <= x]. *)
Definition nonneg (x : spec_float) : bool := SFleb (S754_zero false) x.

(** A float that is zero or finite and positive: [0 <= x < inf]. *)
Definition finite_nonneg (x : spec_float) : bool :=
  nonneg x && SFltb x (S754_infinity false).

(** The shift that [SFdiv_core_binary] applies to the dividend. *)
Definition div_shift (a b : Z) : Z :=
  - Z.min (SpecFloat.fexp prec emax (Zdigits2 a - Zdigits2 b)) 0.

(** The binary64 value nearest to [a / b], for [0 < a] and [0 < b]. *)
Definition quotient (a b : Z) : spec_float :=
  round_frac (a * 2 ^ div_shift a b) b (- div_shift a b).

End Binary64.


(** ** Specifications of stateful methods *)

(** From a state that satisfies [P], the method [m] returns a value and a
    state that satisfy [Q], or raises an exception that satisfies [E] with
    the state at the raise. *)
Definition triple {S A} (P : S → Prop) (m : M S A) (Q : A → S → Prop)
    (E : exn → S → Prop) : Prop :=
  ∀ s, P s → match m s with
             | (Ok a, s') => Q a s'
             | (Raise e, s') => E e s'
             end.

(** [m] keeps the invariant [I], also when it raises, and it does not
    raise [AssertionError]. *)
Definition keeps {S A} (I : S → Prop) (m : M S A) : Prop :=
  triple I m (fun _ s => I s) (fun e s => e ≠ AssertionError ∧ I s).

(** From a state that satisfies [I], the method [m] returns, and with
    a state that satisfies [I]. *)
Definition returns {S A} (I : S → Prop) (m : M S A) : Prop :=
  triple I m (fun _ s => I s) (fun _ _ => False).

(** ** The pages of the layout engine *)

(** [current_page] is [None] as long as there is no page, and the page
    appended last afterwards. *)
Definition page_ok (s : LayoutEngine.t) : Prop :=
  match LayoutEngine.current_page s with
  | None => LayoutEngine.pages s = []
  | Some i => S i = length (LayoutEngine.pages s)
  end.

(** Every page of [before] is a page of [after], at the same position and
    with the same commands, possibly followed by more. *)
Definition extends (before after : list (list LayoutEngine.command)) : Prop :=
  ∀ i cmds, before !! i = Some cmds → ∃ more, after !! i = Some (cmds ++ more).

(** A text command drawn at a height [y] for which the page break test
    of [add_paragraph], [y < MARGIN_BOTTOM + size], is false. *)
Definition above_margin (c : LayoutEngine.command) : Prop :=
  match c with
  | LayoutEngine.ShowText size _ y _ => (y <? MARGIN_BOTTOM + size)%float = false
  | _ => True
  end.

Definition margin_ok (pages : list (list LayoutEngine.command)) : Prop :=
  Forall (Forall above_margin) pages.

(** A font size for which the page break test is false at the top of a
    page: a line of this size fits on an empty page. *)
Definition size_fits (size : float) : Prop :=
  (PAGE_HEIGHT - MARGIN_TOP <? MARGIN_BOTTOM + size)%float = false.

(** The words of the lines of a paragraph, in order. *)
Definition line_words (lines : list (float * pystr)) : list pystr :=
  concat (map (fun l => split l.2) lines).

(** The words placed so far by the word loop of [add_paragraph]. *)
Definition placed_words (w : LayoutEngine.wrap) : list pystr :=
  line_words (LayoutEngine.lines w) ++ split (LayoutEngine.line_text w).

(** A non-empty string without whitespace. *)
Definition is_word (w : pystr) : Prop :=
  w ≠ [] ∧ Forall (fun c => isspace c = false) w.

(** The engine as the public methods find and leave it, seen from the
    state [s0] some calls earlier: the current page is in order, the pages
    of [s0] have only been extended, and, under the assumption [G], every
    text command lies above the bottom margin. *)
Definition engine_ok (G : Prop) (s0 s : LayoutEngine.t) : Prop :=
  page_ok s ∧
  extends (LayoutEngine.pages s0) (LayoutEngine.pages s) ∧
  (G → margin_ok (LayoutEngine.pages s)).

(** The same, once there is a current page. *)
Definition laid_out (G : Prop) (s0 s : LayoutEngine.t) : Prop :=
  engine_ok G s0 s ∧ is_Some (LayoutEngine.current_page s).

(** ** Sequences of calls on a [LayoutEngine] *)

(** A call of one of the public methods. *)
Inductive layout_call : Type :=
  | AddHeading (text : pystr) (level : Z)
  | AddParagraph (paragraph : Paragraph)
  | AddBulletList (items : list pystr)
  | AddSpacing (amount : float).

Definition run_layout_call (c : layout_call) : M LayoutEngine.t unit :=
  match c with
  | AddHeading text level => LayoutEngine.add_heading text level
  | AddParagraph paragraph => LayoutEngine.add_paragraph paragraph
  | AddBulletList items => LayoutEngine.add_bullet_list items
  | AddSpacing amount => LayoutEngine.add_spacing amount
  end.

(** The calls one after the other, up to the first that raises. *)
Definition run_layout (calls : list layout_call) : M LayoutEngine.t unit :=
  for_ calls run_layout_call.

(** The font size of the call is one for which a line fits on a page;
    the sizes of headings and list items are fixed by the methods. *)
Definition call_fits (c : layout_call) : Prop :=
  match c with
  | AddParagraph paragraph => size_fits (size paragraph)
  | _ => True
  end.

(** The dictionary of the Type 0 font, the object [build_pdf_objects]
    adds last and returns. *)
Definition type0_font_dict (descendant_obj to_unicode_obj : nat) : PDFDocument.pydict :=
  [(lit "Type", lit "/Font");
   (lit "Subtype", lit "/Type0");
   (lit "BaseFont", FontEncoder.base_font_name);
   (lit "Encoding", lit "/Identity-H");
   (lit "DescendantFonts", lit "[" ++ FontEncoder.obj_ref descendant_obj ++ lit "]");
   (lit "ToUnicode", FontEncoder.obj_ref to_unicode_obj)].

(** ** [build_pdf]: the page tree

    The part of [build_pdf] that follows the layout: the font objects, one
    content stream and one page object per page, the page tree root and the
    catalog.  A page is given by its commands, the strings that the layout
    has appended. *)

Section BuildPdf.

Variable zlib_compress : bytes → bytes.
Variable str_float : Q → pystr.

(** The stream object that [pdf.add_stream(d, data, compress=True)]
    appends: the data compressed, and the dictionary with its [Filter] and
    [Length]. *)
Definition compressed_stream (d : PDFDocument.pydict) (data : bytes) : result bytes :=
  let data := zlib_compress data in
  stream_object
    (PDFDocument.setitem (lit "Length") (str_N (N.of_nat (length data)))
       (PDFDocument.setitem (lit "Filter") (lit "/FlateDecode") d))
    data.

(** The dictionary of the font descriptor. *)
Definition font_descriptor_dict (f : TrueTypeFont.t)
    (ascent descent cap_height bx0 by0 bx1 by1 : Z) (font_file_obj : nat)
    : PDFDocument.pydict :=
  [(lit "Type", lit "/FontDescriptor");
   (lit "FontName", FontEncoder.base_font_name);
   (lit "Flags", lit "4");
   (lit "Ascent", str_Z ascent);
   (lit "Descent", str_Z descent);
   (lit "CapHeight", str_Z cap_height);
   (lit "ItalicAngle", str_float (TrueTypeFont.italic_angle f));
   (lit "StemV", lit "80");
   (lit "FontBBox",
    lit "[" ++ str_Z bx0 ++ lit " " ++ str_Z by0 ++ lit " " ++ str_Z bx1
    ++ lit " " ++ str_Z by1 ++ lit "]");
   (lit "FontFile2", FontEncoder.obj_ref font_file_obj)].

(** The dictionary of the descendant CID font. *)
Definition descendant_font_dict (font_descriptor_obj : nat) (default_width : Z)
    (w_array : pystr) (cid_map_obj : nat) : PDFDocument.pydict :=
  [(lit "Type", lit "/Font");
   (lit "Subtype", lit "/CIDFontType2");
   (lit "BaseFont", FontEncoder.base_font_name);
   (lit "CIDSystemInfo",
    lit "<< /Registry (Adobe) /Ordering (Identity) /Supplement 0 >>");
   (lit "FontDescriptor", FontEncoder.obj_ref font_descriptor_obj);
   (lit "DW", str_Z default_width);
   (lit "W", w_array);
   (lit "CIDToGIDMap", FontEncoder.obj_ref cid_map_obj)].

(** The six objects of the font, as [build_pdf_objects] computes them on
    the encoder [self] for a document that holds [n] objects: the
    CIDToGIDMap stream, the ToUnicode stream, the font file stream, the font
    descriptor, the descendant CID font and the Type 0 font. *)
Definition font_objects (self : FontEncoder.t) (n : nat) : result (list bytes) :=
  let f := FontEncoder.font self in
  let upm := TrueTypeFont.units_per_em f in
  widths ← FontEncoder._widths_1000 self;
  cid_to_gid ← FontEncoder.cid_to_gid_of self (FontEncoder.max_gid_of widths);
  cid_map ← compressed_stream [] cid_to_gid;
  entries ← FontEncoder.to_unicode_entries self;
  cmap_bytes ←
    encode_utf8 (FontEncoder.cmap_content_of (FontEncoder.to_unicode_chunks entries));
  to_unicode ← compressed_stream [] cmap_bytes;
  font_file ←
    compressed_stream
      [(lit "Length1", str_N (N.of_nat (length (TrueTypeFont.data f))))]
      (TrueTypeFont.data f);
  ascent ← per_mille upm (TrueTypeFont.s_typo_ascender f);
  descent ← per_mille upm (TrueTypeFont.s_typo_descender f);
  cap_height ← per_mille upm (TrueTypeFont.s_cap_height f);
  bx0 ← per_mille upm (TrueTypeFont.x_min f);
  by0 ← per_mille upm (TrueTypeFont.y_min f);
  bx1 ← per_mille upm (TrueTypeFont.x_max f);
  by1 ← per_mille upm (TrueTypeFont.y_max f);
  let default_width := FontEncoder.default_width_of self widths in
  descriptor ←
    encode_utf8
      (PDFDocument.dict_text
         (font_descriptor_dict f ascent descent cap_height bx0 by0 bx1 by1 (n + 3)));
  descendant ←
    encode_utf8
      (PDFDocument.dict_text
         (descendant_font_dict (n + 4) default_width
            (FontEncoder.w_array_of (FontEncoder.w_pairs widths default_width))
            (n + 1)));
  type0 ← encode_utf8 (PDFDocument.dict_text (type0_font_dict (n + 5) (n + 2)));
  Ok [cid_map; to_unicode; font_file; descriptor; descendant; type0].

(** The dictionary of a page object; [PAGE_WIDTH] and [PAGE_HEIGHT] are
    formatted with [:.2f]. *)
Definition page_dict (content_obj font_obj : nat) : PDFDocument.pydict :=
  [(lit "Type", lit "/Page");
   (lit "Parent", lit "2 0 R");
   (lit "MediaBox", lit "[0 0 595.28 841.89]");
   (lit "Contents", FontEncoder.obj_ref content_obj);
   (lit "Resources",
    lit "<< /Font << /F1 " ++ str_N (N.of_nat font_obj) ++ lit " 0 R >> >>")].

(** The loop over [layout.pages]. *)
Fixpoint add_pages (pages : list (list pystr)) (font_obj : nat)
    (pages_objects : list nat) : M (FontEncoder.t * PDFDocument.world) (list nat) :=
  match pages with
  | [] => mret pages_objects
  | commands :: rest =>
      content ← lift (encode_utf8 (join [10] commands));
      content_obj ← FontEncoder.add_stream_of zlib_compress [] content;
      page_obj ← FontEncoder.add_object_of (page_dict content_obj font_obj);
      add_pages rest font_obj (pages_objects ++ [page_obj])
  end.

(** The dictionary of the page tree root. *)
Definition pages_dict (pages_objects : list nat) : PDFDocument.pydict :=
  [(lit "Type", lit "/Pages");
   (lit "Kids", lit "[" ++ join (lit " ") (map FontEncoder.obj_ref pages_objects) ++ lit "]");
   (lit "Count", str_N (N.of_nat (length pages_objects)))].

(** From [font_obj = encoder.build_pdf_objects(pdf)] to the catalog, on
    the document [pdf]; returns [pages_obj] and [catalog_obj]. *)
Definition build_document (pages : list (list pystr))
    : M (FontEncoder.t * PDFDocument.world) (nat * nat) :=
  font_obj ← FontEncoder.build_pdf_objects zlib_compress str_float;
  pages_objects ← add_pages pages font_obj [];
  pages_obj ← FontEncoder.add_object_of (pages_dict pages_objects);
  catalog_obj ←
    FontEncoder.add_object_of
      [(lit "Type", lit "/Catalog"); (lit "Pages", FontEncoder.obj_ref pages_obj)];
  mret (pages_obj, catalog_obj).

End BuildPdf.

(** ** Widths of lines *)

(** What [measure_text] returns for [text], by the font alone. *)
Definition text_width (font : TrueTypeFont.t) (font_size : float) (text : pystr)
    : result float :=
  match text_units font text with
  | Some total => FontEncoder.scale total (TrueTypeFont.units_per_em font) font_size
  | None => Raise IndexError
  end.

(** The space available to a line: [max_width - line_indent]. *)
Definition line_available (l : float * pystr) : float :=
  (LayoutEngine.max_width - l.1)%float.

(** No word of the line is wider than the space available to the line. *)
Definition words_fit (font : TrueTypeFont.t) (font_size : float) (l : float * pystr)
    : Prop :=
  ∀ word, word ∈ split l.2 →
    ∃ width, text_width font font_size word = Ok width ∧
             (width <=? line_available l)%float = true.

(** The line holds at most one word (a word alone, or the bullet alone). *)
Definition single_word (l : float * pystr) : Prop := (length (split l.2) ≤ 1)%nat.

(** The state of the word loop of [add_paragraph], for a font and a
    font size: the width accumulated for the current line is not negative
    and not below the width of any of its words, the current line fits or
    holds a single word, and no line that holds several words holds a word
    wider than the space available to it. *)
Record wrap_ok (font : TrueTypeFont.t) (font_size : float) (w : LayoutEngine.wrap)
    : Prop :=
  WrapOk {
    wrap_available :
      LayoutEngine.available_width w
      = (LayoutEngine.max_width - LayoutEngine.line_indent w)%float;
    wrap_nonneg : (0 <=? LayoutEngine.line_width w)%float = true;
    wrap_current :
      ∀ word, word ∈ split (LayoutEngine.line_text w) →
        ∃ width, text_width font font_size word = Ok width ∧
                 (width <=? LayoutEngine.line_width w)%float = true;
    wrap_fits :
      (LayoutEngine.line_width w <=? LayoutEngine.available_width w)%float = true ∨
      single_word (LayoutEngine.line_indent w, LayoutEngine.line_text w);
    wrap_lines :
      Forall (fun l => words_fit font font_size l ∨ single_word l) (LayoutEngine.lines w)
  }.

(** The indents of the lines of a paragraph: the first line has the
    paragraph's indent, the others the continuation indent. *)
Definition indents_ok (paragraph : Paragraph) (lines : list (float * pystr)) : Prop :=
  match lines with
  | [] => True
  | l :: rest =>
      l.1 = indent paragraph ∧
      Forall (fun l' => l'.1 = LayoutEngine.continuation_indent paragraph) rest
  end.

(** The engine's encoder is one of the font [fnt], reached by text
    calls. *)
Definition encoder_of (fnt : TrueTypeFont.t) (s : LayoutEngine.t) : Prop :=
  ∃ trace, tracked fnt trace (LayoutEngine.font s).

(** The engine has a current page, and an encoder of the font [fnt]. *)
Definition ready (fnt : TrueTypeFont.t) (s : LayoutEngine.t) : Prop :=
  is_Some (LayoutEngine.current_page s) ∧ encoder_of fnt s.

(** The text that [add_paragraph] measures, in pieces: the bullet prefix
    of a bullet paragraph, a space, and the text with its no-break spaces
    replaced. *)
Definition measured_text (paragraph : Paragraph) : pystr :=
  (if bullet paragraph then LayoutEngine.bullet_prefix else [])
  ++ lit " " ++ replace_nbsp (text paragraph).

(** ** The table directory *)

(** The number of records the directory announces. *)
Definition directory_count (data : bytes) : N := Struct.fH 4 (slice 0 12 data).

(** Record [i] of the table directory: sixteen bytes from byte
    [12 + 16 * i]. *)
Definition directory_record (data : bytes) (i : N) : bytes :=
  nslice (12 + 16 * i) (12 + 16 * i + 16) data.

(** The tag of record [i], as the key it is stored under. *)
Definition directory_tag (data : bytes) (i : N) : pystr :=
  map Byte.to_N (slice 0 4 (directory_record data i)).

(** The offset and the length of record [i]. *)
Definition directory_entry (data : bytes) (i : N) : N * N :=
  (Struct.fI 8 (directory_record data i), Struct.fI 12 (directory_record data i)).
Module Binary64Facts.
Import Binary64.
Local Open Scope Z_scope.

Lemma located_unique (n d q r : Z) :
  0 <= r < d -> n = d * q + r ->
  located n d = (q, if r =? 0 then loc_Exact else loc_Inexact (2 * r ?= d)).
Proof.
  intros Hr Hn. unfold located.
  assert (n / d = q) as -> by (symmetry; apply (Z.div_unique n d q r); lia).
  assert (n mod d = r) as -> by (symmetry; apply (Z.mod_unique n d q r); lia).
  reflexivity.
Qed.

Lemma located_spec (n d : Z) :
  0 < d -> 0 <= n mod d < d /\ n = d * (n / d) + n mod d.
Proof.
  intros Hd. split; [apply Z.mod_pos_bound; lia|]. apply Z.div_mod. lia.
Qed.

Lemma shr_1_located (n d : Z) :
  0 <= n -> 0 < d ->
  shr_1 (shr_record_of_loc (located n d).1 (located n d).2)
  = shr_record_of_loc (located n (2 * d)).1 (located n (2 * d)).2.
Proof.
  intros Hn Hd. destruct (located_spec n d Hd) as [Hr Hdiv].
  assert (Hq : 0 <= n / d) by (apply Z.div_pos; lia).
  unfold located at 1 2. cbn [fst snd].
  set (q := n / d) in *. set (r := n mod d) in *. clearbody q r.
  destruct q as [|[p|p|]|p]; try lia.
  - rewrite (located_unique n (2 * d) 0 r) by lia. cbn [fst snd].
    destruct (Z.eqb_spec r 0) as [->|Hr0]; [done|].
    replace (2 * r ?= 2 * d) with Lt by (symmetry; apply Z.compare_lt_iff; lia).
    by destruct (2 * r ?= d).
  - (* q = 2p+1 *)
    rewrite (located_unique n (2 * d) (Zpos p) (d + r)) by lia. cbn [fst snd].
    destruct (Z.eqb_spec r 0) as [->|Hr0].
    + destruct (Z.eqb_spec (d + 0) 0); [lia|].
      replace (2 * (d + 0) ?= 2 * d) with Eq by (symmetry; apply Z.compare_eq_iff; lia).
      reflexivity.
    + destruct (Z.eqb_spec (d + r) 0); [lia|].
      replace (2 * (d + r) ?= 2 * d) with Gt by (symmetry; apply Z.compare_gt_iff; lia).
      by destruct (2 * r ?= d).
  - rewrite (located_unique n (2 * d) (Zpos p) r) by lia. cbn [fst snd].
    destruct (Z.eqb_spec r 0) as [->|Hr0]; [done|].
    replace (2 * r ?= 2 * d) with Lt by (symmetry; apply Z.compare_lt_iff; lia).
    by destruct (2 * r ?= d).
  - rewrite (located_unique n (2 * d) 0 (d + r)) by lia. cbn [fst snd].
    destruct (Z.eqb_spec r 0) as [->|Hr0].
    + destruct (Z.eqb_spec (d + 0) 0); [lia|].
      replace (2 * (d + 0) ?= 2 * d) with Eq by (symmetry; apply Z.compare_eq_iff; lia).
      reflexivity.
    + destruct (Z.eqb_spec (d + r) 0); [lia|].
      replace (2 * (d + r) ?= 2 * d) with Gt by (symmetry; apply Z.compare_gt_iff; lia).
      by destruct (2 * r ?= d).
Qed.

Lemma pow2_xI (p : positive) : 2 ^ Z.pos p~1 = 2 * (2 ^ Z.pos p * 2 ^ Z.pos p).
Proof.
  replace (Z.pos p~1) with (1 + Z.pos p + Z.pos p) by lia.
  rewrite !Z.pow_add_r by lia. change (2 ^ 1) with 2. lia.
Qed.

Lemma pow2_xO (p : positive) : 2 ^ Z.pos p~0 = 2 ^ Z.pos p * 2 ^ Z.pos p.
Proof.
  replace (Z.pos p~0) with (Z.pos p + Z.pos p) by lia.
  by rewrite Z.pow_add_r by lia.
Qed.

Lemma pow2_pos (k : Z) : 0 <= k -> 0 < 2 ^ k.
Proof. intros. apply Z.pow_pos_nonneg; lia. Qed.

Lemma iter_shr_1_located (p : positive) (n d : Z) :
  0 <= n -> 0 < d ->
  SpecFloat.iter_pos shr_1 p (shr_record_of_loc (located n d).1 (located n d).2)
  = shr_record_of_loc (located n (2 ^ Zpos p * d)).1 (located n (2 ^ Zpos p * d)).2.
Proof.
  intros Hn. revert d.
  induction p as [p IH|p IH|]; intros d Hd; cbn [SpecFloat.iter_pos].
  - pose proof (pow2_pos (Z.pos p) ltac:(lia)) as Hp.
    rewrite shr_1_located, IH, IH by nia.
    rewrite pow2_xI. f_equal; f_equal; f_equal; lia.
  - pose proof (pow2_pos (Z.pos p) ltac:(lia)) as Hp.
    rewrite IH, IH by nia.
    rewrite pow2_xO. f_equal; f_equal; f_equal; lia.
  - by rewrite shr_1_located.
Qed.


(** ** The number of binary digits *)

Lemma digits2_pos_spec (p : positive) :
  2 ^ (Z.pos (digits2_pos p) - 1) <= Z.pos p < 2 ^ Z.pos (digits2_pos p).
Proof.
  induction p as [p IH|p IH|]; cbn [digits2_pos].
  - rewrite Pos2Z.inj_succ.
    replace (Z.succ (Z.pos (digits2_pos p)) - 1) with (Z.succ (Z.pos (digits2_pos p) - 1)) by lia.
    rewrite !Z.pow_succ_r by lia. lia.
  - rewrite Pos2Z.inj_succ.
    replace (Z.succ (Z.pos (digits2_pos p)) - 1) with (Z.succ (Z.pos (digits2_pos p) - 1)) by lia.
    rewrite !Z.pow_succ_r by lia. lia.
  - done.
Qed.

Lemma Zdigits2_spec (m : Z) :
  0 < m -> 0 < Zdigits2 m /\ 2 ^ (Zdigits2 m - 1) <= m < 2 ^ Zdigits2 m.
Proof.
  destruct m as [|p|p]; try lia. intros _. split; [done|]. apply digits2_pos_spec.
Qed.

Lemma Zdigits2_nonneg (m : Z) : 0 <= Zdigits2 m.
Proof. by destruct m. Qed.

Lemma pow2_lt_inv (a b : Z) : 0 <= b -> 2 ^ a < 2 ^ b -> a < b.
Proof.
  intros Hb H. destruct (Z_lt_le_dec a b) as [|Hle]; [done|].
  pose proof (Z.pow_le_mono_r 2 b a ltac:(lia) Hle). lia.
Qed.

Lemma Zdigits2_unique (m k : Z) :
  0 < k -> 2 ^ (k - 1) <= m < 2 ^ k -> Zdigits2 m = k.
Proof.
  intros Hk [Hlo Hhi].
  assert (Hm : 0 < m) by (pose proof (pow2_pos (k - 1) ltac:(lia)); lia).
  destruct (Zdigits2_spec m Hm) as [Hd [Hlo' Hhi']].
  assert (Zdigits2 m - 1 < k) by (apply pow2_lt_inv; lia).
  assert (k - 1 < Zdigits2 m) by (apply pow2_lt_inv; lia).
  lia.
Qed.

Lemma Zdigits2_le_upper (m k : Z) : 0 <= m -> 0 <= k -> m < 2 ^ k -> Zdigits2 m <= k.
Proof.
  intros Hm Hk H. destruct (Z.eq_dec m 0) as [->|Hne]; [done|].
  destruct (Zdigits2_spec m ltac:(lia)) as [Hd [Hlo _]].
  assert (Zdigits2 m - 1 < k) by (apply pow2_lt_inv; lia). lia.
Qed.

Lemma Zdigits2_mono (m m' : Z) : 0 <= m <= m' -> Zdigits2 m <= Zdigits2 m'.
Proof.
  intros [Hm Hle]. destruct (Z.eq_dec m 0) as [->|Hne]; [apply Zdigits2_nonneg|].
  destruct (Zdigits2_spec m ltac:(lia)) as [Hd [Hlo _]].
  destruct (Zdigits2_spec m' ltac:(lia)) as [Hd' [_ Hhi]].
  assert (Zdigits2 m - 1 < Zdigits2 m') by (apply pow2_lt_inv; lia). lia.
Qed.

Lemma fexp_mono (a b : Z) : a <= b -> SpecFloat.fexp prec emax a <= SpecFloat.fexp prec emax b.
Proof. unfold SpecFloat.fexp. lia. Qed.

Lemma fexp_emin (a : Z) : SpecFloat.emin prec emax <= SpecFloat.fexp prec emax a.
Proof. unfold SpecFloat.fexp. lia. Qed.

(** ** Rounding a quotient to an integer *)

Lemma rne_cases (n d : Z) :
  0 < d ->
  let q := n / d in
  let r := n mod d in
  (2 * r < d /\ rne n d = q) \/
  (2 * r = d /\ rne n d = if Z.even q then q else q + 1) \/
  (d < 2 * r /\ rne n d = q + 1).
Proof.
  intros Hd q r. destruct (located_spec n d Hd) as [Hr _]. fold r in Hr.
  unfold rne, located. fold q r. cbn [fst snd].
  destruct (Z.eqb_spec r 0) as [Hr0|Hr0]; cbn [round_nearest_even].
  - left. lia.
  - destruct (Z.compare_spec (2 * r) d); cbn [round_nearest_even].
    + right. left. done.
    + left. done.
    + right. right. done.
Qed.

Lemma rne_bounds (n d : Z) : 0 < d -> n / d <= rne n d <= n / d + 1.
Proof.
  intros Hd. destruct (rne_cases n d Hd) as [[_ ->]|[[_ ->]|[_ ->]]]; try lia.
  destruct (Z.even _); lia.
Qed.

Lemma rne_mono (n n' d : Z) : 0 < d -> n <= n' -> rne n d <= rne n' d.
Proof.
  intros Hd Hle.
  assert (Hq : n / d <= n' / d) by (apply Z.div_le_mono; lia).
  pose proof (rne_bounds n d Hd). pose proof (rne_bounds n' d Hd).
  destruct (Z.eq_dec (n / d) (n' / d)) as [Heq|Hne]; [|lia].
  destruct (located_spec n d Hd) as [Hr Hn]. destruct (located_spec n' d Hd) as [Hr' Hn'].
  assert (Hrr : n mod d <= n' mod d) by nia.
  destruct (rne_cases n d Hd) as [[? ->]|[[? ->]|[? ->]]];
    destruct (rne_cases n' d Hd) as [[? ->]|[[? ->]|[? ->]]];
    rewrite <- ?Heq; try destruct (Z.even _); lia.
Qed.

Lemma located_scale (n d c : Z) : 0 < d -> 0 < c -> located (n * c) (d * c) = located n d.
Proof.
  intros Hd Hc. destruct (located_spec n d Hd) as [Hr Hn].
  rewrite (located_unique (n * c) (d * c) (n / d) (n mod d * c)) by nia.
  unfold located. f_equal.
  destruct (Z.eqb_spec (n mod d) 0) as [->|Hne]; [done|].
  destruct (Z.eqb_spec (n mod d * c) 0); [nia|]. f_equal.
  destruct (Z.compare_spec (2 * (n mod d)) d).
  - apply Z.compare_eq_iff. nia.
  - apply Z.compare_lt_iff. nia.
  - apply Z.compare_gt_iff. nia.
Qed.

Lemma rne_scale (n d c : Z) : 0 < d -> 0 < c -> rne (n * c) (d * c) = rne n d.
Proof. intros. unfold rne. by rewrite located_scale. Qed.

Lemma rne_exact (n : Z) : rne n 1 = n.
Proof. unfold rne, located. by rewrite Z.mod_1_r, Z.div_1_r. Qed.

(** ** The two stages of [binary_round_aux] *)

Lemma shr_record_of_loc_m (m : Z) (l : location) : shr_m (shr_record_of_loc m l) = m.
Proof. by destruct l as [|[]]. Qed.

Lemma loc_of_shr_record_of_loc (m : Z) (l : location) :
  loc_of_shr_record (shr_record_of_loc m l) = l.
Proof. by destruct l as [|[]]. Qed.

Lemma shr_fexp_located (n d e : Z) :
  0 <= n -> 0 < d -> aligned n d e ->
  let D := 2 ^ (cexp n d e - e) * d in
  shr_fexp prec emax (located n d).1 e (located n d).2
  = (shr_record_of_loc (located n D).1 (located n D).2, cexp n d e).
Proof.
  intros Hn Hd Hal D. unfold shr_fexp, shr. unfold aligned in Hal.
  change (SpecFloat.fexp prec emax (Zdigits2 (located n d).1 + e)) with (cexp n d e).
  subst D. destruct (cexp n d e - e) as [|p|p] eqn:Hk; try lia.
  - rewrite Z.pow_0_r, Z.mul_1_l. f_equal. lia.
  - rewrite iter_shr_1_located by done. f_equal. lia.
Qed.

Lemma round_frac_eq (n d e : Z) :
  0 <= n -> 0 < d -> aligned n d e ->
  round_frac n d e = finish (rne n (2 ^ (cexp n d e - e) * d)) (cexp n d e).
Proof.
  intros Hn Hd Hal. unfold round_frac, binary_round_aux.
  rewrite shr_fexp_located by done.
  rewrite shr_record_of_loc_m, loc_of_shr_record_of_loc. done.
Qed.

(** The mantissa after the first stage. *)
Lemma stage_bounds (n d e : Z) :
  0 <= n -> 0 < d -> aligned n d e ->
  let D := 2 ^ (cexp n d e - e) * d in
  0 < D /\ 0 <= n / D < 2 ^ 53 /\
  (SpecFloat.emin prec emax < cexp n d e -> 2 ^ 52 <= n / D).
Proof.
  intros Hn Hd Hal D. unfold aligned in Hal.
  pose proof (pow2_pos (cexp n d e - e) ltac:(lia)) as Hp.
  assert (HD : 0 < D) by (subst D; nia).
  split; [done|].
  assert (Hm : 0 <= n / d) by (apply Z.div_pos; lia).
  assert (HnD : n / D = n / d / 2 ^ (cexp n d e - e)).
  { subst D. rewrite (Z.mul_comm _ d). by rewrite Z.div_div by lia. }
  rewrite HnD. set (m := n / d) in *. set (k := cexp n d e - e) in *.
  assert (Hk : Zdigits2 m - 53 <= k).
  { subst k. unfold cexp, SpecFloat.fexp, prec. fold m. lia. }
  destruct (Z.eq_dec m 0) as [Hm0|Hm0].
  - rewrite Hm0, Z.div_0_l by lia. split; [done|].
    intros Hemin. exfalso. unfold cexp in *. fold m in Hal, Hemin.
    rewrite Hm0 in Hal, Hemin. cbn [Zdigits2] in Hal, Hemin.
    unfold SpecFloat.fexp, SpecFloat.emin, prec, emax in *. lia.
  - destruct (Zdigits2_spec m ltac:(lia)) as [Hdg [Hlo Hhi]].
    split; [split|].
    + apply Z.div_pos; lia.
    + apply Z.div_lt_upper_bound; [done|].
      rewrite <- Z.pow_add_r by lia.
      eapply Z.lt_le_trans; [exact Hhi|]. apply Z.pow_le_mono_r; lia.
    + intros Hemin.
      assert (Hk' : k = Zdigits2 m - 53).
      { subst k. unfold cexp, SpecFloat.fexp, prec in *. fold m in Hemin |- *. lia. }
      apply Z.div_le_lower_bound; [done|].
      rewrite <- Z.pow_add_r by lia.
      replace (k + 52) with (Zdigits2 m - 1) by lia. done.
Qed.

Lemma cexp_emin (n d e : Z) : SpecFloat.emin prec emax <= cexp n d e.
Proof. apply fexp_emin. Qed.

(** ** The end of the rounding *)

Lemma finish_cases (m e : Z) :
  0 <= m <= 2 ^ 53 -> SpecFloat.emin prec emax <= e ->
  finish m e =
    if m =? 0 then S754_zero false
    else if m <? 2 ^ 53
         then (if e <=? emax - prec then S754_finite false (Z.to_pos m) e
               else S754_infinity false)
         else (if e + 1 <=? emax - prec then S754_finite false (Z.to_pos (2 ^ 52)) (e + 1)
               else S754_infinity false).
Proof.
  intros Hm He. unfold finish, shr_fexp, shr.
  destruct (Z.eqb_spec m 0) as [->|Hm0].
  { cbn [Zdigits2]. destruct (_ - e) as [|p|p] eqn:Hk; try done.
    exfalso. unfold SpecFloat.fexp, SpecFloat.emin, prec, emax in *. lia. }
  destruct (Z.ltb_spec m (2 ^ 53)) as [Hlt|Hge].
  - assert (Hd : Zdigits2 m <= 53) by (apply Zdigits2_le_upper; lia).
    destruct (_ - e) as [|p|p] eqn:Hk.
    + cbn [shr_record_of_loc shr_m]. destruct m; try lia. done.
    + exfalso. unfold SpecFloat.fexp, SpecFloat.emin, prec, emax in *. lia.
    + cbn [shr_record_of_loc shr_m]. destruct m; try lia. done.
  - assert (m = 2 ^ 53) as -> by lia.
    replace (SpecFloat.fexp prec emax (Zdigits2 (2 ^ 53) + e) - e) with 1.
    + done.
    + change (Zdigits2 (2 ^ 53)) with 54.
      unfold SpecFloat.fexp, SpecFloat.emin, prec, emax in *. lia.
Qed.

Lemma SFleb_finite (m m' : positive) (e e' : Z) :
  SFleb (S754_finite false m e) (S754_finite false m' e') = true
  <-> e < e' \/ (e = e' /\ (m <= m')%positive).
Proof.
  unfold SFleb, SFcompare. change (Pos.compare_cont Eq m m') with (m ?= m')%positive.
  destruct (Z.compare_spec e e'); [destruct (Pos.compare_spec m m')|..];
    split; intros; try done; try lia.
Qed.

Lemma finish_mono (m m' e e' : Z) :
  0 <= m <= 2 ^ 53 -> 0 <= m' <= 2 ^ 53 ->
  SpecFloat.emin prec emax <= e -> SpecFloat.emin prec emax <= e' ->
  (e = e' /\ m <= m') \/ (e < e' /\ 2 ^ 52 <= m') ->
  SFleb (finish m e) (finish m' e') = true.
Proof.
  intros Hm Hm' He He' Hle. rewrite !finish_cases by done.
  destruct (Z.eqb_spec m 0) as [Hm0|Hm0].
  { repeat case_match; done. }
  destruct (Z.eqb_spec m' 0) as [Hm0'|Hm0']; [lia|].
  destruct (Z.ltb_spec m (2 ^ 53)), (Z.ltb_spec m' (2 ^ 53));
    repeat (match goal with |- context [?a <=? ?b] => destruct (Z.leb_spec a b) end);
    try done; try lia;
    apply SFleb_finite; lia.
Qed.

(** ** Rounding is monotone *)

Lemma rne_stage_bounds (n d e : Z) :
  0 <= n -> 0 < d -> aligned n d e ->
  let m := rne n (2 ^ (cexp n d e - e) * d) in
  0 <= m <= 2 ^ 53 /\ (SpecFloat.emin prec emax < cexp n d e -> 2 ^ 52 <= m).
Proof.
  intros Hn Hd Hal m.
  destruct (stage_bounds n d e Hn Hd Hal) as (HD & Hb & H52).
  pose proof (rne_bounds n _ HD) as Hr. fold m in Hr. split; [lia|].
  intros He. specialize (H52 He). lia.
Qed.

Lemma round_frac_mono_same (n n' d e : Z) :
  0 <= n <= n' -> 0 < d -> aligned n d e -> aligned n' d e ->
  SFleb (round_frac n d e) (round_frac n' d e) = true.
Proof.
  intros [Hn Hle] Hd Hal Hal'.
  rewrite !round_frac_eq by (done || lia).
  destruct (rne_stage_bounds n d e Hn Hd Hal) as [Hb _].
  destruct (rne_stage_bounds n' d e ltac:(lia) Hd Hal') as [Hb' H52].
  assert (Hc : cexp n d e <= cexp n' d e).
  { unfold cexp. apply fexp_mono.
    pose proof (Zdigits2_mono (n / d) (n' / d)) as Hdg.
    assert (n / d <= n' / d) by (apply Z.div_le_mono; lia).
    assert (0 <= n / d) by (apply Z.div_pos; lia). lia. }
  apply finish_mono; try done; try apply cexp_emin.
  destruct (Z.eq_dec (cexp n d e) (cexp n' d e)) as [Heq|Hne].
  - left. split; [done|]. rewrite Heq. apply rne_mono; [|done].
    destruct (stage_bounds n' d e ltac:(lia) Hd Hal') as (HD & _). done.
  - right. split; [lia|]. apply H52. pose proof (cexp_emin n d e). lia.
Qed.

Lemma cexp_scale (n d e j c : Z) :
  0 <= n -> 0 < d -> aligned n d e -> 0 <= j -> 0 < c ->
  cexp (2 ^ j * n * c) (d * c) (e - j) = cexp n d e.
Proof.
  intros Hn Hd Hal Hj Hc. unfold aligned, cexp in *.
  pose proof (pow2_pos j Hj) as Hp.
  rewrite Z.div_mul_cancel_r by lia.
  assert (Hm : 0 <= n / d) by (apply Z.div_pos; lia).
  destruct (located_spec n d Hd) as [Hr Hdiv].
  destruct (Z.eq_dec (n / d) 0) as [Hm0|Hm0].
  - rewrite Hm0 in *. cbn [Zdigits2] in *.
    assert (Hlt : 2 ^ j * n / d < 2 ^ j) by (apply Z.div_lt_upper_bound; nia).
    assert (Hnn : 0 <= 2 ^ j * n / d) by (apply Z.div_pos; nia).
    pose proof (Zdigits2_le_upper _ j Hnn Hj Hlt) as Hdg.
    pose proof (Zdigits2_nonneg (2 ^ j * n / d)).
    unfold SpecFloat.fexp, SpecFloat.emin, prec, emax in *. lia.
  - destruct (Zdigits2_spec (n / d) ltac:(lia)) as [Hdg [Hlo Hhi]].
    rewrite (Zdigits2_unique (2 ^ j * n / d) (Zdigits2 (n / d) + j)).
    + f_equal. lia.
    + lia.
    + split.
      * apply Z.div_le_lower_bound; [done|].
        replace (Zdigits2 (n / d) + j - 1) with (j + (Zdigits2 (n / d) - 1)) by lia.
        rewrite Z.pow_add_r by lia.
        assert (d * 2 ^ (Zdigits2 (n / d) - 1) <= n) by nia.
        generalize dependent (2 ^ (Zdigits2 (n / d) - 1)). intros. nia.
      * apply Z.div_lt_upper_bound; [done|].
        rewrite (Z.add_comm _ j), Z.pow_add_r by lia.
        assert (n < d * 2 ^ Zdigits2 (n / d)) by nia.
        generalize dependent (2 ^ Zdigits2 (n / d)). intros. nia.
Qed.

Lemma round_frac_scale (n d e j c : Z) :
  0 <= n -> 0 < d -> aligned n d e -> 0 <= j -> 0 < c ->
  aligned (2 ^ j * n * c) (d * c) (e - j) /\
  round_frac (2 ^ j * n * c) (d * c) (e - j) = round_frac n d e.
Proof.
  intros Hn Hd Hal Hj Hc.
  pose proof (cexp_scale n d e j c Hn Hd Hal Hj Hc) as Hce.
  pose proof (pow2_pos j Hj) as Hp.
  assert (Hal' : aligned (2 ^ j * n * c) (d * c) (e - j)).
  { unfold aligned in *. rewrite Hce. lia. }
  split; [done|].
  rewrite !round_frac_eq by (done || nia). rewrite Hce. f_equal.
  unfold aligned in Hal.
  replace (cexp n d e - (e - j)) with (cexp n d e - e + j) by lia.
  rewrite Z.pow_add_r by lia.
  replace (2 ^ j * n * c) with (n * (2 ^ j * c)) by lia.
  replace (2 ^ (cexp n d e - e) * 2 ^ j * (d * c))
    with (2 ^ (cexp n d e - e) * d * (2 ^ j * c)) by lia.
  pose proof (pow2_pos (cexp n d e - e) ltac:(lia)).
  apply rne_scale; nia.
Qed.

(** The values [n / d * 2 ^ e] and [n' / d' * 2 ^ e'] compared, over the
    integers. *)
Lemma round_frac_mono (n d e n' d' e' : Z) :
  0 <= n -> 0 < d -> aligned n d e ->
  0 <= n' -> 0 < d' -> aligned n' d' e' ->
  2 ^ (e - Z.min e e') * n * d' <= 2 ^ (e' - Z.min e e') * n' * d ->
  SFleb (round_frac n d e) (round_frac n' d' e') = true.
Proof.
  intros Hn Hd Hal Hn' Hd' Hal' Hle.
  destruct (round_frac_scale n d e (e - Z.min e e') d' Hn Hd Hal ltac:(lia) Hd')
    as [Ha <-].
  destruct (round_frac_scale n' d' e' (e' - Z.min e e') d Hn' Hd' Hal' ltac:(lia) Hd)
    as [Ha' <-].
  replace (e - (e - Z.min e e')) with (Z.min e e') in * by lia.
  replace (e' - (e' - Z.min e e')) with (Z.min e e') in * by lia.
  rewrite (Z.mul_comm d' d) in *.
  pose proof (pow2_pos (e - Z.min e e') ltac:(lia)).
  apply round_frac_mono_same; try done; [split; [nia|done] | nia].
Qed.

Lemma round_frac_equal (n d e n' d' e' : Z) :
  0 <= n -> 0 < d -> aligned n d e ->
  0 <= n' -> 0 < d' -> aligned n' d' e' ->
  2 ^ (e - Z.min e e') * n * d' = 2 ^ (e' - Z.min e e') * n' * d ->
  round_frac n d e = round_frac n' d' e'.
Proof.
  intros Hn Hd Hal Hn' Hd' Hal' Heq.
  destruct (round_frac_scale n d e (e - Z.min e e') d' Hn Hd Hal ltac:(lia) Hd')
    as [Ha <-].
  destruct (round_frac_scale n' d' e' (e' - Z.min e e') d Hn' Hd' Hal' ltac:(lia) Hd)
    as [Ha' <-].
  replace (e - (e - Z.min e e')) with (Z.min e e') by lia.
  replace (e' - (e' - Z.min e e')) with (Z.min e e') by lia.
  rewrite (Z.mul_comm d' d). by rewrite Heq.
Qed.

(** ** The results of rounding *)

Lemma valid_finite (s : bool) (m : positive) (e : Z) :
  valid_binary (S754_finite s m e) = true <->
  SpecFloat.fexp prec emax (Zdigits2 (Z.pos m) + e) = e /\ e <= emax - prec.
Proof.
  unfold SpecFloat.valid_binary, bounded, canonical_mantissa. cbn [Zdigits2].
  rewrite andb_true_iff, Z.eqb_eq, Z.leb_le. done.
Qed.

(** A valid finite float has at most 53 digits, and exactly 53 above the
    least exponent. *)
Lemma valid_finite_digits (s : bool) (m : positive) (e : Z) :
  valid_binary (S754_finite s m e) = true ->
  SpecFloat.emin prec emax <= e <= emax - prec /\
  Z.pos m < 2 ^ 53 /\
  (SpecFloat.emin prec emax < e -> 2 ^ 52 <= Z.pos m).
Proof.
  intros [Hc Hb]%valid_finite.
  destruct (Zdigits2_spec (Z.pos m) ltac:(lia)) as [Hd [Hlo Hhi]].
  assert (Hd53 : Zdigits2 (Z.pos m) <= 53).
  { unfold SpecFloat.fexp, SpecFloat.emin, prec, emax in *. lia. }
  split; [|split].
  - pose proof (fexp_emin (Zdigits2 (Z.pos m) + e)). lia.
  - eapply Z.lt_le_trans; [exact Hhi|]. apply Z.pow_le_mono_r; lia.
  - intros He.
    assert (Zdigits2 (Z.pos m) = 53) as Heq
      by (unfold SpecFloat.fexp, SpecFloat.emin, prec, emax in *; lia).
    by rewrite Heq in Hlo.
Qed.

Lemma finish_valid (m e : Z) :
  0 <= m <= 2 ^ 53 -> SpecFloat.emin prec emax <= e ->
  (SpecFloat.emin prec emax < e -> 2 ^ 52 <= m) ->
  valid_binary (finish m e) = true.
Proof.
  intros Hm He H52. rewrite finish_cases by done.
  destruct (Z.eqb_spec m 0) as [Hm0|Hm0]; [done|].
  destruct (Z.ltb_spec m (2 ^ 53)) as [Hlt|Hge].
  - destruct (Z.leb_spec e (emax - prec)) as [Hle|Hgt]; [|done].
    apply valid_finite. rewrite Z2Pos.id by lia. split; [|done].
    assert (Hd : Zdigits2 m <= 53) by (apply Zdigits2_le_upper; lia).
    destruct (Z.eq_dec e (SpecFloat.emin prec emax)) as [Heq|Hne].
    + unfold SpecFloat.fexp, SpecFloat.emin, prec, emax in *. lia.
    + rewrite (Zdigits2_unique m 53); [|lia|split; [apply H52; lia | done]].
      unfold SpecFloat.fexp, SpecFloat.emin, prec, emax in *. lia.
  - destruct (Z.leb_spec (e + 1) (emax - prec)) as [Hle|Hgt]; [|done].
    apply valid_finite. split; [|done].
    change (Zdigits2 (Z.pos (Z.to_pos (2 ^ 52)))) with 53.
    unfold SpecFloat.fexp, SpecFloat.emin, prec, emax in *. lia.
Qed.

Lemma finish_nonneg (m e : Z) :
  0 <= m <= 2 ^ 53 -> SpecFloat.emin prec emax <= e -> nonneg (finish m e) = true.
Proof.
  intros Hm He. rewrite finish_cases by done. repeat case_match; done.
Qed.

Lemma round_frac_valid (n d e : Z) :
  0 <= n -> 0 < d -> aligned n d e -> valid_binary (round_frac n d e) = true.
Proof.
  intros Hn Hd Hal. rewrite round_frac_eq by done.
  destruct (rne_stage_bounds n d e Hn Hd Hal) as [Hb H52].
  apply finish_valid; [done | apply cexp_emin | done].
Qed.

Lemma round_frac_nonneg (n d e : Z) :
  0 <= n -> 0 < d -> aligned n d e -> nonneg (round_frac n d e) = true.
Proof.
  intros Hn Hd Hal. rewrite round_frac_eq by done.
  destruct (rne_stage_bounds n d e Hn Hd Hal) as [Hb H52].
  apply finish_nonneg; [done | apply cexp_emin].
Qed.

Lemma located_one (n : Z) : located n 1 = (n, loc_Exact).
Proof. unfold located. by rewrite Z.mod_1_r, Z.div_1_r. Qed.

(** A float is its own rounding. *)
Lemma round_frac_id (m : positive) (e : Z) :
  valid_binary (S754_finite false m e) = true ->
  aligned (Z.pos m) 1 e /\ round_frac (Z.pos m) 1 e = S754_finite false m e.
Proof.
  intros Hv. pose proof (valid_finite_digits _ _ _ Hv) as (He & Hm & _).
  apply valid_finite in Hv as [Hc Hb].
  assert (Hce : cexp (Z.pos m) 1 e = e) by (unfold cexp; by rewrite Z.div_1_r).
  assert (Hal : aligned (Z.pos m) 1 e) by (unfold aligned; lia).
  split; [done|]. rewrite round_frac_eq by (done || lia).
  rewrite Hce, Z.sub_diag, Z.pow_0_r, Z.mul_1_l, rne_exact.
  rewrite finish_cases by lia.
  destruct (Z.eqb_spec (Z.pos m) 0); [lia|].
  destruct (Z.ltb_spec (Z.pos m) (2 ^ 53)); [|lia].
  destruct (Z.leb_spec e (emax - prec)); [done | lia].
Qed.

(** The order of two valid positive floats is the order of their
    values. *)
Lemma finite_le_value (m m' : positive) (e e' : Z) :
  valid_binary (S754_finite false m e) = true ->
  valid_binary (S754_finite false m' e') = true ->
  SFleb (S754_finite false m e) (S754_finite false m' e') = true ->
  2 ^ (e - Z.min e e') * Z.pos m <= 2 ^ (e' - Z.min e e') * Z.pos m'.
Proof.
  intros Hv Hv' [Hlt|[-> Hle]]%SFleb_finite.
  - apply valid_finite_digits in Hv as (He & Hm & _).
    apply valid_finite_digits in Hv' as (He' & _ & H52). specialize (H52 ltac:(lia)).
    rewrite Z.min_l, Z.sub_diag, Z.pow_0_r by lia.
    assert (2 ^ 1 <= 2 ^ (e' - e)) by (apply Z.pow_le_mono_r; lia).
    change (2 ^ 1) with 2 in *. nia.
  - rewrite Z.min_id, Z.sub_diag, Z.pow_0_r. lia.
Qed.

(** ** Multiplication *)

Lemma Zdigits2_mul (a b : Z) :
  0 < a -> 0 < b -> Zdigits2 a + Zdigits2 b - 1 <= Zdigits2 (a * b).
Proof.
  intros Ha Hb.
  destruct (Zdigits2_spec a Ha) as [Hda [Hloa _]].
  destruct (Zdigits2_spec b Hb) as [Hdb [Hlob _]].
  destruct (Zdigits2_spec (a * b) ltac:(nia)) as [Hdab [_ Hhi]].
  assert (Hlo : 2 ^ (Zdigits2 a - 1 + (Zdigits2 b - 1)) <= a * b).
  { rewrite Z.pow_add_r by lia.
    pose proof (pow2_pos (Zdigits2 a - 1) ltac:(lia)).
    pose proof (pow2_pos (Zdigits2 b - 1) ltac:(lia)). nia. }
  assert (Zdigits2 a - 1 + (Zdigits2 b - 1) < Zdigits2 (a * b))
    by (apply pow2_lt_inv; lia).
  lia.
Qed.

Lemma SFmul_finite (mx my : positive) (ex ey : Z) :
  valid_binary (S754_finite false mx ex) = true ->
  valid_binary (S754_finite false my ey) = true ->
  aligned (Z.pos mx * Z.pos my) 1 (ex + ey) /\
  SFmul prec emax (S754_finite false mx ex) (S754_finite false my ey)
  = round_frac (Z.pos mx * Z.pos my) 1 (ex + ey).
Proof.
  intros [Hcx _]%valid_finite [Hcy _]%valid_finite. split.
  - unfold aligned, cexp. rewrite Z.div_1_r.
    pose proof (Zdigits2_mul (Z.pos mx) (Z.pos my) ltac:(lia) ltac:(lia)) as Hd.
    destruct (Zdigits2_spec (Z.pos mx) ltac:(lia)) as [Hdx _].
    destruct (Zdigits2_spec (Z.pos my) ltac:(lia)) as [Hdy _].
    unfold SpecFloat.fexp, SpecFloat.emin, prec, emax in *. lia.
  - unfold round_frac. by rewrite located_one.
Qed.

Lemma SFleb_zero_nonneg (s : bool) (x : spec_float) :
  nonneg x = true -> SFleb (S754_zero s) x = true.
Proof. by destruct x as [s'|[|]| |[|] m e]. Qed.

Lemma nonneg_cases (x : spec_float) :
  nonneg x = true ->
  (exists s, x = S754_zero s) \/ x = S754_infinity false
  \/ exists m e, x = S754_finite false m e.
Proof.
  destruct x as [s|[|]| |[|] m e]; try done; intros _; eauto.
Qed.

Lemma finite_nonneg_cases (x : spec_float) :
  finite_nonneg x = true ->
  (exists s, x = S754_zero s) \/ exists m e, x = S754_finite false m e.
Proof.
  destruct x as [s|[|]| |[|] m e]; try done; intros _; eauto.
Qed.

Lemma finite_nonneg_nonneg (x : spec_float) : finite_nonneg x = true -> nonneg x = true.
Proof. by intros [? _]%andb_true_iff. Qed.

(** The product of two floats that are finite and not negative is not
    negative. *)
Lemma SFmul_nonneg (x y : spec_float) :
  valid_binary x = true -> valid_binary y = true ->
  finite_nonneg x = true -> finite_nonneg y = true ->
  nonneg (SFmul prec emax x y) = true /\ valid_binary (SFmul prec emax x y) = true.
Proof.
  intros Hvx Hvy [[sx ->]|(mx & ex & ->)]%finite_nonneg_cases
                 [[sy ->]|(my & ey & ->)]%finite_nonneg_cases; try done.
  destruct (SFmul_finite mx my ex ey Hvx Hvy) as [Hal ->].
  split; [apply round_frac_nonneg | apply round_frac_valid]; try done; lia.
Qed.

(** Multiplication by a float that is finite and not negative is
    monotone. *)
Lemma SFmul_mono (x x' y : spec_float) :
  valid_binary x = true -> valid_binary x' = true -> valid_binary y = true ->
  finite_nonneg x = true -> finite_nonneg x' = true -> finite_nonneg y = true ->
  SFleb x x' = true ->
  SFleb (SFmul prec emax x y) (SFmul prec emax x' y) = true.
Proof.
  intros Hvx Hvx' Hvy Hx Hx' Hy Hle.
  destruct (SFmul_nonneg x' y Hvx' Hvy Hx' Hy) as [Hnn' _].
  apply finite_nonneg_cases in Hx as [[sx ->]|(mx & ex & ->)];
    apply finite_nonneg_cases in Hy as [[sy ->]|(my & ey & ->)].
  - apply finite_nonneg_cases in Hx' as [[sx' ->]|(mx' & ex' & ->)]; done.
  - by apply SFleb_zero_nonneg.
  - apply finite_nonneg_cases in Hx' as [[sx' ->]|(mx' & ex' & ->)]; done.
  - apply finite_nonneg_cases in Hx' as [[sx' ->]|(mx' & ex' & ->)]; [done|].
    destruct (SFmul_finite mx my ex ey Hvx Hvy) as [Hal ->].
    destruct (SFmul_finite mx' my ex' ey Hvx' Hvy) as [Hal' ->].
    pose proof (finite_le_value _ _ _ _ Hvx Hvx' Hle) as Hval.
    apply round_frac_mono; try done; try lia.
    replace (ex + ey - Z.min (ex + ey) (ex' + ey)) with (ex - Z.min ex ex') by lia.
    replace (ex' + ey - Z.min (ex + ey) (ex' + ey)) with (ex' - Z.min ex ex') by lia.
    nia.
Qed.

(** ** Division of integers *)

Lemma new_location_spec (b r : Z) :
  0 < b -> 0 <= r < b ->
  new_location b r = if r =? 0 then loc_Exact else loc_Inexact (2 * r ?= b).
Proof.
  intros Hb Hr. unfold new_location, new_location_even, new_location_odd.
  destruct (Z.even b) eqn:Heven; [done|].
  destruct (Z.eqb_spec r 0); [done|]. f_equal.
  assert (Hodd : Z.odd b = true) by (by rewrite <- Z.negb_even, Heven).
  apply Z.odd_spec in Hodd as [t ->].
  destruct (Z.compare_spec (2 * r + 1) (2 * t + 1)); symmetry.
  - apply Z.compare_lt_iff. lia.
  - apply Z.compare_lt_iff. lia.
  - apply Z.compare_gt_iff. lia.
Qed.

Lemma SFdiv_core_located (a b : Z) :
  0 < a -> 0 < b ->
  let n := a * 2 ^ div_shift a b in
  SFdiv_core_binary prec emax a 0 b 0 = ((located n b).1, - div_shift a b, (located n b).2).
Proof.
  intros Ha Hb n. unfold SFdiv_core_binary.
  rewrite !Z.add_0_r, Z.sub_0_r.
  change (0 - Z.min (SpecFloat.fexp prec emax (Zdigits2 a - Zdigits2 b)) 0)
    with (div_shift a b).
  assert (Hs : 0 <= div_shift a b) by (unfold div_shift; lia).
  assert (Hm' : match div_shift a b with
                | 0 => a
                | Z.pos _ => Z.shiftl a (div_shift a b)
                | Z.neg _ => 0
                end = n).
  { subst n. destruct (div_shift a b) as [|p|p] eqn:Hk; try lia.
    by rewrite Z.shiftl_mul_pow2. }
  rewrite Hm'. destruct (located_spec n b Hb) as [Hr _].
  unfold located, Z.div, Z.modulo in *. destruct (Z.div_eucl n b) as [q r].
  cbn [fst snd] in *. rewrite new_location_spec by done.
  unfold div_shift. do 2 f_equal. lia.
Qed.

Lemma quotient_aligned (a b : Z) :
  0 < a -> 0 < b -> aligned (a * 2 ^ div_shift a b) b (- div_shift a b).
Proof.
  intros Ha Hb. unfold aligned, cexp.
  assert (Hsdef : div_shift a b
                  = - Z.min (SpecFloat.fexp prec emax (Zdigits2 a - Zdigits2 b)) 0)
    by done.
  set (s := div_shift a b) in *. clearbody s.
  set (g := Zdigits2 a - Zdigits2 b) in *.
  set (q := a * 2 ^ s / b).
  assert (Hs : 0 <= s) by lia.
  pose proof (pow2_pos s Hs) as Hp.
  assert (Hq : 0 <= q) by (apply Z.div_pos; nia).
  destruct (Zdigits2_spec a Ha) as [Hda [Hloa _]].
  destruct (Zdigits2_spec b Hb) as [Hdb [_ Hhib]].
  pose proof (Zdigits2_nonneg q) as Hdq.
  destruct (Z_le_gt_dec (g + s) 0) as [Hgs|Hgs].
  - unfold SpecFloat.fexp, SpecFloat.emin, prec, emax in *. lia.
  - assert (Hdg : g + s <= Zdigits2 q).
    { assert (Hlo : 2 ^ (g + s - 1) <= q).
      { apply Z.div_le_lower_bound; [done|].
        assert (Hpow : 2 ^ (Zdigits2 a - 1) * 2 ^ s = 2 ^ Zdigits2 b * 2 ^ (g + s - 1)).
        { rewrite <- !Z.pow_add_r by lia. f_equal. lia. }
        pose proof (pow2_pos (g + s - 1) ltac:(lia)). nia. }
      rewrite <- (Zdigits2_unique (2 ^ (g + s - 1)) (g + s)).
      - apply Zdigits2_mono. split; [|done].
        pose proof (pow2_pos (g + s - 1) ltac:(lia)). lia.
      - lia.
      - split; [lia|]. apply Z.pow_lt_mono_r; lia. }
    assert (Hfe : SpecFloat.fexp prec emax g <= SpecFloat.fexp prec emax (Zdigits2 q + - s))
      by (apply fexp_mono; lia).
    lia.
Qed.

Lemma quotient_mono (a a' b : Z) :
  0 < a <= a' -> 0 < b -> SFleb (quotient a b) (quotient a' b) = true.
Proof.
  intros [Ha Hle] Hb. unfold quotient.
  set (s := div_shift a b). set (s' := div_shift a' b).
  assert (Hs : 0 <= s) by (subst s; unfold div_shift; lia).
  assert (Hs' : 0 <= s') by (subst s'; unfold div_shift; lia).
  pose proof (pow2_pos s Hs). pose proof (pow2_pos s' Hs').
  apply round_frac_mono; try apply quotient_aligned; try lia; try nia.
  destruct (Z_le_gt_dec s s') as [Hss|Hss].
  - rewrite Z.min_r by lia.
    replace (- s - - s') with (s' - s) by lia. rewrite Z.sub_diag, Z.pow_0_r.
    replace (2 ^ (s' - s) * (a * 2 ^ s)) with (a * (2 ^ (s' - s) * 2 ^ s)) by lia.
    rewrite <- Z.pow_add_r by lia. replace (s' - s + s) with s' by lia. nia.
  - rewrite Z.min_l by lia.
    replace (- s' - - s) with (s - s') by lia. rewrite Z.sub_diag, Z.pow_0_r.
    replace (2 ^ (s - s') * (a' * 2 ^ s')) with (a' * (2 ^ (s - s') * 2 ^ s')) by lia.
    rewrite <- Z.pow_add_r by lia. replace (s - s' + s') with s by lia. nia.
Qed.

Lemma quotient_valid (a b : Z) :
  0 < a -> 0 < b ->
  valid_binary (quotient a b) = true /\ nonneg (quotient a b) = true.
Proof.
  intros Ha Hb. pose proof (quotient_aligned a b Ha Hb) as Hal.
  assert (Hs : 0 <= div_shift a b) by (unfold div_shift; lia).
  pose proof (pow2_pos _ Hs).
  split; [apply round_frac_valid | apply round_frac_nonneg]; try done; nia.
Qed.

(** ** Addition *)

Lemma pos_iter_xO (m d : positive) : Z.pos (Pos.iter xO m d) = 2 ^ Z.pos d * Z.pos m.
Proof.
  rewrite (Pos.iter_swap_gen _ _ Z.pos xO (Z.mul 2)) by done.
  change (Pos.iter (Z.mul 2) (Z.pos m) d) with (Z.shiftl (Z.pos m) (Z.pos d)).
  rewrite Z.shiftl_mul_pow2 by lia. lia.
Qed.

Lemma shl_align_spec (mx : positive) (ex ez : Z) :
  Z.pos (shl_align mx ex ez).1 = 2 ^ (ex - Z.min ex ez) * Z.pos mx /\
  (shl_align mx ex ez).2 = Z.min ex ez.
Proof.
  unfold shl_align. destruct (ez - ex) as [|p|p] eqn:Hk; cbn [fst snd].
  - rewrite Z.min_l, Z.sub_diag, Z.pow_0_r by lia. lia.
  - rewrite Z.min_l, Z.sub_diag, Z.pow_0_r by lia. lia.
  - rewrite pos_iter_xO, Z.min_r by lia. split; [|done]. do 2 f_equal. lia.
Qed.

Lemma Zdigits2_shift (m j : Z) : 0 < m -> 0 <= j -> Zdigits2 (2 ^ j * m) = Zdigits2 m + j.
Proof.
  intros Hm Hj. destruct (Zdigits2_spec m Hm) as [Hd [Hlo Hhi]].
  pose proof (pow2_pos j Hj).
  apply Zdigits2_unique; [lia|]. split.
  - replace (Zdigits2 m + j - 1) with (j + (Zdigits2 m - 1)) by lia.
    rewrite Z.pow_add_r by lia. nia.
  - rewrite (Z.add_comm _ j), Z.pow_add_r by lia. nia.
Qed.

Lemma binary_round_spec (m : positive) (e : Z) :
  let E := Z.min e (SpecFloat.fexp prec emax (Zdigits2 (Z.pos m) + e)) in
  aligned (2 ^ (e - E) * Z.pos m) 1 E /\
  binary_round prec emax false m e = round_frac (2 ^ (e - E) * Z.pos m) 1 E.
Proof.
  intros E. unfold binary_round.
  change (Z.pos (digits2_pos m)) with (Zdigits2 (Z.pos m)).
  destruct (shl_align_spec m e (SpecFloat.fexp prec emax (Zdigits2 (Z.pos m) + e)))
    as [Hm He].
  destruct (shl_align _ _ _) as [mz ez]. cbn [fst snd] in *. fold E in Hm, He.
  unfold round_frac. rewrite located_one. cbn [fst snd]. rewrite <- Hm, He.
  split; [|done].
  unfold aligned, cexp. rewrite Z.div_1_r, Hm, Zdigits2_shift by lia.
  replace (Zdigits2 (Z.pos m) + (e - E) + E) with (Zdigits2 (Z.pos m) + e) by lia.
  lia.
Qed.

Lemma SFadd_finite (mx my : positive) (ex ey : Z) :
  let ez := Z.min ex ey in
  let S := 2 ^ (ex - ez) * Z.pos mx + 2 ^ (ey - ez) * Z.pos my in
  exists E, E <= ez /\ aligned (2 ^ (ez - E) * S) 1 E /\
    SFadd prec emax (S754_finite false mx ex) (S754_finite false my ey)
    = round_frac (2 ^ (ez - E) * S) 1 E.
Proof.
  intros ez S. unfold SFadd. fold ez. cbn [cond_Zopp].
  destruct (shl_align_spec mx ex ez) as [Hx _]. destruct (shl_align_spec my ey ez) as [Hy _].
  replace (Z.min ex ez) with ez in Hx by lia. replace (Z.min ey ez) with ez in Hy by lia.
  assert (HS : Z.pos (shl_align mx ex ez).1 + Z.pos (shl_align my ey ez).1 = S)
    by (rewrite Hx, Hy; done).
  destruct (Z.pos _ + Z.pos _) as [|s|s] eqn:Hsum; try done.
  cbn [binary_normalize]. destruct (binary_round_spec s ez) as [Hal ->].
  rewrite HS in *. eexists. split; [|split; [exact Hal | done]]. lia.
Qed.

Lemma SFleb_refl (x : spec_float) : nonneg x = true -> SFleb x x = true.
Proof.
  intros [[s ->]|[->|(m & e & ->)]]%nonneg_cases; try done.
  apply SFleb_finite. lia.
Qed.

Lemma SFleb_nonneg_inf (x : spec_float) :
  nonneg x = true -> SFleb x (S754_infinity false) = true.
Proof. by intros [[s ->]|[->|(m & e & ->)]]%nonneg_cases. Qed.

Lemma SFleb_trans (x y z : spec_float) :
  nonneg x = true -> nonneg y = true -> nonneg z = true ->
  SFleb x y = true -> SFleb y z = true -> SFleb x z = true.
Proof.
  intros [[sx ->]|[->|(mx & ex & ->)]]%nonneg_cases
         [[sy ->]|[->|(my & ey & ->)]]%nonneg_cases
         [[sz ->]|[->|(mz & ez & ->)]]%nonneg_cases; try done.
  rewrite !SFleb_finite. lia.
Qed.

(** A float above one that is not negative is not negative. *)
Lemma nonneg_above (x y : spec_float) :
  nonneg x = true -> SFleb x y = true -> nonneg y = true.
Proof.
  intros [[sx ->]|[->|(mx & ex & ->)]]%nonneg_cases;
    destruct y as [s|[|]| |[|] m e]; done.
Qed.

Lemma SFltb_not_leb (x y : spec_float) :
  nonneg x = true -> nonneg y = true -> SFltb x y = true -> SFleb y x = false.
Proof.
  intros [[sx ->]|[->|(mx & ex & ->)]]%nonneg_cases
         [[sy ->]|[->|(my & ey & ->)]]%nonneg_cases; try done.
  intros Hlt. apply not_true_is_false. rewrite SFleb_finite. revert Hlt.
  unfold SFltb, SFcompare. change (Pos.compare_cont Eq mx my) with (mx ?= my)%positive.
  destruct (Z.compare_spec ex ey); [destruct (Pos.compare_spec mx my)|..]; try done; lia.
Qed.

(** The sum of two floats that are not negative is not below either of
    them. *)
Lemma SFadd_nonneg (x y : spec_float) :
  valid_binary x = true -> valid_binary y = true ->
  nonneg x = true -> nonneg y = true ->
  nonneg (SFadd prec emax x y) = true /\
  valid_binary (SFadd prec emax x y) = true /\
  SFleb x (SFadd prec emax x y) = true /\
  SFleb y (SFadd prec emax x y) = true.
Proof.
  intros Hvx Hvy Hx Hy.
  pose proof (SFleb_refl x Hx) as Hrx. pose proof (SFleb_refl y Hy) as Hry.
  pose proof (SFleb_nonneg_inf x Hx) as Hix. pose proof (SFleb_nonneg_inf y Hy) as Hiy.
  apply nonneg_cases in Hx as [[sx ->]|[->|(mx & ex & ->)]];
    apply nonneg_cases in Hy as [[sy ->]|[->|(my & ey & ->)]];
    try (by destruct sx); try (by destruct sy); try (by destruct sx, sy); try done.
  destruct (SFadd_finite mx my ex ey) as (E & HE & Hal & ->).
  set (ez := Z.min ex ey) in *.
  set (S := 2 ^ (ex - ez) * Z.pos mx + 2 ^ (ey - ez) * Z.pos my) in *.
  pose proof (pow2_pos (ex - ez) ltac:(lia)). pose proof (pow2_pos (ey - ez) ltac:(lia)).
  pose proof (pow2_pos (ez - E) ltac:(lia)).
  assert (HS : 0 <= 2 ^ (ez - E) * S) by nia.
  split; [by apply round_frac_nonneg|]. split; [by apply round_frac_valid|].
  destruct (round_frac_id mx ex Hvx) as [Halx Hidx].
  destruct (round_frac_id my ey Hvy) as [Haly Hidy].
  destruct (round_frac_scale (Z.pos mx) 1 ex (ex - E) 1) as [Hax Hsx]; try done; try lia.
  destruct (round_frac_scale (Z.pos my) 1 ey (ey - E) 1) as [Hay Hsy]; try done; try lia.
  replace (ex - (ex - E)) with E in * by lia. replace (ey - (ey - E)) with E in * by lia.
  rewrite Hidx in Hsx. rewrite Hidy in Hsy. rewrite <- Hsx at 1. rewrite <- Hsy at 1.
  assert (Hpx : 2 ^ (ex - E) = 2 ^ (ez - E) * 2 ^ (ex - ez))
    by (rewrite <- Z.pow_add_r by lia; f_equal; lia).
  assert (Hpy : 2 ^ (ey - E) = 2 ^ (ez - E) * 2 ^ (ey - ez))
    by (rewrite <- Z.pow_add_r by lia; f_equal; lia).
  pose proof (pow2_pos (ex - E) ltac:(lia)). pose proof (pow2_pos (ey - E) ltac:(lia)).
  split; apply round_frac_mono_same; try done; try lia; split; try nia.
Qed.

(** ** Primitive floats and Python's division of integers *)

Lemma nonneg_prim (x : float) : (0 <=? x)%float = nonneg (Prim2SF x).
Proof. by rewrite leb_spec. Qed.

Lemma finite_nonneg_prim (x : float) :
  (0 <=? x)%float && (x <? infinity)%float = finite_nonneg (Prim2SF x).
Proof. by rewrite leb_spec, ltb_spec. Qed.

Lemma nonneg_not_inf (x : spec_float) :
  nonneg x = true -> (forall s, x <> S754_infinity s) -> finite_nonneg x = true.
Proof.
  intros [[s ->]|[->|(m & e & ->)]]%nonneg_cases Hinf; try done. by destruct (Hinf false).
Qed.

Lemma SFleb_inf_finite (x : spec_float) :
  finite_nonneg x = true -> SFleb (S754_infinity false) x = false.
Proof. by intros [[s ->]|(m & e & ->)]%finite_nonneg_cases. Qed.

Lemma int_truediv_pos (a b : positive) :
  int_truediv (N.pos a) (N.pos b)
  = match quotient (Z.pos a) (Z.pos b) with
    | S754_infinity _ => Raise OverflowError
    | q => Ok (SF2Prim q)
    end.
Proof.
  unfold int_truediv. rewrite SFdiv_core_located by lia. done.
Qed.

(** What [a / b] returns is a float that is finite and not negative. *)
Lemma int_truediv_Ok (a b : N) (q : float) :
  int_truediv a b = Ok q ->
  (b <> 0)%N /\ finite_nonneg (Prim2SF q) = true.
Proof.
  destruct b as [|b]; [done|]. destruct a as [|a].
  - unfold int_truediv. intros H. simplify_eq. split; [done | reflexivity].
  - rewrite int_truediv_pos.
    destruct (quotient_valid (Z.pos a) (Z.pos b)) as [Hv Hnn]; [lia..|].
    intros H. split; [done|].
    assert (Hq : q = SF2Prim (quotient (Z.pos a) (Z.pos b)) /\
                 forall s, quotient (Z.pos a) (Z.pos b) <> S754_infinity s).
    { destruct (quotient _ _); simplify_eq; done. }
    destruct Hq as [-> Hinf]. rewrite Prim2SF_SF2Prim by done.
    by apply nonneg_not_inf.
Qed.

(** The quotient is monotone in the dividend: when [a' / b] returns, so
    does [a / b] for [a <= a'], with a float that is not larger. *)
Lemma int_truediv_mono (a a' b : N) (q' : float) :
  (a <= a')%N -> int_truediv a' b = Ok q' ->
  exists q, int_truediv a b = Ok q /\ (q <=? q')%float = true.
Proof.
  intros Hle H'. pose proof (int_truediv_Ok _ _ _ H') as [Hb Hfin'].
  destruct b as [|b]; [done|]. destruct a as [|a].
  - exists 0%float. split; [done|]. rewrite nonneg_prim.
    by apply finite_nonneg_nonneg.
  - destruct a' as [|a']; [lia|]. rewrite int_truediv_pos in *.
    destruct (quotient_valid (Z.pos a) (Z.pos b)) as [Hv Hnn]; [lia..|].
    destruct (quotient_valid (Z.pos a') (Z.pos b)) as [Hv' Hnn']; [lia..|].
    pose proof (quotient_mono (Z.pos a) (Z.pos a') (Z.pos b) ltac:(lia) ltac:(lia)) as Hm.
    assert (Hq' : q' = SF2Prim (quotient (Z.pos a') (Z.pos b)))
      by (destruct (quotient (Z.pos a') _); simplify_eq; done).
    subst q'. rewrite Prim2SF_SF2Prim in Hfin' by done.
    exists (SF2Prim (quotient (Z.pos a) (Z.pos b))). split.
    + destruct (quotient (Z.pos a) (Z.pos b)) as [| [|] | |] eqn:Hq; try done.
      by rewrite SFleb_inf_finite in Hm.
    + by rewrite leb_spec, !Prim2SF_SF2Prim.
Qed.

(** Multiplication by a float that is finite and not negative is
    monotone. *)
Lemma mul_mono (x x' y : float) :
  finite_nonneg (Prim2SF x) = true -> finite_nonneg (Prim2SF x') = true ->
  finite_nonneg (Prim2SF y) = true ->
  (x <=? x')%float = true -> (x * y <=? x' * y)%float = true.
Proof.
  intros Hx Hx' Hy. rewrite !leb_spec, !mul_spec.
  apply SFmul_mono; try done; apply Prim2SF_valid.
Qed.

Lemma mul_nonneg (x y : float) :
  finite_nonneg (Prim2SF x) = true -> finite_nonneg (Prim2SF y) = true ->
  (0 <=? x * y)%float = true.
Proof.
  intros Hx Hy. rewrite nonneg_prim, mul_spec.
  apply SFmul_nonneg; try done; apply Prim2SF_valid.
Qed.

(** The sum of two floats that are not negative is not below either of
    them. *)
Lemma add_nonneg (x y : float) :
  (0 <=? x)%float = true -> (0 <=? y)%float = true ->
  (0 <=? x + y)%float = true /\ (x <=? x + y)%float = true /\ (y <=? x + y)%float = true.
Proof.
  rewrite !nonneg_prim, !leb_spec, add_spec. intros Hx Hy.
  by destruct (SFadd_nonneg _ _ (Prim2SF_valid x) (Prim2SF_valid y) Hx Hy)
    as (? & _ & ? & ?).
Qed.

Lemma leb_refl (x : float) : (0 <=? x)%float = true -> (x <=? x)%float = true.
Proof. rewrite nonneg_prim, leb_spec. apply SFleb_refl. Qed.

Lemma leb_trans (x y z : float) :
  (0 <=? x)%float = true ->
  (x <=? y)%float = true -> (y <=? z)%float = true -> (x <=? z)%float = true.
Proof.
  rewrite nonneg_prim, !leb_spec. intros Hx Hxy Hyz.
  pose proof (nonneg_above _ _ Hx Hxy) as Hy.
  pose proof (nonneg_above _ _ Hy Hyz) as Hz.
  by apply (SFleb_trans _ (Prim2SF y)).
Qed.

Lemma ltb_not_leb (x y : float) :
  (0 <=? x)%float = true -> (x <? y)%float = true -> (y <=? x)%float = false.
Proof.
  rewrite nonneg_prim, ltb_spec, leb_spec. intros Hx Hlt.
  apply SFltb_not_leb; [done| |done].
  destruct (Prim2SF x) as [sx|[|]| |[|] mx ex], (Prim2SF y) as [sy|[|]| |[|] my ey]; done.
Qed.

(** A float that is not negative is not above a float it is at most. *)
Lemma leb_not_ltb (x y : float) :
  (0 <=? x)%float = true -> (x <=? y)%float = true -> (y <? x)%float = false.
Proof.
  intros Hx Hle. destruct (y <? x)%float eqn:Hlt; [|done].
  assert (Hy : (0 <=? y)%float = true).
  { rewrite nonneg_prim in *. rewrite leb_spec in Hle. by apply (nonneg_above (Prim2SF x)). }
  by rewrite (ltb_not_leb y x Hy Hlt) in Hle.
Qed.

End Binary64Facts.
(** * Properties *)

Set Warnings "-clear-no-such-hyp".

(** ** The error monad *)

Lemma bind_Ok {A B} (m : result A) (f : A → result B) (b : B) :
  m ≫= f = Ok b ↔ ∃ a, m = Ok a ∧ f a = Ok b.
Proof.
  destruct m as [a|e]; simpl; split.
  - intros H. exists a. split; [reflexivity | exact H].
  - intros (a' & Ha & Hf). injection Ha as <-. exact Hf.
  - intros H. discriminate H.
  - intros (a' & Ha & _). discriminate Ha.
Qed.

Lemma bind_Raise {A B} (m : result A) (f : A → result B) (e : exn) :
  m ≫= f = Raise e ↔ m = Raise e ∨ ∃ a, m = Ok a ∧ f a = Raise e.
Proof.
  destruct m as [a|e']; simpl; split.
  - intros H. right. exists a. split; [reflexivity | exact H].
  - intros [H | (a' & Ha & Hf)]; [discriminate H |]. injection Ha as <-. exact Hf.
  - intros H. left. by simplify_eq.
  - intros [H | (a' & Ha & _)]; [by simplify_eq | discriminate Ha].
Qed.

(** Splits a hypothesis [m ≫= f = Ok b] into the two steps it records. *)
Tactic Notation "inv_bind" hyp(H) "as" simple_intropattern(a) ident(Ha) :=
  apply bind_Ok in H; destruct H as (a & Ha & H).

(** ** Slices and [struct.unpack] *)

Lemma slice_length {A} (i j : nat) (b : list A) :
  length (slice i j b) = Nat.min (j - i) (length b - i).
Proof. unfold slice. rewrite length_take, length_drop. reflexivity. Qed.

Lemma slice_slice {A} (i j p q : nat) (b : list A) :
  (q ≤ j - i)%nat → slice p q (slice i j b) = slice (i + p) (i + q) b.
Proof.
  intros Hq. unfold slice.
  rewrite skipn_firstn_comm, drop_drop, take_take.
  f_equal; lia.
Qed.

Lemma check_size_Ok (n : nat) (b : bytes) (u : unit) :
  Struct.check_size n b = Ok u ↔ length b = n.
Proof.
  unfold Struct.check_size. destruct (Nat.eqb_spec (length b) n); split; intros H;
    try done. by destruct u.
Qed.

Lemma fH_slice (i j p : nat) (b : bytes) :
  (p + 2 ≤ j - i)%nat → Struct.fH p (slice i j b) = Struct.fH (i + p) b.
Proof.
  intros H. unfold Struct.fH. rewrite slice_slice by lia.
  by rewrite Nat.add_assoc.
Qed.

Lemma unpack_HH_Ok (b : bytes) (x y : N) :
  Struct.unpack_HH b = Ok (x, y) ↔
  length b = 4%nat ∧ x = Struct.fH 0 b ∧ y = Struct.fH 2 b.
Proof.
  unfold Struct.unpack_HH. rewrite bind_Ok. split.
  - intros ([] & Hs & Hv). apply check_size_Ok in Hs. by simplify_eq.
  - intros (Hs & -> & ->). exists tt. by rewrite check_size_Ok.
Qed.

Lemma unpack_H_Ok (b : bytes) (x : N) :
  Struct.unpack_H b = Ok x ↔ length b = 2%nat ∧ x = Struct.fH 0 b.
Proof.
  unfold Struct.unpack_H. rewrite bind_Ok. split.
  - intros ([] & Hs & Hv). apply check_size_Ok in Hs. by simplify_eq.
  - intros (Hs & ->). exists tt. by rewrite check_size_Ok.
Qed.

(** ** hmtx: the advance widths *)

Lemma hmtx_loop_Ok (table : bytes) (n pos : nat) (widths ws : list N) :
  TrueTypeFont.hmtx_loop table n pos widths = Ok ws →
  ws = widths ++ map (fun k => Struct.fH (pos + 4 * k) table) (seq 0 n).
Proof.
  revert pos widths. induction n as [|n IH]; intros pos widths H; simpl in H.
  - simplify_eq. by rewrite app_nil_r.
  - inv_bind H as [advance_width lsb] Ha.
    apply unpack_HH_Ok in Ha as (Hlen & -> & _).
    apply IH in H. rewrite H, <- app_assoc. f_equal.
    cbn [seq map app]. rewrite fH_slice by lia.
    replace (pos + 4 * 0)%nat with (pos + 0)%nat by lia. f_equal.
    rewrite <- seq_shift, map_map. apply map_ext. intros k. f_equal. lia.
Qed.

(** The stages of a successful [__init__]: each parsing method returned
    the value stored in the font. *)
Lemma init_Ok (data : bytes) (ft : TrueTypeFont.t) :
  TrueTypeFont.__init__ data = Ok ft →
  TrueTypeFont.data ft = data ∧
  TrueTypeFont._parse_offset_table data = Ok (TrueTypeFont.tables ft) ∧
  TrueTypeFont._parse_head data (TrueTypeFont.tables ft)
    = Ok (TrueTypeFont.units_per_em ft,
          (TrueTypeFont.x_min ft, TrueTypeFont.y_min ft,
           TrueTypeFont.x_max ft, TrueTypeFont.y_max ft)) ∧
  TrueTypeFont._parse_hhea data (TrueTypeFont.tables ft)
    = Ok (TrueTypeFont.ascender ft, TrueTypeFont.descender ft,
          TrueTypeFont.line_gap ft, TrueTypeFont.num_h_metrics ft) ∧
  TrueTypeFont._parse_maxp data (TrueTypeFont.tables ft)
    = Ok (TrueTypeFont.num_glyphs ft) ∧
  TrueTypeFont._parse_hmtx data (TrueTypeFont.tables ft)
      (TrueTypeFont.num_h_metrics ft) (TrueTypeFont.num_glyphs ft)
    = Ok (TrueTypeFont.advance_widths ft) ∧
  TrueTypeFont._parse_cmap data (TrueTypeFont.tables ft)
    = Ok (TrueTypeFont.cmap ft) ∧
  TrueTypeFont._parse_os2 data (TrueTypeFont.tables ft)
    = Ok (TrueTypeFont.s_typo_ascender ft, TrueTypeFont.s_typo_descender ft,
          TrueTypeFont.s_cap_height ft) ∧
  TrueTypeFont._parse_post data (TrueTypeFont.tables ft)
    = Ok (TrueTypeFont.italic_angle ft).
Proof.
  unfold TrueTypeFont.__init__. intros H.
  inv_bind H as tables Htables.
  inv_bind H as [upm [[[x0 y0] x1] y1]] Hhead.
  inv_bind H as [[[asc desc] gap] nhm] Hhhea.
  inv_bind H as ng Hmaxp. inv_bind H as ws Hhmtx. inv_bind H as cm Hcmap.
  inv_bind H as [[ta td] ch] Hos2. inv_bind H as ia Hpost.
  simplify_eq. simpl. repeat split; assumption.
Qed.

Lemma parse_hmtx_Ok (data : bytes) (tables : gmap pystr (N * N))
    (num_h_metrics num_glyphs : N) (ws : list N) :
  TrueTypeFont._parse_hmtx data tables num_h_metrics num_glyphs = Ok ws →
  ∃ entry explicit,
    tables !! lit "hmtx" = Some entry ∧
    explicit = map (fun k => Struct.fH (4 * k) (TrueTypeFont.table_bytes data entry))
                 (seq 0 (N.to_nat num_h_metrics)) ∧
    ((num_glyphs ≤ num_h_metrics ∧ ws = explicit) ∨
     (num_h_metrics < num_glyphs ∧ ∃ last_width,
        last explicit = Some last_width ∧
        ws = explicit
             ++ replicate (N.to_nat (num_glyphs - num_h_metrics)) last_width)).
Proof.
  unfold TrueTypeFont._parse_hmtx, getitem. intros H.
  destruct (tables !! lit "hmtx") as [entry|] eqn:He; [|done].
  simpl in H. inv_bind H as explicit Hloop. apply hmtx_loop_Ok in Hloop.
  simpl in Hloop. exists entry, explicit. split; [done|]. split; [done|].
  destruct (N.ltb_spec num_h_metrics num_glyphs) as [Hlt|Hge].
  - right. split; [done|]. inv_bind H as lw Hlw.
    unfold TrueTypeFont.last_item in Hlw.
    destruct (last explicit) as [w|] eqn:Hl; [|done]. simplify_eq. by exists lw.
  - left. split; [lia|]. by simplify_eq.
Qed.

(** C5, as amended.  For every successfully parsed font the advance width
    sequence has [max(numHMetrics, numGlyphs)] entries, which is [numGlyphs]
    whenever [numHMetrics <= numGlyphs]; its first [numHMetrics] entries are
    the explicit advance widths of the hmtx table, in order; and when
    [numGlyphs > numHMetrics] each of the remaining
    [numGlyphs - numHMetrics] entries equals the last explicit width. *)
Theorem advance_widths_layout (data : bytes) (ft : TrueTypeFont.t) :
  TrueTypeFont.__init__ data = Ok ft →
  let nhm := N.to_nat (TrueTypeFont.num_h_metrics ft) in
  let ng := N.to_nat (TrueTypeFont.num_glyphs ft) in
  let widths := TrueTypeFont.advance_widths ft in
  length widths = Nat.max nhm ng ∧
  ((nhm ≤ ng)%nat → length widths = ng) ∧
  (∃ entry, TrueTypeFont.tables ft !! lit "hmtx" = Some entry ∧
     ∀ k, (k < nhm)%nat →
       widths !! k = Some (Struct.fH (4 * k) (TrueTypeFont.table_bytes data entry))) ∧
  (∀ k, (nhm ≤ k < ng)%nat →
     is_Some (widths !! k) ∧ widths !! k = widths !! (nhm - 1)%nat).
Proof.
  intros H nhm ng widths. apply init_Ok in H as (_ & _ & _ & _ & _ & H & _).
  apply parse_hmtx_Ok in H as (entry & explicit & He & Hex & Hcase).
  assert (Hlen : length explicit = nhm).
  { subst explicit. by rewrite length_map, length_seq. }
  assert (Hk : ∀ k, (k < nhm)%nat →
            explicit !! k
            = Some (Struct.fH (4 * k) (TrueTypeFont.table_bytes data entry))).
  { intros k Hlt. subst explicit. rewrite list_lookup_fmap.
    rewrite lookup_seq_lt by done. reflexivity. }
  fold widths in Hcase.
  destruct Hcase as [[Hle ->] | (Hlt & lw & Hlast & ->)].
  - assert (ng ≤ nhm)%nat by (unfold ng, nhm; lia).
    split; [lia|]. split; [lia|]. split; [by exists entry|]. lia.
  - assert (nhm < ng)%nat by (unfold ng, nhm; lia).
    assert (Hrep : N.to_nat (TrueTypeFont.num_glyphs ft - TrueTypeFont.num_h_metrics ft)
                   = (ng - nhm)%nat) by (unfold ng, nhm; lia).
    rewrite Hrep. rewrite length_app, length_replicate.
    split; [lia|]. split; [lia|]. split.
    + exists entry. split; [done|]. intros k Hk'.
      rewrite lookup_app_l by lia. by apply Hk.
    + intros k Hr. rewrite last_lookup, Hlen in Hlast.
      assert (nhm ≠ 0)%nat.
      { intros Hz. rewrite Hz in Hlen. destruct explicit; [done | simpl in Hlen; lia]. }
      rewrite lookup_app_r by lia. rewrite lookup_replicate_2 by lia.
      rewrite lookup_app_l by lia.
      replace (Nat.pred nhm) with (nhm - 1)%nat in Hlast by lia.
      rewrite Hlast. split; [by eexists | done].
Qed.

(** A font with four glyphs and two long metrics: the parse succeeds and
    the width sequence has four entries. *)
Lemma advance_widths_layout_witness :
  ∃ ft,
    TrueTypeFont.__init__
      (Fixture.font_with 2 4 [500; 600]
         (Fixture.format4_subtable [(0x41, 0x43, 0%Z, 0)] [])) = Ok ft ∧
    length (TrueTypeFont.advance_widths ft) = 4%nat.
Proof.
  eexists. split; [vm_compute; reflexivity |].
  refine (proj1 (advance_widths_layout
    (Fixture.font_with 2 4 [500; 600]
       (Fixture.format4_subtable [(0x41, 0x43, 0%Z, 0)] [])) _ _)).
  vm_compute. reflexivity.
Defined.

(** C5 as stated fails: a font whose hhea announces two long metrics and
    whose maxp announces one glyph parses, and its width sequence keeps both
    explicit entries. *)
Lemma advance_widths_length_counterexample :
  ∃ ft,
    TrueTypeFont.__init__
      (Fixture.font_with 2 1 [500; 600]
         (Fixture.format12_subtable [(0x10000, 0x10002, 500)])) = Ok ft ∧
    TrueTypeFont.num_glyphs ft = 1 ∧
    length (TrueTypeFont.advance_widths ft) = 2%nat ∧
    length (TrueTypeFont.advance_widths ft) ≠ N.to_nat (TrueTypeFont.num_glyphs ft).
Proof.
  eexists. split; [vm_compute; reflexivity |].
  split; [reflexivity |]. split; [reflexivity |]. vm_compute. discriminate.
Qed.

(** ** cmap format 12 *)

Lemma elem_of_range (lo hi k : N) : k ∈ range lo hi ↔ lo ≤ k < hi.
Proof.
  unfold range. rewrite list_elem_of_fmap. split.
  - intros (i & -> & Hi). apply elem_of_seq in Hi. lia.
  - intros H. exists (N.to_nat (k - lo)). split; [lia|]. apply elem_of_seq. lia.
Qed.

Lemma fold_insert_lookup {V} (f : N → V) (l : list N) (m : gmap N V) (k : N) :
  fold_left (fun m c => <[c := f c]> m) l m !! k
  = if decide (k ∈ l) then Some (f k) else m !! k.
Proof.
  revert m. induction l as [|c l IH]; intros m; cbn [fold_left].
  - by rewrite decide_False by set_solver.
  - rewrite IH. destruct (decide (k ∈ l)) as [Hin|Hnin].
    + rewrite decide_True; [done|]. apply elem_of_cons. by right.
    + destruct (decide (c = k)) as [->|Hne].
      * rewrite decide_True by (apply elem_of_cons; by left).
        by rewrite lookup_insert_eq.
      * rewrite decide_False; [by rewrite lookup_insert_ne|].
        rewrite elem_of_cons. intros [->|?]; done.
Qed.

Lemma format12_group_lookup (s e g : N) (m : gmap N N) (k : N) :
  TrueTypeFont.format12_group s e g m !! k
  = if decide (s ≤ k ≤ e) then Some (g + (k - s)) else m !! k.
Proof.
  unfold TrueTypeFont.format12_group.
  rewrite (fold_insert_lookup (fun code => g + (code - s))).
  destruct (decide (k ∈ range s (e + 1))) as [Hin|Hnin]; rewrite elem_of_range in *.
  - by rewrite decide_True by lia.
  - by rewrite decide_False by lia.
Qed.

Lemma unpack_III_Ok (b : bytes) (x y z : N) :
  Struct.unpack_III b = Ok (x, y, z) ↔
  length b = 12%nat ∧ x = Struct.fI 0 b ∧ y = Struct.fI 4 b ∧ z = Struct.fI 8 b.
Proof.
  unfold Struct.unpack_III. rewrite bind_Ok. split.
  - intros ([] & Hs & Hv). apply check_size_Ok in Hs. by simplify_eq.
  - intros (Hs & -> & -> & ->). exists tt. by rewrite check_size_Ok.
Qed.

Lemma format12_loop_Ok (data : bytes) (n : nat) (pos : N) (m m' : gmap N N) :
  TrueTypeFont.format12_loop data n pos m = Ok m' →
  ∃ groups : list (N * N * N),
    length groups = n ∧
    (∀ j g, groups !! j = Some g →
       Struct.unpack_III (nslice (pos + 12 * N.of_nat j) (pos + 12 * N.of_nat j + 12) data)
       = Ok g) ∧
    m' = apply_groups groups m.
Proof.
  revert pos m. induction n as [|n IH]; intros pos m H; simpl in H.
  - exists []. simplify_eq. split; [done|]. split; [|done]. intros j g Hj. done.
  - inv_bind H as [[s e] g] Hg. apply IH in H as (groups & Hlen & Hrec & ->).
    exists ((s, e, g) :: groups). split; [simpl; lia|]. split; [|done].
    intros [|j] g' Hj; simpl in Hj.
    + simplify_eq. by rewrite N.mul_0_r, N.add_0_r.
    + apply Hrec in Hj. rewrite <- Hj. f_equal. f_equal; lia.
Qed.

Lemma apply_groups_lookup (groups : list (N * N * N)) (m : gmap N N)
    (j : nat) (s e g code : N) :
  groups !! j = Some (s, e, g) →
  s ≤ code ≤ e →
  (∀ j' s' e' g', (j < j')%nat → groups !! j' = Some (s', e', g') →
     ¬ (s' ≤ code ≤ e')) →
  apply_groups groups m !! code = Some (g + (code - s)).
Proof.
  revert m j. induction groups as [|[[s0 e0] g0] groups IH]; intros m j Hj Hin Hlater.
  - done.
  - unfold apply_groups. simpl. destruct j as [|j]; simpl in Hj.
    + simplify_eq. clear IH.
      assert (Hrest : ∀ i s' e' g', groups !! i = Some (s', e', g') →
                ¬ (s' ≤ code ≤ e')).
      { intros i s' e' g' Hi. apply (Hlater (S i) s' e' g'); [lia | done]. }
      clear Hlater.
      assert (Hkeep : ∀ m0 : gmap N N, m0 !! code = Some (g + (code - s)) →
                apply_groups groups m0 !! code = Some (g + (code - s))).
      { induction groups as [|[[s1 e1] g1] groups IH]; intros m0 Hm0; [exact Hm0|].
        unfold apply_groups. simpl. apply IH.
        - intros i s' e' g' Hi. by apply (Hrest (S i) s' e' g').
        - rewrite format12_group_lookup. rewrite decide_False; [done|].
          by apply (Hrest 0%nat s1 e1 g1). }
      apply Hkeep. rewrite format12_group_lookup. by rewrite decide_True.
    + apply (IH _ j); [done | done |].
      intros j' s' e' g' Hlt Hj'. apply (Hlater (S j') s' e' g'); [lia | done].
Qed.

Lemma parse_cmap_format12_Ok (data : bytes) (offset : N) (cmap : gmap N N) :
  TrueTypeFont._parse_cmap_format12 data offset = Ok cmap →
  cmap = apply_groups (format12_groups data offset) ∅.
Proof.
  unfold TrueTypeFont._parse_cmap_format12. intros H.
  inv_bind H as [fmt reserved] Hfmt. inv_bind H as [[len lang] num_groups] Hhead.
  apply unpack_III_Ok in Hhead as (_ & _ & _ & ->).
  apply format12_loop_Ok in H as (groups & Hlen & Hrec & ->). f_equal.
  unfold format12_groups. apply list_eq. intros j.
  rewrite list_lookup_fmap. destruct (groups !! j) as [[[s e] g]|] eqn:Hj.
  - rewrite lookup_seq_lt by (apply lookup_lt_Some in Hj; lia). simpl.
    apply Hrec in Hj. apply unpack_III_Ok in Hj as (_ & -> & -> & ->). done.
  - rewrite lookup_seq_ge; [done|]. apply lookup_ge_None in Hj. lia.
Qed.

(** C4, as amended.  When the format 12 subtable parses, every group
    [(startCharCode, endCharCode, startGlyphId)] and every code point of
    its range that no later group covers is mapped to
    [startGlyphId + (code - startCharCode)]; a code point covered by
    several groups takes the value of the last of them. *)
Theorem cmap_format12_groups (data : bytes) (offset : N) (cmap : gmap N N) :
  TrueTypeFont._parse_cmap_format12 data offset = Ok cmap →
  ∀ (j : nat) (start_char end_char start_glyph code : N),
    format12_groups data offset !! j = Some (start_char, end_char, start_glyph) →
    start_char ≤ code ≤ end_char →
    (∀ j' s' e' g', (j < j')%nat →
       format12_groups data offset !! j' = Some (s', e', g') → ¬ (s' ≤ code ≤ e')) →
    cmap !! code = Some (start_glyph + (code - start_char)).
Proof.
  intros H j s e g code Hj Hin Hlater. apply parse_cmap_format12_Ok in H as ->.
  by apply (apply_groups_lookup _ _ j s e g).
Qed.

(** The subtable with the single group [(0x10000, 0x10002, 500)] maps
    code point [0x10001] to glyph 501. *)
Lemma cmap_format12_groups_witness :
  ∃ cmap,
    TrueTypeFont._parse_cmap_format12
      (Fixture.format12_subtable [(0x10000, 0x10002, 500)]) 0 = Ok cmap ∧
    cmap !! 0x10001 = Some 501.
Proof.
  eexists. split; [vm_compute; reflexivity |].
  refine (cmap_format12_groups
            (Fixture.format12_subtable [(0x10000, 0x10002, 500)]) 0 _ _
            0%nat 0x10000 0x10002 500 0x10001 _ _ _).
  - vm_compute. reflexivity.
  - vm_compute. reflexivity.
  - split; vm_compute; discriminate.
  - intros [|[|j']] s' e' g' Hlt Hj'; [inversion Hlt | discriminate Hj' | discriminate Hj'].
Defined.

(** C4 as stated fails: with the groups [(0x41, 0x43, 500)] and
    [(0x42, 0x42, 7)], code point [0x42] lies in the first group and is
    mapped to 7, not to [500 + 1]. *)
Lemma cmap_format12_counterexample :
  let data := Fixture.format12_subtable [(0x41, 0x43, 500); (0x42, 0x42, 7)] in
  ∃ cmap,
    TrueTypeFont._parse_cmap_format12 data 0 = Ok cmap ∧
    format12_groups data 0 !! 0%nat = Some (0x41, 0x43, 500) ∧
    0x41 ≤ 0x42 ≤ 0x43 ∧
    cmap !! 0x42 = Some 7 ∧
    cmap !! 0x42 ≠ Some (500 + (0x42 - 0x41)).
Proof.
  eexists. split; [vm_compute; reflexivity |].
  split; [vm_compute; reflexivity |]. split; [lia |].
  split; [vm_compute; reflexivity |]. vm_compute. discriminate.
Qed.

(** ** cmap format 4 *)


Lemma for_each_unchanged {A} (body : gmap N N → A → result (gmap N N))
    (assign : A → N → option N) (k : N) :
  (∀ m x m', body m x = Ok m' →
     m' !! k = match assign x k with Some g => Some g | None => m !! k end) →
  ∀ xs m m', for_each body xs m = Ok m' →
    (∀ x, x ∈ xs → assign x k = None) → m' !! k = m !! k.
Proof.
  intros Hbody. induction xs as [|x xs IH]; intros m m' H Hnone; simpl in H.
  - by simplify_eq.
  - inv_bind H as m1 Hm1. rewrite (IH m1 m' H).
    + rewrite (Hbody _ _ _ Hm1), Hnone; [done | apply elem_of_cons; by left].
    + intros y Hy. apply Hnone. apply elem_of_cons. by right.
Qed.

Lemma for_each_last {A} (body : gmap N N → A → result (gmap N N))
    (assign : A → N → option N) (k : N) :
  (∀ m x m', body m x = Ok m' →
     m' !! k = match assign x k with Some g => Some g | None => m !! k end) →
  ∀ xs m m' (p : nat) x g, for_each body xs m = Ok m' →
    xs !! p = Some x → assign x k = Some g →
    (∀ q y, (p < q)%nat → xs !! q = Some y → assign y k = None) →
    m' !! k = Some g.
Proof.
  intros Hbody. induction xs as [|x0 xs IH]; intros m m' p x g H Hp Hx Hlater;
    simpl in H; [done|].
  inv_bind H as m1 Hm1. destruct p as [|p]; simpl in Hp.
  - simplify_eq. rewrite (for_each_unchanged body assign k Hbody xs m1 m' H).
    + by rewrite (Hbody _ _ _ Hm1), Hx.
    + intros y Hy. apply list_elem_of_lookup in Hy as [q Hq].
      by apply (Hlater (S q) y); [lia|].
  - apply (IH m1 m' p x g H Hp Hx). intros q y Hlt Hq.
    by apply (Hlater (S q) y); [lia|].
Qed.

Lemma fH_exact (b : bytes) : length b = 2%nat → Struct.fH 0 b = Struct.be b.
Proof.
  intros Hb. unfold Struct.fH, slice. simpl. rewrite drop_0.
  f_equal. apply take_ge. lia.
Qed.

Lemma format4_code_Ok (data : bytes) (offset len iroo : N) (i : nat)
    (start end_ : N) (delta : Z) (ro : N) (m m' : gmap N N) (code : N) :
  start ≤ code ≤ end_ →
  TrueTypeFont.format4_code data offset len iroo (N.of_nat i) start delta ro m code
    = Ok m' →
  m' = match format4_assign data offset len iroo i (start, end_, delta, ro) code with
       | Some g => <[code := g]> m
       | None => m
       end.
Proof.
  intros Hin. unfold TrueTypeFont.format4_code, format4_assign.
  replace ((start <=? code) && (code <=? end_)) with true
    by (symmetry; apply andb_true_iff; split; apply N.leb_le; lia).
  destruct (ro =? 0); [by intros; simplify_eq|].
  destruct (offset + len <=? _); [by intros; simplify_eq|].
  intros H. inv_bind H as raw Hraw. apply unpack_H_Ok in Hraw as [Hlen ->].
  rewrite fH_exact in H by exact Hlen. by simplify_eq.
Qed.

Lemma unpack_Hn_Ok (n : nat) (b : bytes) (l : list N) :
  Struct.unpack_Hn n b = Ok l → l = map (fun k => Struct.fH (2 * k) b) (seq 0 n).
Proof.
  unfold Struct.unpack_Hn. intros H. inv_bind H as [] Hs. by simplify_eq.
Qed.

Lemma unpack_hn_Ok (n : nat) (b : bytes) (l : list Z) :
  Struct.unpack_hn n b = Ok l → l = map (fun k => Struct.fh (2 * k) b) (seq 0 n).
Proof.
  unfold Struct.unpack_hn. intros H. inv_bind H as [] Hs. by simplify_eq.
Qed.

Lemma unpack_HHH_Ok (b : bytes) (x y z : N) :
  Struct.unpack_HHH b = Ok (x, y, z) →
  x = Struct.fH 0 b ∧ y = Struct.fH 2 b ∧ z = Struct.fH 4 b.
Proof.
  unfold Struct.unpack_HHH. intros H. inv_bind H as [] Hs. by simplify_eq.
Qed.

Lemma item_Ok {A} (l : list A) (i : nat) (x : A) : item l i = Ok x ↔ l !! i = Some x.
Proof. unfold item. destruct (l !! i); split; intros H; by simplify_eq. Qed.

(** A loop whose body conditionally stores a value under its own
    element: afterwards an element of the list holds its value, if it has
    one, and every other key is as before. *)
Lemma for_each_store (body : gmap N N → N → result (gmap N N))
    (val : N → option N) (P : N → Prop) :
  (∀ m x m', P x → body m x = Ok m' →
     m' = match val x with Some g => <[x := g]> m | None => m end) →
  ∀ xs m m' k, Forall P xs → for_each body xs m = Ok m' →
    m' !! k = if decide (k ∈ xs)
              then match val k with Some g => Some g | None => m !! k end
              else m !! k.
Proof.
  intros Hbody. induction xs as [|x xs IH]; intros m m' k Hall H; simpl in H.
  - simplify_eq. rewrite decide_False; [done|]. apply not_elem_of_nil.
  - inv_bind H as m1 Hm1. apply Forall_cons in Hall as [Hx Hall].
    rewrite (IH m1 m' k Hall H). apply Hbody in Hm1; [|done]. subst m1.
    assert (Hm1 : (match val x with Some g => <[x := g]> m | None => m end) !! k
                  = if decide (x = k)
                    then match val k with Some g => Some g | None => m !! k end
                    else m !! k).
    { destruct (decide (x = k)) as [->|Hne].
      - destruct (val k); [by rewrite lookup_insert_eq | done].
      - destruct (val x); [by rewrite lookup_insert_ne | done]. }
    rewrite Hm1. clear Hm1 H IH.
    destruct (decide (k ∈ x :: xs)) as [Hc|Hc]; rewrite elem_of_cons in Hc;
      destruct (decide (k ∈ xs)) as [Hin|Hnin];
      destruct (decide (x = k)) as [->|Hne];
      try done; try (by destruct (val k)); exfalso; intuition congruence.
Qed.

(** One pass of the inner loop over the codes of a segment. *)
Lemma format4_codes_lookup (data : bytes) (offset len iroo : N) (i : nat)
    (start end_ : N) (delta : Z) (ro : N) (m m' : gmap N N) (k : N) :
  for_each (TrueTypeFont.format4_code data offset len iroo (N.of_nat i) start delta ro)
    (range start (end_ + 1)) m = Ok m' →
  m' !! k = match format4_assign data offset len iroo i (start, end_, delta, ro) k with
            | Some g => Some g
            | None => m !! k
            end.
Proof.
  intros H.
  rewrite (for_each_store _
             (format4_assign data offset len iroo i (start, end_, delta, ro))
             (fun c => start ≤ c ≤ end_)
             (fun m0 x m1 Hx => format4_code_Ok data offset len iroo i start end_
                                  delta ro m0 m1 x Hx)
             (range start (end_ + 1)) m m' k); [| |exact H].
  - destruct (decide (k ∈ range start (end_ + 1))) as [Hin|Hnin]; [done|].
    rewrite elem_of_range in Hnin. unfold format4_assign.
    replace ((start <=? k) && (k <=? end_)) with false; [done|].
    symmetry. apply andb_false_iff.
    destruct (N.leb_spec start k); [right; apply N.leb_gt; lia | by left].
  - apply Forall_forall. intros c Hc. apply elem_of_range in Hc. lia.
Qed.

(** One pass of the outer loop: segment [i]. *)
Lemma format4_segment_lookup (data : bytes) (offset len iroo : N)
    (end_count start_count : list N) (id_delta : list Z) (id_range_offset : list N)
    (m m' : gmap N N) (i : nat) (k : N) :
  TrueTypeFont.format4_segment data offset len iroo end_count start_count
    id_delta id_range_offset m i = Ok m' →
  ∃ start end_ delta ro,
    start_count !! i = Some start ∧ end_count !! i = Some end_ ∧
    id_delta !! i = Some delta ∧ id_range_offset !! i = Some ro ∧
    m' !! k = match format4_assign data offset len iroo i (start, end_, delta, ro) k with
              | Some g => Some g
              | None => m !! k
              end.
Proof.
  unfold TrueTypeFont.format4_segment. intros H.
  inv_bind H as start Hstart. inv_bind H as end_ Hend.
  inv_bind H as delta Hdelta. inv_bind H as ro Hro.
  apply item_Ok in Hstart, Hend, Hdelta, Hro.
  exists start, end_, delta, ro. repeat (split; [done|]).
  by apply format4_codes_lookup.
Qed.

Lemma lookup_map_seq {A} (f : nat → A) (n i : nat) (x : A) :
  map f (seq 0 n) !! i = Some x ↔ (i < n)%nat ∧ x = f i.
Proof.
  change (map f (seq 0 n)) with (f <$> seq 0 n). rewrite list_lookup_fmap. split.
  - destruct (seq 0 n !! i) as [j|] eqn:Hj; [|done]. apply lookup_seq in Hj as [-> ?].
    simpl. intros ?; by simplify_eq.
  - intros [Hlt ->]. by rewrite lookup_seq_lt.
Qed.

Lemma land_0xFFFF (z : Z) : Z.land z 0xFFFF = (z mod 2 ^ 16)%Z.
Proof. change 0xFFFF%Z with (Z.ones 16). apply Z.land_ones. lia. Qed.

Lemma parse_cmap_format4_Ok (data : bytes) (offset : N) (cmap : gmap N N) :
  TrueTypeFont._parse_cmap_format4 data offset = Ok cmap →
  ∃ body,
    for_each body (seq 0 (N.to_nat (format4_seg_count data offset))) ∅ = Ok cmap ∧
    ∀ k m i m', body m i = Ok m' →
      m' !! k = match format4_assign_at data offset i k with
                | Some g => Some g
                | None => m !! k
                end.
Proof.
  unfold TrueTypeFont._parse_cmap_format4. intros H.
  inv_bind H as [[len lang] seg_count_x2] Hhead.
  apply unpack_HHH_Ok in Hhead as (-> & _ & ->).
  inv_bind H as end_count Hend. inv_bind H as start_count Hstart.
  inv_bind H as id_delta Hdelta. inv_bind H as id_range_offset Hro.
  apply unpack_Hn_Ok in Hend, Hstart, Hro. apply unpack_hn_Ok in Hdelta.
  eexists. split; [exact H|]. clear H.
  intros k m i m' Hseg.
  apply (format4_segment_lookup _ _ _ _ _ _ _ _ _ _ _ k) in Hseg
    as (start & end_ & delta & ro & Hs & He & Hd & Hr & ->).
  unfold format4_assign_at, format4_segments.
  fold (format4_seg_count data offset) in *.
  fold (format4_length data offset).
  subst end_count start_count id_delta id_range_offset.
  apply lookup_map_seq in Hs as [Hi ->]. apply lookup_map_seq in He as [_ ->].
  apply lookup_map_seq in Hd as [_ ->]. apply lookup_map_seq in Hr as [_ ->].
  rewrite (proj2 (lookup_map_seq _ _ i _) (conj Hi eq_refl)). reflexivity.
Qed.

Lemma format4_assign_outside (data : bytes) (offset len iroo : N) (i : nat)
    (start end_ : N) (delta : Z) (ro k : N) :
  ¬ (start ≤ k ≤ end_) →
  format4_assign data offset len iroo i (start, end_, delta, ro) k = None.
Proof.
  intros Hk. unfold format4_assign.
  replace ((start <=? k) && (k <=? end_)) with false; [done|].
  symmetry. apply andb_false_iff.
  destruct (N.leb_spec start k); [right; apply N.leb_gt; lia | by left].
Qed.

(** C3, as amended.  When the format 4 subtable parses, for every segment
    and every code point of [[startCode, endCode]] that no later segment
    covers: with [idRangeOffset = 0] the code point is mapped to
    [(code + idDelta) mod 2^16]; otherwise the glyph index array is read at
    [position = idRangeOffset-address + idRangeOffset + 2 * (code - startCode)],
    provided that position lies before the end of the subtable
    ([offset + length]), a raw value 0 gives glyph 0 and any other value has
    [idDelta] added modulo [2^16]; a code point whose position lies at or
    after the end of the subtable is skipped and, if no other segment covers
    it, stays unmapped. *)
Theorem cmap_format4_segments (data : bytes) (offset : N) (cmap : gmap N N) :
  TrueTypeFont._parse_cmap_format4 data offset = Ok cmap →
  ∀ (i : nat) (start end_ : N) (delta : Z) (ro code : N),
    format4_segments data offset !! i = Some (start, end_, delta, ro) →
    start ≤ code ≤ end_ →
    (∀ i' s' e' d' r', (i < i')%nat →
       format4_segments data offset !! i' = Some (s', e', d', r') →
       ¬ (s' ≤ code ≤ e')) →
    let position :=
      format4_id_range_offset_offset data offset + 2 * N.of_nat i + ro
      + 2 * (code - start) in
    let raw := Struct.be (nslice position (position + 2) data) in
    (ro = 0 → cmap !! code = Some (Z.to_N ((Z.of_N code + delta) mod 2 ^ 16))) ∧
    (ro ≠ 0 → position < offset + format4_length data offset →
       cmap !! code
       = Some (if raw =? 0 then 0 else Z.to_N ((Z.of_N raw + delta) mod 2 ^ 16))) ∧
    (ro ≠ 0 → offset + format4_length data offset ≤ position →
       (∀ i' s' e' d' r', (i' < i)%nat →
          format4_segments data offset !! i' = Some (s', e', d', r') →
          ¬ (s' ≤ code ≤ e')) →
       cmap !! code = None).
Proof.
  intros H i start end_ delta ro code Hi Hin Hlater position raw.
  apply parse_cmap_format4_Ok in H as (body & Hloop & Hbody).
  assert (Hidx : seq 0 (N.to_nat (format4_seg_count data offset)) !! i = Some i).
  { apply lookup_seq. split; [done|]. apply lookup_lt_Some in Hi.
    unfold format4_segments in Hi. by rewrite length_map, length_seq in Hi. }
  assert (Hafter : ∀ q y, (i < q)%nat →
            seq 0 (N.to_nat (format4_seg_count data offset)) !! q = Some y →
            format4_assign_at data offset y code = None).
  { intros q y Hlt Hq. apply lookup_seq in Hq as [-> _]. unfold format4_assign_at.
    destruct (format4_segments data offset !! (0 + q)%nat) as [[[[s' e'] d'] r']|] eqn:Hq;
      [|done].
    apply format4_assign_outside. by apply (Hlater (0 + q)%nat s' e' d' r'). }
  assert (Hhere : format4_assign_at data offset i code
            = if ro =? 0 then Some (Z.to_N ((Z.of_N code + delta) mod 2 ^ 16))
              else if offset + format4_length data offset <=? position then None
              else Some (if raw =? 0 then 0
                         else Z.to_N ((Z.of_N raw + delta) mod 2 ^ 16))).
  { unfold format4_assign_at. rewrite Hi. unfold format4_assign.
    replace ((start <=? code) && (code <=? end_)) with true
      by (symmetry; apply andb_true_iff; split; apply N.leb_le; lia).
    by rewrite !land_0xFFFF. }
  split; [|split].
  - intros ->. rewrite N.eqb_refl in Hhere.
    by apply (for_each_last body (format4_assign_at data offset) code
                (fun m x m' => Hbody code m x m')
                (seq 0 (N.to_nat (format4_seg_count data offset))) ∅ cmap i i).
  - intros Hro Hpos. apply N.eqb_neq in Hro. rewrite Hro in Hhere.
    apply N.leb_gt in Hpos. rewrite Hpos in Hhere.
    by apply (for_each_last body (format4_assign_at data offset) code
                (fun m x m' => Hbody code m x m')
                (seq 0 (N.to_nat (format4_seg_count data offset))) ∅ cmap i i).
  - intros Hro Hpos Hbefore. apply N.eqb_neq in Hro. rewrite Hro in Hhere.
    apply N.leb_le in Hpos. rewrite Hpos in Hhere.
    rewrite (for_each_unchanged body (format4_assign_at data offset) code
               (fun m x m' => Hbody code m x m')
               (seq 0 (N.to_nat (format4_seg_count data offset))) ∅ cmap Hloop);
      [done|].
    intros x Hx. apply list_elem_of_lookup in Hx as [q Hq].
    pose proof Hq as Hq'. apply lookup_seq in Hq' as [-> _]. simpl in *.
    destruct (Nat.lt_total q i) as [Hlt|[->|Hgt]].
    + unfold format4_assign_at.
      destruct (format4_segments data offset !! q) as [[[[s' e'] d'] r']|] eqn:Hs; [|done].
      apply format4_assign_outside. by apply (Hbefore q s' e' d' r').
    + done.
    + by apply (Hafter q q).
Qed.

(** The subtable with the single segment [start = 0x41], [end = 0x43],
    [delta = 0], [idRangeOffset = 0] maps 0x41, 0x42 and 0x43 to themselves. *)
Lemma cmap_format4_segments_witness :
  ∃ cmap,
    TrueTypeFont._parse_cmap_format4
      (Fixture.format4_subtable [(0x41, 0x43, 0%Z, 0)] []) 0 = Ok cmap ∧
    cmap !! 0x41 = Some 0x41 ∧ cmap !! 0x42 = Some 0x42 ∧ cmap !! 0x43 = Some 0x43.
Proof.
  eexists. split; [vm_compute; reflexivity |].
  split; [|split].
  - refine (proj1 (cmap_format4_segments
              (Fixture.format4_subtable [(0x41, 0x43, 0%Z, 0)] []) 0 _ _
              0%nat 0x41 0x43 0%Z 0 0x41 _ _ _) eq_refl).
    + vm_compute. reflexivity.
    + vm_compute. reflexivity.
    + split; vm_compute; discriminate.
    + intros [|[|i']] s' e' d' r' Hlt Hi';
        [inversion Hlt | discriminate Hi' | discriminate Hi'].
  - refine (proj1 (cmap_format4_segments
              (Fixture.format4_subtable [(0x41, 0x43, 0%Z, 0)] []) 0 _ _
              0%nat 0x41 0x43 0%Z 0 0x42 _ _ _) eq_refl).
    + vm_compute. reflexivity.
    + vm_compute. reflexivity.
    + split; vm_compute; discriminate.
    + intros [|[|i']] s' e' d' r' Hlt Hi';
        [inversion Hlt | discriminate Hi' | discriminate Hi'].
  - refine (proj1 (cmap_format4_segments
              (Fixture.format4_subtable [(0x41, 0x43, 0%Z, 0)] []) 0 _ _
              0%nat 0x41 0x43 0%Z 0 0x43 _ _ _) eq_refl).
    + vm_compute. reflexivity.
    + vm_compute. reflexivity.
    + split; vm_compute; discriminate.
    + intros [|[|i']] s' e' d' r' Hlt Hi';
        [inversion Hlt | discriminate Hi' | discriminate Hi'].
Defined.

(** C3 as stated fails in two ways.  A segment [(0x41, 0x43, delta 1,
    idRangeOffset 2)] over a two-entry glyph index array sends code point
    0x43 to a position at the end of the subtable: the bytes there hold 9,
    yet the code point is skipped and has no entry.  And with the segments
    [(0x41, 0x43, 0, 0)] and [(0x42, 0x42, 5, 0)], code point 0x42 of the
    first segment is mapped by the second one to 0x47. *)
Lemma cmap_format4_counterexample :
  (let data := Fixture.format4_subtable [(0x41, 0x43, 1%Z, 2)] [7; 0] ++ Fixture.u16 9 in
   let position := format4_id_range_offset_offset data 0 + 2 * 0 + 2 + 2 * (0x43 - 0x41) in
   ∃ cmap,
     TrueTypeFont._parse_cmap_format4 data 0 = Ok cmap ∧
     format4_segments data 0 = [(0x41, 0x43, 1%Z, 2)] ∧
     Struct.be (nslice position (position + 2) data) = 9 ∧
     cmap !! 0x43 = None) ∧
  (let data := Fixture.format4_subtable [(0x41, 0x43, 0%Z, 0); (0x42, 0x42, 5%Z, 0)] [] in
   ∃ cmap,
     TrueTypeFont._parse_cmap_format4 data 0 = Ok cmap ∧
     format4_segments data 0 = [(0x41, 0x43, 0%Z, 0); (0x42, 0x42, 5%Z, 0)] ∧
     cmap !! 0x42 = Some 0x47 ∧
     cmap !! 0x42 ≠ Some (Z.to_N ((Z.of_N 0x42 + 0) mod 2 ^ 16))).
Proof.
  split.
  - eexists. split; [vm_compute; reflexivity |].
    split; [vm_compute; reflexivity |]. split; vm_compute; reflexivity.
  - eexists. split; [vm_compute; reflexivity |].
    split; [vm_compute; reflexivity |]. split; [vm_compute; reflexivity |].
    vm_compute. discriminate.
Qed.

(** ** Parse errors *)




















(** ** The required tables *)

Lemma check_size_slice (n a b : nat) (t : bytes) :
  n = (b - a)%nat → (0 < n)%nat →
  Struct.check_size n (slice a b t)
  = if decide (b ≤ length t)%nat then Ok tt else Raise StructError.
Proof.
  intros -> Hn. unfold Struct.check_size. rewrite slice_length.
  case_decide as Hle.
  - by rewrite (proj2 (Nat.eqb_eq _ _)) by lia.
  - by rewrite (proj2 (Nat.eqb_neq _ _)) by lia.
Qed.

Lemma fh_slice (i j p : nat) (b : bytes) :
  (p + 2 ≤ j - i)%nat → Struct.fh p (slice i j b) = Struct.fh (i + p) b.
Proof. intros H. unfold Struct.fh. by rewrite fH_slice. Qed.

Lemma parse_head_eq (data : bytes) (tables : gmap pystr (N * N)) :
  TrueTypeFont._parse_head data tables
  = match tables !! lit "head" with
    | None => Raise (KeyError (lit "head"))
    | Some entry =>
        let table := TrueTypeFont.table_bytes data entry in
        if decide (44 ≤ length table)%nat
        then Ok (Struct.fH 18 table,
                 (Struct.fh 36 table, Struct.fh 38 table,
                  Struct.fh 40 table, Struct.fh 42 table))
        else Raise StructError
    end.
Proof.
  unfold TrueTypeFont._parse_head, getitem.
  destruct (tables !! lit "head") as [entry|]; [|done]. cbn [mbind result_mbind result_bind].
  cbv zeta. generalize (TrueTypeFont.table_bytes data entry). intros table.
  unfold Struct.unpack_H, Struct.unpack_hhhh.
  rewrite !check_size_slice by (done || lia).
  destruct (decide (44 ≤ length table)%nat) as [Hle|Hgt];
    destruct (decide (20 ≤ length table)%nat) as [H20|H20];
    cbn [mbind result_mbind result_bind]; try done; try lia.
  by rewrite fH_slice, !fh_slice by lia.
Qed.

Lemma parse_hhea_eq (data : bytes) (tables : gmap pystr (N * N)) :
  TrueTypeFont._parse_hhea data tables
  = match tables !! lit "hhea" with
    | None => Raise (KeyError (lit "hhea"))
    | Some entry =>
        let table := TrueTypeFont.table_bytes data entry in
        if decide (36 ≤ length table)%nat
        then Ok (Struct.fh 4 table, Struct.fh 6 table, Struct.fh 8 table,
                 Struct.fH 34 table)
        else Raise StructError
    end.
Proof.
  unfold TrueTypeFont._parse_hhea, getitem.
  destruct (tables !! lit "hhea") as [entry|]; [|done]. cbn [mbind result_mbind result_bind].
  cbv zeta. generalize (TrueTypeFont.table_bytes data entry). intros table.
  unfold Struct.unpack_H, Struct.unpack_hhh.
  rewrite !check_size_slice by (done || lia).
  destruct (decide (36 ≤ length table)%nat) as [Hle|Hgt];
    destruct (decide (10 ≤ length table)%nat) as [H10|H10];
    cbn [mbind result_mbind result_bind]; try done; try lia.
  by rewrite fH_slice, !fh_slice by lia.
Qed.

Lemma parse_maxp_eq (data : bytes) (tables : gmap pystr (N * N)) :
  TrueTypeFont._parse_maxp data tables
  = match tables !! lit "maxp" with
    | None => Raise (KeyError (lit "maxp"))
    | Some entry =>
        let table := TrueTypeFont.table_bytes data entry in
        if decide (6 ≤ length table)%nat then Ok (Struct.fH 4 table)
        else Raise StructError
    end.
Proof.
  unfold TrueTypeFont._parse_maxp, getitem.
  destruct (tables !! lit "maxp") as [entry|]; [|done]. cbn [mbind result_mbind result_bind].
  cbv zeta. generalize (TrueTypeFont.table_bytes data entry). intros table.
  unfold Struct.unpack_H.
  rewrite !check_size_slice by (done || lia).
  destruct (decide (6 ≤ length table)%nat) as [Hle|Hgt];
    cbn [mbind result_mbind result_bind]; [|done].
  by rewrite fH_slice by lia.
Qed.








(** ** The offset directory *)



(** ** The cmap directory *)








(** ** The errors of [__init__] *)

(** Splits a hypothesis [m ≫= f = Raise (RuntimeError msg)] when [m]
    itself cannot raise a [RuntimeError]. *)
Tactic Notation "inv_raise" hyp(H) "as" simple_intropattern(a) ident(Ha) "by" tactic(tac) :=
  apply bind_Raise in H as [H | (a & Ha & H)]; [exfalso; revert H; tac |].




(** ** The registration invariant of the encoder *)


Lemma first_seen_elem (l : list N) (x : N) : x ∈ first_seen l ↔ x ∈ l.
Proof.
  induction l as [|y l IH]; simpl; [done|].
  rewrite !elem_of_cons, list_elem_of_filter, IH.
  destruct (decide (x = y)); tauto.
Qed.

Lemma first_seen_NoDup (l : list N) : NoDup (first_seen l).
Proof.
  induction l as [|y l IH]; simpl; [constructor|].
  constructor.
  - rewrite list_elem_of_filter. intros [Hne _]. by apply Hne.
  - by apply NoDup_filter.
Qed.

Lemma first_seen_snoc (l : list N) (x : N) :
  first_seen (l ++ [x]) = if decide (x ∈ l) then first_seen l else first_seen l ++ [x].
Proof.
  induction l as [|y l IH]; simpl; [done|].
  rewrite IH. destruct (decide (x ∈ l)) as [Hin|Hnin].
  - rewrite decide_True by (apply elem_of_cons; by right). done.
  - destruct (decide (x = y)) as [->|Hne].
    + rewrite decide_True by (apply elem_of_cons; by left).
      rewrite filter_app, filter_cons, filter_nil.
      rewrite decide_False by (intros Hc; by apply Hc).
      by rewrite app_nil_r.
    + rewrite decide_False by (rewrite elem_of_cons; tauto).
      rewrite filter_app, filter_cons, filter_nil.
      by rewrite decide_True by done.
Qed.

Lemma tracked_init (font : TrueTypeFont.t) : tracked font [] (FontEncoder.__init__ font).
Proof.
  split; simpl; try done.
  intros g Hg. by apply elem_of_nil in Hg.
Qed.

Lemma keys_add_elem (k g : N) (keys : list N) :
  g ∈ FontEncoder.keys_add k keys ↔ g = k ∨ g ∈ keys.
Proof.
  unfold FontEncoder.keys_add. case_decide as Hk.
  - split; [by right | by intros [->|?]].
  - rewrite elem_of_app, list_elem_of_singleton. tauto.
Qed.

Lemma tracked_ensure_char (font : TrueTypeFont.t) (trace : pystr)
    (self : FontEncoder.t) (ch : N) :
  tracked font trace self →
  tracked font (trace ++ [ch]) (FontEncoder.ensure_char self ch).
Proof.
  intros [Hfont Hchars Hset Hdom Hgid Hglyphs]. unfold FontEncoder.ensure_char.
  case_decide as Hin.
  - assert (ch ∈ trace) by (rewrite Hset in Hin; by apply elem_of_list_to_set in Hin).
    split; try done.
    + by rewrite first_seen_snoc, decide_True.
    + rewrite Hset, list_to_set_app_L. set_solver.
  - assert (ch ∉ trace) by (rewrite Hset in Hin; by rewrite elem_of_list_to_set in Hin).
    split; simpl; try done.
    + by rewrite first_seen_snoc, decide_False, Hchars.
    + rewrite Hset, list_to_set_app_L. set_solver.
    + by rewrite dom_insert_L, Hdom.
    + intros c g Hc. unfold FontEncoder._glyph_for_char in *. rewrite Hfont in *.
      rewrite keys_add_elem. destruct (decide (ch = c)) as [->|Hne].
      * rewrite lookup_insert_eq in Hc. simplify_eq. by split; [|left].
      * rewrite lookup_insert_ne in Hc by done. apply Hgid in Hc as [-> ?]. by split; [|right].
    + intros g Hg. apply keys_add_elem in Hg as [->|Hg].
      * exists ch. by rewrite lookup_insert_eq.
      * apply Hglyphs in Hg as [c Hc]. exists c.
        rewrite lookup_insert_ne; [done|]. intros ->.
        apply Hin. rewrite <- Hdom. apply elem_of_dom. by eexists.
Qed.

Lemma tracked_ensure_text (font : TrueTypeFont.t) (text trace : pystr)
    (self : FontEncoder.t) :
  tracked font trace self →
  tracked font (trace ++ text) (FontEncoder.ensure_text text self).
Proof.
  unfold FontEncoder.ensure_text. revert trace self.
  induction text as [|ch text IH]; intros trace self H; simpl.
  - by rewrite app_nil_r.
  - replace (trace ++ ch :: text) with ((trace ++ [ch]) ++ text)
      by (by rewrite <- app_assoc).
    apply IH. by apply tracked_ensure_char.
Qed.

Lemma ensure_char_known (self : FontEncoder.t) (ch : N) :
  ch ∈ FontEncoder.char_set self → FontEncoder.ensure_char self ch = self.
Proof. intros H. unfold FontEncoder.ensure_char. by rewrite decide_True. Qed.

(** One character of [measure_text]: the character is registered, and
    the step returns exactly when its glyph has an advance width. *)
Lemma measure_char_spec (font : TrueTypeFont.t) (trace : pystr)
    (self : FontEncoder.t) (total ch : N) :
  tracked font trace self →
  tracked font (trace ++ [ch]) (FontEncoder.measure_char total ch self).2 ∧
  (FontEncoder.measure_char total ch self).1
  = match char_units font ch with
    | Some w => Ok (total + w)
    | None => Raise IndexError
    end.
Proof.
  intros Htr. pose proof (tracked_ensure_char font trace self ch Htr) as Htr'.
  unfold FontEncoder.measure_char, mbind, M_mbind, M_bind, get, modify, lift,
    mret, M_mret, M_ret, FontEncoder.ensure_text.
  cbn [fold_left fst snd].
  destruct (FontEncoder.char_to_gid self !! ch) as [g|] eqn:Hg.
  - assert (Hin : ch ∈ FontEncoder.char_set self).
    { rewrite <- (tracked_dom _ _ _ Htr). apply elem_of_dom. by eexists. }
    rewrite ensure_char_known in Htr' by done.
    destruct (tracked_gid _ _ _ Htr ch g Hg) as [-> _].
    rewrite (tracked_font _ _ _ Htr). unfold item, char_units.
    by destruct (TrueTypeFont.advance_widths font !! _).
  - assert (Hnin : ch ∉ FontEncoder.char_set self).
    { rewrite <- (tracked_dom _ _ _ Htr). by apply not_elem_of_dom. }
    assert (Hg' : FontEncoder.char_to_gid (FontEncoder.ensure_char self ch) !! ch
                  = Some (default 0 (TrueTypeFont.cmap font !! ch))).
    { unfold FontEncoder.ensure_char. rewrite decide_False by done. simpl.
      rewrite lookup_insert_eq. unfold FontEncoder._glyph_for_char.
      by rewrite (tracked_font _ _ _ Htr). }
    unfold getitem_char. rewrite Hg'.
    rewrite (tracked_font _ _ _ Htr'). unfold item, char_units.
    by destruct (TrueTypeFont.advance_widths font !! _).
Qed.

Lemma measure_loop_spec (font : TrueTypeFont.t) (text trace : pystr)
    (self : FontEncoder.t) (total : N) :
  tracked font trace self →
  tracked font (trace ++ measured_prefix font text)
    (FontEncoder.measure_loop text total self).2 ∧
  (FontEncoder.measure_loop text total self).1
  = match text_units font text with
    | Some u => Ok (total + u)
    | None => Raise IndexError
    end.
Proof.
  revert trace self total. induction text as [|ch text IH]; intros trace self total Htr.
  - simpl. rewrite app_nil_r, N.add_0_r. done.
  - destruct (measure_char_spec font trace self total ch Htr) as [Htr' Hres].
    cbn [FontEncoder.measure_loop measured_prefix text_units].
    unfold mbind, M_mbind, M_bind.
    destruct (FontEncoder.measure_char total ch self) as [r self'] eqn:Hstep.
    simpl in Htr', Hres. subst r.
    destruct (char_units font ch) as [w|].
    + destruct (IH (trace ++ [ch]) self' (total + w) Htr') as [Htr'' Hres'].
      rewrite <- app_assoc in Htr''. split; [done|]. rewrite Hres'.
      destruct (text_units font text); [|done]. f_equal. lia.
    + done.
Qed.

Lemma measure_text_spec (font : TrueTypeFont.t) (text trace : pystr)
    (self : FontEncoder.t) (font_size : float) :
  tracked font trace self →
  tracked font (trace ++ measured_prefix font text)
    (FontEncoder.measure_text text font_size self).2 ∧
  (FontEncoder.measure_text text font_size self).1
  = match text_units font text with
    | Some u => FontEncoder.scale u (TrueTypeFont.units_per_em font) font_size
    | None => Raise IndexError
    end.
Proof.
  intros Htr. destruct (measure_loop_spec font text trace self 0 Htr) as [Htr' Hres].
  unfold FontEncoder.measure_text, mbind, M_mbind, M_bind, get, lift.
  destruct (FontEncoder.measure_loop text 0 self) as [r self'].
  simpl in Htr', Hres. subst r.
  destruct (text_units font text) as [u|]; [|done].
  simpl. by rewrite (tracked_font _ _ _ Htr').
Qed.

Lemma encode_text_state (text : pystr) (self : FontEncoder.t) :
  (FontEncoder.encode_text text self).2 = FontEncoder.ensure_text text self.
Proof.
  unfold FontEncoder.encode_text, mbind, M_mbind, M_bind, get, modify,
    mret, M_mret, M_ret.
  destruct text as [|ch text]; [done|].
  match goal with |- context [lift ?r] => by destruct r end.
Qed.

Lemma tracked_run_call (font : TrueTypeFont.t) (trace : pystr)
    (self : FontEncoder.t) (c : call) :
  tracked font trace self →
  tracked font (trace ++ seen_by font c) (run_call self c).
Proof.
  intros Htr. destruct c as [text|text font_size|text]; simpl.
  - by apply tracked_ensure_text.
  - by apply measure_text_spec.
  - rewrite encode_text_state. by apply tracked_ensure_text.
Qed.

Lemma tracked_run_calls (font : TrueTypeFont.t) (calls : list call) (trace : pystr)
    (self : FontEncoder.t) :
  tracked font trace self →
  tracked font (trace ++ concat (map (seen_by font) calls)) (run_calls calls self).
Proof.
  unfold run_calls. revert trace self.
  induction calls as [|c calls IH]; intros trace self Htr; simpl.
  - by rewrite app_nil_r.
  - rewrite app_assoc. apply IH. by apply tracked_run_call.
Qed.

(** C9.  After any sequence of [ensure_text], [measure_text] and
    [encode_text] calls on a new encoder, the keys of [char_to_gid], the
    keys of [char_set] and the elements of [used_chars] are the same set;
    [used_chars] has no duplicates and lists the characters the calls looked
    at in the order of their first occurrence; and every glyph id that is a
    value of [char_to_gid] is a key of [used_glyphs]. *)
Theorem registration_invariant (font : TrueTypeFont.t) (calls : list call) :
  let self := run_calls calls (FontEncoder.__init__ font) in
  dom (FontEncoder.char_to_gid self) = FontEncoder.char_set self ∧
  FontEncoder.char_set self = list_to_set (FontEncoder.used_chars self) ∧
  NoDup (FontEncoder.used_chars self) ∧
  FontEncoder.used_chars self = first_seen (concat (map (seen_by font) calls)) ∧
  (∀ ch g, FontEncoder.char_to_gid self !! ch = Some g →
     g ∈ FontEncoder.used_glyphs self).
Proof.
  intros self.
  pose proof (tracked_run_calls font calls [] _ (tracked_init font)) as Htr.
  simpl in Htr. fold self in Htr.
  destruct Htr as [Hfont Hchars Hset Hdom Hgid Hglyphs].
  split; [done|]. split; [|split; [|split; [done|]]].
  - rewrite Hset, Hchars. apply set_eq. intros x.
    by rewrite !elem_of_list_to_set, first_seen_elem.
  - rewrite Hchars. apply first_seen_NoDup.
  - intros ch g Hg. by apply Hgid in Hg as [_ ?].
Qed.

(** ** Width monotonicity *)

Lemma text_units_snoc (font : TrueTypeFont.t) (s : pystr) (ch u2 : N) :
  text_units font (s ++ [ch]) = Some u2 →
  ∃ u1 w, text_units font s = Some u1 ∧ char_units font ch = Some w ∧ u2 = u1 + w.
Proof.
  revert u2. induction s as [|c s IH]; intros u2; simpl.
  - destruct (char_units font ch) as [w|]; [|done]. intros H. simplify_eq.
    exists 0, w. split; [done|]. split; [done|]. lia.
  - destruct (char_units font c) as [wc|]; [|done].
    destruct (text_units font (s ++ [ch])) as [r|]; [|done].
    intros H. simplify_eq. destruct (IH r eq_refl) as (u1 & w & -> & Hw & ->).
    exists (wc + u1), w. split; [done|]. split; [done|]. lia.
Qed.

Lemma scale_Ok (total units_per_em : N) (font_size w : float) :
  FontEncoder.scale total units_per_em font_size = Ok w →
  units_per_em ≠ 0 ∧
  ∃ quotient, int_truediv total units_per_em = Ok quotient ∧
              w = (quotient * font_size)%float.
Proof.
  unfold FontEncoder.scale. intros H. inv_bind H as q Hq. simplify_eq.
  split; [by apply Binary64Facts.int_truediv_Ok in Hq as [? _] | by exists q].
Qed.

Lemma scale_monotone (u1 u2 units_per_em : N) (font_size w2 : float) :
  u1 ≤ u2 →
  (0 <=? font_size)%float = true → (font_size <? infinity)%float = true →
  FontEncoder.scale u2 units_per_em font_size = Ok w2 →
  ∃ w1, FontEncoder.scale u1 units_per_em font_size = Ok w1 ∧
        (w1 <=? w2)%float = true.
Proof.
  intros Hle Hsize Hfin H. apply scale_Ok in H as (_ & q2 & Hq2 & ->).
  destruct (Binary64Facts.int_truediv_mono u1 u2 units_per_em q2 Hle Hq2)
    as (q1 & Hq1 & Hq).
  exists (q1 * font_size)%float. unfold FontEncoder.scale. rewrite Hq1.
  split; [done|].
  apply Binary64Facts.int_truediv_Ok in Hq1 as [_ Hf1].
  apply Binary64Facts.int_truediv_Ok in Hq2 as [_ Hf2].
  apply Binary64Facts.mul_mono; try done.
  rewrite <- Binary64Facts.finite_nonneg_prim. by rewrite Hsize, Hfin.
Qed.

(** C7, as amended.  For every string [s], every character [ch] and every
    size that is finite and not negative ([0 <= size < inf]): whenever
    [measure_text(s + ch, size)] returns, [measure_text(s, size)] returns
    too, and [measure_text(s + ch, size) >= measure_text(s, size)] holds of
    the two floats, whatever was registered before either call.  Advance
    widths are unsigned 16 bit values, so never negative; the quotient by
    [units_per_em] and the product with [size] are rounded to binary64, and
    both roundings are monotone. *)
Theorem measure_text_monotone (font : TrueTypeFont.t) (calls1 calls2 : list call)
    (s : pystr) (ch : N) (font_size w2 : float) :
  (0 <=? font_size)%float = true →
  (font_size <? infinity)%float = true →
  (FontEncoder.measure_text (s ++ [ch]) font_size
     (run_calls calls2 (FontEncoder.__init__ font))).1 = Ok w2 →
  ∃ w1,
    (FontEncoder.measure_text s font_size
       (run_calls calls1 (FontEncoder.__init__ font))).1 = Ok w1 ∧
    (w1 <=? w2)%float = true.
Proof.
  intros Hsize Hfin H2.
  pose proof (tracked_run_calls font calls1 [] _ (tracked_init font)) as Htr1.
  pose proof (tracked_run_calls font calls2 [] _ (tracked_init font)) as Htr2.
  destruct (measure_text_spec font (s ++ [ch]) _ _ font_size Htr2) as [_ Hres2].
  destruct (measure_text_spec font s _ _ font_size Htr1) as [_ Hres1].
  rewrite Hres2 in H2. rewrite Hres1.
  destruct (text_units font (s ++ [ch])) as [u2|] eqn:Hu2; [|done].
  apply text_units_snoc in Hu2 as (u1 & w & -> & Hw & ->).
  apply (scale_monotone u1 (u1 + w)); [lia | done..].
Qed.

(** In the sample font, at size 11.5, measuring "ABC" after "B" was
    encoded gives no less than measuring "AB" on a new encoder. *)
Lemma measure_text_monotone_witness :
  ∃ w1 w2,
    (FontEncoder.measure_text (lit "AB" ++ [67]) 11.5%float
       (run_calls [EncodeText (lit "B")]
          (FontEncoder.__init__ (Fixture.parsed Fixture.sample_font)))).1 = Ok w2 ∧
    (FontEncoder.measure_text (lit "AB") 11.5%float
       (run_calls [] (FontEncoder.__init__ (Fixture.parsed Fixture.sample_font)))).1
    = Ok w1 ∧
    (w1 <=? w2)%float = true.
Proof.
  assert (H : ∃ w2,
    (FontEncoder.measure_text (lit "AB" ++ [67]) 11.5%float
       (run_calls [EncodeText (lit "B")]
          (FontEncoder.__init__ (Fixture.parsed Fixture.sample_font)))).1 = Ok w2)
    by (eexists; vm_compute; reflexivity).
  destruct H as [w2 H2].
  destruct (measure_text_monotone (Fixture.parsed Fixture.sample_font) []
              [EncodeText (lit "B")] (lit "AB") 67 11.5%float w2)
    as (w1 & H1 & Hle).
  - vm_compute. reflexivity.
  - vm_compute. reflexivity.
  - exact H2.
  - exists w1, w2. split; [exact H2|]. split; [exact H1 | exact Hle].
Defined.

(** C7 as stated fails for a negative size and for an infinite one.  In
    the sample font the glyph of "A" has advance width 600 of 1000 units:
    at size -1 the text "A" measures -0.6, less than the empty text, which
    measures -0.0; at size [inf] the text "A" measures [inf] and the empty
    text [nan], which no float is at least. *)
Lemma measure_text_monotone_counterexample :
  ∃ ft,
    TrueTypeFont.__init__ Fixture.sample_font = Ok ft ∧
    TrueTypeFont.advance_widths ft
      !! N.to_nat (FontEncoder._glyph_for_char (FontEncoder.__init__ ft) 65) = Some 600 ∧
    (∃ w1 w2,
       (FontEncoder.measure_text ([] ++ [65]) (-1)%float (FontEncoder.__init__ ft)).1
       = Ok w2 ∧
       (FontEncoder.measure_text [] (-1)%float (FontEncoder.__init__ ft)).1 = Ok w1 ∧
       (w1 <=? w2)%float = false) ∧
    (∃ w1 w2,
       (FontEncoder.measure_text ([] ++ [65]) infinity (FontEncoder.__init__ ft)).1
       = Ok w2 ∧
       (FontEncoder.measure_text [] infinity (FontEncoder.__init__ ft)).1 = Ok w1 ∧
       (w1 <=? w2)%float = false).
Proof.
  eexists. split; [vm_compute; reflexivity|].
  split; [vm_compute; reflexivity|].
  split; eexists _, _; (split; [vm_compute; reflexivity|]);
    (split; [vm_compute; reflexivity|]); vm_compute; reflexivity.
Qed.

(** ** Default width and the W array *)

Lemma widths_loop (font : TrueTypeFont.t) (glyphs : list N) (m widths : gmap N Z) :
  for_each
    (fun widths glyph =>
       width_units ← item (TrueTypeFont.advance_widths font) (N.to_nat glyph);
       w ← per_mille (TrueTypeFont.units_per_em font) (Z.of_N width_units);
       Ok (<[glyph := w]> widths))
    glyphs m = Ok widths →
  ∀ g,
    (is_Some (widths !! g) ↔ g ∈ glyphs ∨ is_Some (m !! g)) ∧
    (∀ w, widths !! g = Some w →
       m !! g = Some w ∨
       ∃ units, TrueTypeFont.advance_widths font !! N.to_nat g = Some units ∧
                per_mille (TrueTypeFont.units_per_em font) (Z.of_N units) = Ok w).
Proof.
  revert m. induction glyphs as [|x glyphs IH]; intros m H g; simpl in H.
  - simplify_eq. split; [|by left]. rewrite elem_of_nil. tauto.
  - inv_bind H as m1 Hm1. inv_bind Hm1 as units Hunits. inv_bind Hm1 as w Hw.
    simplify_eq. apply item_Ok in Hunits.
    destruct (IH _ H g) as [Hdom Hval]. split.
    + rewrite Hdom, elem_of_cons. destruct (decide (x = g)) as [->|Hne].
      * rewrite lookup_insert_eq. split; [intros _; by left; left|]. intros _. by right.
      * rewrite lookup_insert_ne by done. split; [tauto|]. intros [[->|?]|?]; tauto.
    + intros w' Hw'. destruct (Hval w' Hw') as [Hm | Hex]; [|by right].
      destruct (decide (x = g)) as [->|Hne].
      * rewrite lookup_insert_eq in Hm. simplify_eq. right. by exists units.
      * rewrite lookup_insert_ne in Hm by done. by left.
Qed.

Lemma sorted_keys_elem (widths : gmap N Z) (g : N) :
  g ∈ FontEncoder.sorted_keys widths ↔ is_Some (widths !! g).
Proof.
  unfold FontEncoder.sorted_keys. rewrite merge_sort_Permutation.
  rewrite list_elem_of_fmap. split.
  - intros ([k w] & -> & Hkw). apply elem_of_map_to_list in Hkw. by eexists.
  - intros [w Hw]. exists (g, w). split; [done|]. by apply elem_of_map_to_list.
Qed.

Lemma w_pairs_elem (widths : gmap N Z) (default_width : Z) (g : N) (w : Z) :
  (g, w) ∈ FontEncoder.w_pairs widths default_width ↔
  widths !! g = Some w ∧ (w ≠ default_width ∨ g = 0).
Proof.
  unfold FontEncoder.w_pairs. rewrite list_elem_of_omap. split.
  - intros (k & Hk & Hf). destruct (widths !! k) as [wk|] eqn:Hwk; [|done].
    destruct (bool_decide (wk = default_width) && negb (k =? 0)) eqn:Hskip; [done|].
    simplify_eq. split; [done|].
    apply andb_false_iff in Hskip as [Hne|Hz].
    + left. by apply bool_decide_eq_false in Hne.
    + right. apply negb_false_iff in Hz. by apply N.eqb_eq in Hz.
  - intros [Hw Hkeep]. exists g. split; [apply sorted_keys_elem; by eexists|].
    rewrite Hw. destruct Hkeep as [Hne | ->].
    + by rewrite bool_decide_eq_false_2.
    + by rewrite N.eqb_refl, andb_false_r.
Qed.

(** C6, as amended.  On an encoder reached by any sequence of text calls
    (as it is in [build_pdf_objects] after a space has been registered for an
    encoder without characters), when [_widths_1000] returns: [widths] holds
    the per-mille width of exactly the used glyphs; the default width is the
    per-mille width of the space glyph when a space was registered,
    otherwise the per-mille width of glyph 0 when glyph 0 is used, and 600
    only when neither holds; and the pairs of the W array are those of the
    used glyphs with their per-mille width, without the glyphs other than
    glyph 0 whose width equals the default width. *)
Theorem embedded_widths (font : TrueTypeFont.t) (calls : list call)
    (widths : gmap N Z) :
  let self := run_calls calls (FontEncoder.__init__ font) in
  FontEncoder._widths_1000 self = Ok widths →
  let default_width := FontEncoder.default_width_of self widths in
  (∀ g, is_Some (widths !! g) ↔ g ∈ FontEncoder.used_glyphs self) ∧
  (∀ g w, widths !! g = Some w →
     ∃ units, TrueTypeFont.advance_widths font !! N.to_nat g = Some units ∧
              per_mille (TrueTypeFont.units_per_em font) (Z.of_N units) = Ok w) ∧
  (∀ g, FontEncoder.char_to_gid self !! FontEncoder.space_char = Some g →
     widths !! g = Some default_width) ∧
  (FontEncoder.char_to_gid self !! FontEncoder.space_char = None →
     0 ∈ FontEncoder.used_glyphs self → widths !! 0 = Some default_width) ∧
  (FontEncoder.char_to_gid self !! FontEncoder.space_char = None →
     0 ∉ FontEncoder.used_glyphs self → default_width = 600%Z) ∧
  (∀ g w, (g, w) ∈ FontEncoder.w_pairs widths default_width ↔
     widths !! g = Some w ∧ (w ≠ default_width ∨ g = 0)).
Proof.
  intros self H default_width.
  pose proof (tracked_run_calls font calls [] _ (tracked_init font)) as Htr.
  simpl in Htr. fold self in Htr.
  unfold FontEncoder._widths_1000 in H. rewrite (tracked_font _ _ _ Htr) in H.
  pose proof (widths_loop font _ ∅ widths H) as Hloop. clear H.
  assert (Hdom : ∀ g, is_Some (widths !! g) ↔ g ∈ FontEncoder.used_glyphs self).
  { intros g. destruct (Hloop g) as [Hd _]. rewrite Hd, lookup_empty.
    split; [intros [?|[? ?]]; done | by left]. }
  split; [done|]. split; [|split; [|split; [|split]]].
  - intros g w Hw. destruct (Hloop g) as [_ Hv].
    destruct (Hv w Hw) as [Hc|?]; [by rewrite lookup_empty in Hc | done].
  - intros g Hg. destruct (tracked_gid _ _ _ Htr _ _ Hg) as [_ Hused].
    apply Hdom in Hused as [w Hw].
    unfold default_width, FontEncoder.default_width_of. rewrite Hg. simpl.
    by rewrite Hw.
  - intros Hnone Hused. apply Hdom in Hused as [w Hw].
    unfold default_width, FontEncoder.default_width_of. rewrite Hnone. simpl.
    by rewrite Hw.
  - intros Hnone Hunused.
    unfold default_width, FontEncoder.default_width_of. rewrite Hnone. simpl.
    destruct (widths !! 0) as [w|] eqn:Hw; [|done].
    exfalso. apply Hunused, Hdom. by eexists.
  - intros g w. apply w_pairs_elem.
Qed.

(** In the sample font, after "A B" was measured and "Z" registered, the
    default width is 500 (the space is glyph 0), glyph 1 has the entry 600
    and glyph 0 keeps its entry although its width is the default. *)
Lemma embedded_widths_witness :
  let self := run_calls [MeasureText (lit "A B") 11.5%float; EnsureText (lit "Z")]
                (FontEncoder.__init__ (Fixture.parsed Fixture.sample_font)) in
  ∃ widths,
    FontEncoder._widths_1000 self = Ok widths ∧
    FontEncoder.default_width_of self widths = 500%Z ∧
    (1, 600%Z) ∈ FontEncoder.w_pairs widths 500 ∧
    (0, 500%Z) ∈ FontEncoder.w_pairs widths 500.
Proof.
  intros self. eexists. split; [vm_compute; reflexivity|].
  split; [vm_compute; reflexivity|].
  pose proof (embedded_widths (Fixture.parsed Fixture.sample_font)
                [MeasureText (lit "A B") 11.5%float; EnsureText (lit "Z")] _
                ltac:(vm_compute; reflexivity)) as H.
  cbv zeta in H. destruct H as (_ & _ & _ & _ & _ & Hw).
  split.
  - apply (proj2 (Hw 1 600%Z)). split; [vm_compute; reflexivity|]. left.
    replace (FontEncoder.default_width_of _ _) with 500%Z by (vm_compute; reflexivity).
    discriminate.
  - apply (proj2 (Hw 0 500%Z)). split; [vm_compute; reflexivity|]. by right.
Defined.

(** C6 as stated fails in its first part: after only "Z" (a character
    without glyph, so glyph 0 of width 500) was registered, the space was
    never measured, yet the default width is 500 and not 600; the descendant
    font object written by [build_pdf_objects] says [/DW 500]. *)
Lemma embedded_widths_counterexample :
  let self := run_calls [EnsureText (lit "Z")]
                (FontEncoder.__init__ (Fixture.parsed Fixture.sample_font)) in
  let outcome :=
    FontEncoder.build_pdf_objects (fun data => data) (fun _ => lit "0.0")
      (self, PDFDocument.World [] PDFDocument.__init__) in
  FontEncoder.char_to_gid self !! FontEncoder.space_char = None ∧
  (∃ widths, FontEncoder._widths_1000 self = Ok widths ∧
     FontEncoder.default_width_of self widths = 500%Z ∧
     FontEncoder.default_width_of self widths ≠ 600%Z) ∧
  outcome.1 = Ok 6%nat ∧
  FontEncoder.char_to_gid outcome.2.1 !! FontEncoder.space_char = None ∧
  PDFDocument.objects (PDFDocument.self outcome.2.2) !! 4%nat
  = Some (blit "<< /Type /Font /Subtype /CIDFontType2 /BaseFont /DejaVuSans /CIDSystemInfo << /Registry (Adobe) /Ordering (Identity) /Supplement 0 >> /FontDescriptor 4 0 R /DW 500 /W [0 500] /CIDToGIDMap 1 0 R >>").
Proof.
  intros self outcome. split; [vm_compute; reflexivity|]. split.
  { eexists. split; [vm_compute; reflexivity|]. split; [vm_compute; reflexivity|].
    vm_compute. discriminate. }
  split; [vm_compute; reflexivity|]. split; vm_compute; reflexivity.
Qed.

(** ** Frames of [add_object] and [add_stream] *)

Section AddMethods.
Import PDFDocument.


Lemma insert_snoc {A} (h : list A) (x y : A) : <[length h := x]> (h ++ [y]) = h ++ [x].
Proof. rewrite insert_app_r_alt by lia. by rewrite Nat.sub_diag. Qed.

Lemma lookup_snoc {A} (h : list A) (x : A) : (h ++ [x]) !! length h = Some x.
Proof. rewrite lookup_app_r by lia. by rewrite Nat.sub_diag. Qed.

(** C10.  [add_stream] leaves the dictionary it is handed, and every
    other dictionary alive, unchanged: the stream object is built from a copy
    that receives [Filter] (when compressing) and [Length].  Both
    [add_stream] and [add_object] only append to the object list: the
    objects inserted before keep their bytes and their position, hence their
    number, and the new object gets the next number. *)
Theorem add_methods_frame (zlib_compress : bytes → bytes) (w : world)
    (dictionary : ref) (data : bytes) (compress : bool) :
  let d := dict_at w dictionary in
  let data' := if compress then zlib_compress data else data in
  let d' :=
    setitem (lit "Length") (str_N (N.of_nat (length data')))
      (if compress then setitem (lit "Filter") (lit "/FlateDecode") d else d) in
  appends_object w (add_stream zlib_compress dictionary data compress w)
    (stream_object d' data') ∧
  appends_object w (add_object dictionary w) (encode_utf8 (dict_text d)).
Proof.
  intros d data' d'. split.
  - unfold add_stream, appends_object, stream_object, mbind, M_mbind, M_bind,
      dict_copy, dict_setitem, deref, lift, objects_append, objects_len, mret,
      M_mret, M_ret.
    subst d' data' d. unfold dict_at. destruct w as [h doc].
    destruct compress; cbn [heap self fst snd].
    + repeat (first [rewrite lookup_snoc | rewrite insert_snoc];
              cbn [default from_option id]).
      destruct (encode_utf8 _) as [header|e];
        cbn [result_bind mbind result_mbind heap self objects trailer_extra fst snd].
      * split; [|split; [done|split]].
        -- intros r x Hr. by do 2 apply lookup_app_l_Some.
        -- intros i b Hb. by apply lookup_app_l_Some.
        -- split; [|done]. rewrite length_app. simpl. f_equal. lia.
      * split; [|done]. intros r x Hr. by do 2 apply lookup_app_l_Some.
    + repeat (first [rewrite lookup_snoc | rewrite insert_snoc];
              cbn [default from_option id]).
      destruct (encode_utf8 _) as [header|e];
        cbn [result_bind mbind result_mbind heap self objects trailer_extra fst snd].
      * split; [|split; [done|split]].
        -- intros r x Hr. by apply lookup_app_l_Some.
        -- intros i b Hb. by apply lookup_app_l_Some.
        -- split; [|done]. rewrite length_app. simpl. f_equal. lia.
      * split; [|done]. intros r x Hr. by apply lookup_app_l_Some.
  - unfold add_object, appends_object, mbind, M_mbind, M_bind,
      deref, lift, objects_append, objects_len.
    subst d. unfold dict_at. destruct w as [h doc]. cbn [heap self fst snd].
    destruct (encode_utf8 _) as [obj|e]; cbn [heap self objects trailer_extra fst snd].
    + split; [done|]. split; [done|]. split.
      * intros i b Hb. by apply lookup_app_l_Some.
      * split; [|done]. rewrite length_app. simpl. f_equal. lia.
    + done.
Qed.

End AddMethods.

(** ** Offsets of the cross-reference section *)


(** *** Decimal numerals *)

Lemma read_uint_chars (u : Decimal.uint) (rest : bytes) :
  match rest with
  | [] => True
  | c :: _ => digit_of_byte c = None
  end →
  read_uint (ascii_bytes (uint_chars u) ++ rest) = (u, rest).
Proof.
  intros Hrest. induction u as [|u IH|u IH|u IH|u IH|u IH|u IH|u IH|u IH|u IH|u IH];
    try (cbn [uint_chars ascii_bytes map app]; change (byte_of_N _) with x30 ||
         change (byte_of_N _) with x31 || change (byte_of_N _) with x32 ||
         change (byte_of_N _) with x33 || change (byte_of_N _) with x34 ||
         change (byte_of_N _) with x35 || change (byte_of_N _) with x36 ||
         change (byte_of_N _) with x37 || change (byte_of_N _) with x38 ||
         change (byte_of_N _) with x39;
         cbn [read_uint digit_of_byte]; fold (ascii_bytes (uint_chars u));
         by rewrite IH).
  simpl. destruct rest as [|c rest]; [done|]. simpl. by rewrite Hrest.
Qed.

Lemma uint_chars_zeros (k : nat) (u : Decimal.uint) :
  replicate k 48 ++ uint_chars u = uint_chars (Nat.iter k Decimal.D0 u).
Proof. induction k as [|k IH]; simpl; [done|]. by rewrite IH. Qed.

Lemma of_uint_zeros (k : nat) (u : Decimal.uint) :
  N.of_uint (Nat.iter k Decimal.D0 u) = N.of_uint u.
Proof. induction k as [|k IH]; simpl; [done|]. exact IH. Qed.

Lemma to_uint_not_Nil (n : N) : N.to_uint n ≠ Decimal.Nil.
Proof.
  intros H. pose proof (DecimalN.Unsigned.of_to n) as Hn. rewrite H in Hn.
  simpl in Hn. subst n. discriminate H.
Qed.

Lemma iter_D0_not_Nil (k : nat) (u : Decimal.uint) :
  u ≠ Decimal.Nil → Nat.iter k Decimal.D0 u ≠ Decimal.Nil.
Proof. intros Hu. destruct k; simpl; [done|]. discriminate. Qed.

Lemma read_number_padded (k : nat) (n : N) (rest : bytes) :
  match rest with
  | [] => True
  | c :: _ => digit_of_byte c = None
  end →
  read_number (ascii_bytes (replicate k 48 ++ str_N n) ++ rest) = Some (n, rest).
Proof.
  intros Hrest. unfold read_number, str_N. rewrite uint_chars_zeros.
  rewrite read_uint_chars by done.
  pose proof (iter_D0_not_Nil k _ (to_uint_not_Nil n)) as Hnil.
  assert (Hval : N.of_uint (Nat.iter k Decimal.D0 (N.to_uint n)) = n)
    by (by rewrite of_uint_zeros, DecimalN.Unsigned.of_to).
  destruct (Nat.iter k Decimal.D0 (N.to_uint n)); by rewrite ?Hval.
Qed.

Lemma read_number_str (n : N) (rest : bytes) :
  match rest with
  | [] => True
  | c :: _ => digit_of_byte c = None
  end →
  read_number (ascii_bytes (str_N n) ++ rest) = Some (n, rest).
Proof. apply (read_number_padded 0). Qed.

Lemma read_number_fmt (n : N) (rest : bytes) :
  match rest with
  | [] => True
  | c :: _ => digit_of_byte c = None
  end →
  read_number (ascii_bytes (fmt_010d n) ++ rest) = Some (n, rest).
Proof. apply read_number_padded. Qed.

Lemma expect_app (keyword rest : bytes) : expect keyword (keyword ++ rest) = Some rest.
Proof.
  unfold expect. rewrite take_app_length, drop_app_length. by rewrite decide_True.
Qed.

(** *** ASCII strings *)

Lemma encode_ascii_Ok (s : pystr) :
  Forall (fun c => c < 128) s → encode_ascii s = Ok (ascii_bytes s).
Proof.
  intros H. unfold encode_ascii.
  rewrite (proj2 (forallb_forall _ _)); [done|].
  intros c Hc. apply N.ltb_lt. rewrite Forall_forall in H. apply H.
  by apply list_elem_of_In.
Qed.

Lemma uint_chars_ascii (u : Decimal.uint) : Forall (fun c => c < 128) (uint_chars u).
Proof. induction u; simpl; constructor; (lia || done). Qed.

Lemma str_N_ascii (n : N) : Forall (fun c => c < 128) (str_N n).
Proof. apply uint_chars_ascii. Qed.

Lemma fmt_010d_ascii (n : N) : Forall (fun c => c < 128) (fmt_010d n).
Proof.
  unfold fmt_010d, zfill. apply Forall_app. split; [|apply str_N_ascii].
  apply Forall_replicate. lia.
Qed.

Lemma lit_ascii (s : string) :
  forallb (fun c => c <? 128) (lit s) = true → Forall (fun c => c < 128) (lit s).
Proof.
  intros H. apply Forall_forall. intros c Hc.
  apply N.ltb_lt. rewrite forallb_forall in H. apply H. by apply list_elem_of_In.
Qed.

Lemma ascii_bytes_app (s1 s2 : pystr) :
  ascii_bytes (s1 ++ s2) = ascii_bytes s1 ++ ascii_bytes s2.
Proof. apply map_app. Qed.


Section Writer.
Import PDFDocument.

Lemma obj_marker_ascii (index : N) : Forall (fun c => c < 128) (obj_marker index).
Proof.
  unfold obj_marker. apply Forall_app. split; [apply str_N_ascii|].
  apply Forall_app. split; [by apply lit_ascii|]. constructor; [lia | constructor].
Qed.

Lemma xref_record_ascii (offset : N) : Forall (fun c => c < 128) (xref_record offset).
Proof.
  unfold xref_record. apply Forall_app. split; [apply fmt_010d_ascii|].
  apply Forall_app. split; [by apply lit_ascii|]. constructor; [lia | constructor].
Qed.

Lemma write_objects_spec (objs : list bytes) (index : N) (offsets : list N) (fh : bytes) :
  write_objects objs index offsets fh
  = (Ok (offsets ++ body_offsets (length fh) index objs), fh ++ body_bytes index objs).
Proof.
  revert index offsets fh. induction objs as [|obj objs IH]; intros index offsets fh.
  - simpl. by rewrite !app_nil_r.
  - cbn [write_objects body_offsets body_bytes].
    unfold mbind, M_mbind, M_bind, fh_tell, fh_write, lift.
    rewrite encode_ascii_Ok by apply obj_marker_ascii.
    rewrite IH. f_equal.
    + f_equal. rewrite <- app_assoc. f_equal. cbn [app]. f_equal. f_equal.
      unfold object_bytes. rewrite !length_app. simpl. lia.
    + unfold object_bytes. by rewrite <- !app_assoc.
Qed.

Lemma write_xref_records_spec (offsets : list N) (fh : bytes) :
  write_xref_records offsets fh = (Ok tt, fh ++ xref_records offsets).
Proof.
  unfold write_xref_records, xref_records. revert fh.
  induction offsets as [|offset offsets IH]; intros fh.
  - simpl. by rewrite app_nil_r.
  - cbn [for_ map concat]. unfold mbind, M_mbind, M_bind, fh_write, lift.
    rewrite encode_ascii_Ok by apply xref_record_ascii.
    rewrite IH. by rewrite <- app_assoc.
Qed.

Lemma body_offsets_length (start : nat) (index : N) (objs : list bytes) :
  length (body_offsets start index objs) = length objs.
Proof.
  revert start index. induction objs as [|obj objs IH]; intros start index; simpl;
    [done|]. by rewrite IH.
Qed.

(** Each recorded offset is where the marker of its object starts. *)
Lemma body_offsets_marker (start : nat) (index : N) (objs : list bytes)
    (before after : bytes) (i : nat) (offset : N) :
  length before = start →
  body_offsets start index objs !! i = Some offset →
  at_position (before ++ body_bytes index objs ++ after) offset
    (ascii_bytes (obj_marker (index + N.of_nat i))).
Proof.
  revert start index before i.
  induction objs as [|obj objs IH]; intros start index before i Hlen Hi; [done|].
  cbn [body_offsets body_bytes] in *. destruct i as [|i]; simpl in Hi.
  - simplify_eq. unfold at_position. rewrite Nat2N.id, drop_app_length.
    rewrite N.add_0_r. unfold object_bytes. rewrite <- !app_assoc.
    by rewrite take_app_length.
  - replace (index + N.of_nat (S i)) with (index + 1 + N.of_nat i) by lia.
    rewrite <- (app_assoc (object_bytes index obj)), (app_assoc before).
    apply (IH (start + length (object_bytes index obj))%nat); [|done].
    rewrite length_app. lia.
Qed.

Lemma read_xref_entries_records (offsets : list N) (rest : bytes) :
  read_xref_entries (length offsets) (xref_records offsets ++ rest) = Some offsets.
Proof.
  unfold xref_records. induction offsets as [|offset offsets IH]; [done|].
  cbn [length map concat read_xref_entries].
  unfold xref_record at 1. rewrite !ascii_bytes_app, <- !app_assoc.
  rewrite read_number_fmt by done.
  cbn [mbind option_bind].
  change (ascii_bytes (lit " 00000 n ") ++ ascii_bytes [10] ++ ?x)
    with ((blit " 00000 n " ++ [x0a]) ++ x).
  rewrite expect_app. cbn [mbind option_bind]. rewrite IH. done.
Qed.
End Writer.

Section WriterMain.
Import PDFDocument.

Lemma str_Z_ascii (z : Z) : Forall (fun c => c < 128) (str_Z z).
Proof.
  unfold str_Z. destruct (z <? 0)%Z; [|apply str_N_ascii].
  constructor; [lia | apply str_N_ascii].
Qed.

(** Every character of a string built from literals and numerals is
    ASCII. *)
Ltac ascii_solve :=
  repeat match goal with
  | |- Forall _ (lit _) => by apply lit_ascii
  | |- Forall _ (str_N _) => apply str_N_ascii
  | |- Forall _ (str_Z _) => apply str_Z_ascii
  | |- Forall _ (_ ++ _) => apply Forall_app; split
  | |- Forall _ (_ :: _) => constructor; [lia|]
  | |- Forall _ [] => constructor
  end.

Lemma encode_ascii_inv (s : pystr) (b : bytes) :
  encode_ascii s = Ok b → b = ascii_bytes s.
Proof. unfold encode_ascii. destruct (forallb _ s); intros H; by simplify_eq. Qed.

Lemma join_five {A} (sep a b c d e : list A) :
  join sep [a; b; c; d; e] = (a ++ sep ++ b ++ sep) ++ (c ++ sep ++ d ++ sep ++ e).
Proof. cbn [join]. by rewrite <- !app_assoc. Qed.

(** The trailer ends with the [startxref] keyword, the position and the
    end-of-file marker. *)
Lemma trailer_text_end (doc : t) (root_object : Z) (xref_position : N) :
  ∃ before,
    trailer_text doc root_object xref_position
    = before ++ (lit "startxref" ++ [10] ++ str_N xref_position ++ [10] ++ lit "%%EOF").
Proof. eexists. unfold trailer_text. cbv zeta. apply join_five. Qed.

(** The bytes [write] has emitted once the cross-reference records are
    written, and the position of the section. *)
Lemma write_unfold (doc : t) (root_object : Z) :
  let pre := pdf_header ++ body_bytes 1 (objects doc) in
  let xref_position := N.of_nat (length pre) in
  let offsets := body_offsets (length pdf_header) 1 (objects doc) in
  let section :=
    ascii_bytes (lit "xref" ++ [10] ++ lit "0 "
                 ++ str_N (N.of_nat (length (objects doc)) + 1) ++ [10])
    ++ (blit "0000000000 65535 f " ++ [x0a]) ++ xref_records offsets in
  write doc root_object []
  = match encode_ascii (trailer_text doc root_object xref_position) with
    | Ok trailer => (Ok tt, pre ++ section ++ trailer)
    | Raise e => (Raise e, pre ++ section)
    end.
Proof.
  intros pre xref_position offsets section.
  unfold write, mbind, M_mbind, M_bind, fh_write at 1, fh_tell, lift.
  cbn [app]. rewrite write_objects_spec. fold pre. fold xref_position.
  cbn [app drop].
  rewrite encode_ascii_Ok.
  2: { ascii_solve. }
  unfold fh_write at 1 2. rewrite write_xref_records_spec.
  fold offsets. subst section.
  destruct (encode_ascii (trailer_text doc root_object xref_position)) as [trailer|e].
  - unfold fh_write. by rewrite <- !app_assoc.
  - by rewrite <- !app_assoc.
Qed.

(** C1.  For every document, in the bytes [write] emits: the
    cross-reference section found at the position [write] names after
    [startxref] reads back as one offset per object, in the order of the
    object numbers 1 to the object count, and at each of these offsets the
    output holds that object's header line ["<id> 0 obj\n"].  For a document
    built with [add_object] and [add_stream] alone (no trailer entries),
    [write] returns and the output ends with [startxref], that position and
    the end-of-file marker. *)
Theorem write_offsets (doc : t) (root_object : Z) :
  let out := (write doc root_object []).2 in
  ∃ (xref_position : N) (offsets : list N),
    read_xref (drop (N.to_nat xref_position) out) = Some offsets ∧
    length offsets = length (objects doc) ∧
    (∀ i offset, offsets !! i = Some offset →
       at_position out offset (ascii_bytes (obj_marker (N.of_nat i + 1)))) ∧
    (trailer_extra doc = [] →
       (write doc root_object []).1 = Ok tt ∧
       ∃ before,
         out = before
               ++ ascii_bytes (lit "startxref" ++ [10] ++ str_N xref_position
                               ++ [10] ++ lit "%%EOF")).
Proof.
  intros out. subst out. rewrite write_unfold. cbv zeta.
  set (pre := pdf_header ++ body_bytes 1 (objects doc)).
  set (offsets := body_offsets (length pdf_header) 1 (objects doc)).
  set (xref_position := N.of_nat (length pre)).
  set (section := ascii_bytes (lit "xref" ++ [10] ++ lit "0 "
                               ++ str_N (N.of_nat (length (objects doc)) + 1) ++ [10])
                  ++ (blit "0000000000 65535 f " ++ [x0a]) ++ xref_records offsets).
  exists xref_position, offsets.
  assert (Hread : ∀ tail,
    read_xref (drop (N.to_nat xref_position) (pre ++ section ++ tail)) = Some offsets).
  { intros tail. unfold xref_position, section.
    rewrite Nat2N.id, drop_app_length.
    unfold read_xref. rewrite !ascii_bytes_app, <- !app_assoc.
    change (ascii_bytes (lit "xref") ++ ascii_bytes [10] ++ ascii_bytes (lit "0 ") ++ ?x)
      with ((blit "xref" ++ [x0a] ++ blit "0 ") ++ x).
    rewrite expect_app. cbn [mbind option_bind].
    rewrite read_number_str by done. cbn [mbind option_bind].
    change (ascii_bytes [10] ++ ?x) with ([x0a] ++ x).
    rewrite expect_app. cbn [mbind option_bind].
    rewrite (app_assoc (blit "0000000000 65535 f ")).
    rewrite expect_app. cbn [mbind option_bind].
    replace (N.to_nat (N.of_nat (length (objects doc)) + 1) - 1)%nat
      with (length offsets)
      by (unfold offsets; rewrite body_offsets_length; lia).
    apply read_xref_entries_records. }
  assert (Hmark : ∀ tail i offset, offsets !! i = Some offset →
    at_position (pre ++ section ++ tail) offset
      (ascii_bytes (obj_marker (N.of_nat i + 1)))).
  { intros tail i offset Hi. unfold pre. rewrite <- (app_assoc pdf_header).
    rewrite (N.add_comm (N.of_nat i) 1).
    by apply (body_offsets_marker (length pdf_header)). }
  destruct (encode_ascii (trailer_text doc root_object xref_position))
    as [trailer|e] eqn:Htrailer; cbn [fst snd].
  - split; [apply Hread|].
    split; [apply body_offsets_length|].
    split; [intros i offset Hi; by apply Hmark|].
    intros Hextra. split; [done|].
    apply encode_ascii_inv in Htrailer as ->.
    destruct (trailer_text_end doc root_object xref_position) as [before ->].
    exists (pre ++ section ++ ascii_bytes before).
    by rewrite (ascii_bytes_app before), <- !app_assoc.
  - rewrite <- (app_nil_r section).
    split; [apply Hread|].
    split; [apply body_offsets_length|].
    split; [intros i offset Hi; by apply Hmark|].
    intros Hextra. exfalso.
    unfold trailer_text in Htrailer. rewrite Hextra in Htrailer.
    cbn [map app join] in Htrailer.
    rewrite encode_ascii_Ok in Htrailer; [done|]. ascii_solve.
Qed.

(** The document with a catalog and one stream: the section reads back
    the offsets 15 and 51. *)
Example write_offsets_example :
  let doc := mk [blit "<< /Type /Catalog >>";
                 join [x0a] [blit "<< /Length 5 >>"; blit "stream"; blit "hello";
                             blit "endstream"]] [] in
  (write doc 1 []).1 = Ok tt ∧
  read_xref (drop 105 (write doc 1 []).2) = Some [15; 51].
Proof. split; vm_compute; reflexivity. Qed.

End WriterMain.

(** * Further properties of the parser *)

(** ** Field ranges *)

Lemma be_bound_from (b : bytes) (acc : N) :
  fold_left (fun acc x => 256 * acc + Byte.to_N x) b acc
  < (acc + 1) * 256 ^ N.of_nat (length b).
Proof.
  revert acc. induction b as [|x b IH]; intros acc.
  - simpl. lia.
  - cbn [fold_left length]. specialize (IH (256 * acc + Byte.to_N x)).
    pose proof (Byte.to_N_bounded x) as Hx.
    rewrite Nat2N.inj_succ, N.pow_succ_r'.
    eapply N.lt_le_trans; [exact IH|].
    rewrite (N.mul_comm 256 (256 ^ _)), N.mul_assoc.
    rewrite (N.mul_comm _ 256), N.mul_assoc.
    apply N.mul_le_mono_r. lia.
Qed.

Lemma be_bound (b : bytes) : Struct.be b < 256 ^ N.of_nat (length b).
Proof.
  pose proof (be_bound_from b 0) as H. unfold Struct.be. by rewrite N.mul_1_l in H.
Qed.

Lemma fH_bound (pos : nat) (b : bytes) : Struct.fH pos b < 65536.
Proof.
  unfold Struct.fH. eapply N.lt_le_trans; [apply be_bound|].
  change 65536 with (256 ^ 2). apply N.pow_le_mono_r; [done|].
  rewrite slice_length. lia.
Qed.

Lemma fI_slice (i j p : nat) (b : bytes) :
  (p + 4 ≤ j - i)%nat → Struct.fI p (slice i j b) = Struct.fI (i + p) b.
Proof.
  intros H. unfold Struct.fI. rewrite slice_slice by lia.
  by rewrite Nat.add_assoc.
Qed.

(** ** post and OS/2 *)

(** X1.  [_parse_post] on a font without post table returns the angle 0;
    on a font with a post table of at least eight bytes it returns the signed
    32 bit integer at offset 4 divided by 65536; a shorter post table raises
    [struct.error].  It never raises [KeyError]. *)
Theorem parse_post_eq (data : bytes) (tables : gmap pystr (N * N)) :
  TrueTypeFont._parse_post data tables
  = match tables !! lit "post" with
    | None => Ok 0%Q
    | Some entry =>
        let table := TrueTypeFont.table_bytes data entry in
        if decide (8 ≤ length table)%nat
        then Ok (inject_Z (Struct.fl 4 table) / 65536)%Q
        else Raise StructError
    end.
Proof.
  unfold TrueTypeFont._parse_post.
  destruct (tables !! lit "post") as [entry|]; [|done].
  cbv zeta. generalize (TrueTypeFont.table_bytes data entry). intros table.
  unfold Struct.unpack_l. rewrite check_size_slice by (done || lia).
  destruct (decide (8 ≤ length table)%nat) as [Hle|Hgt];
    cbn [mbind result_mbind result_bind]; [|done].
  unfold Struct.fl. by rewrite fI_slice by lia.
Qed.

Lemma parse_os2_eq (data : bytes) (tables : gmap pystr (N * N)) :
  TrueTypeFont._parse_os2 data tables
  = match tables !! lit "OS/2" with
    | None => Raise (KeyError (lit "OS/2"))
    | Some entry =>
        let table := TrueTypeFont.table_bytes data entry in
        if decide (72 ≤ length table)%nat then
          if (2 <=? Struct.fH 0 table) && Nat.leb 88 (length table) then
            if decide (90 ≤ length table)%nat
            then Ok (Struct.fh 68 table, Struct.fh 70 table, Struct.fh 88 table)
            else Raise StructError
          else Ok (Struct.fh 68 table, Struct.fh 70 table, Struct.fh 68 table)
        else Raise StructError
    end.
Proof.
  unfold TrueTypeFont._parse_os2, getitem.
  destruct (tables !! lit "OS/2") as [entry|]; [|done].
  cbn [mbind result_mbind result_bind].
  cbv zeta. generalize (TrueTypeFont.table_bytes data entry). intros table.
  unfold Struct.unpack_H, Struct.unpack_h.
  rewrite !check_size_slice by (done || lia).
  destruct (decide (72 ≤ length table)%nat) as [H72|H72];
    destruct (decide (2 ≤ length table)%nat) as [H2|H2];
    destruct (decide (70 ≤ length table)%nat) as [H70|H70];
    cbn [mbind result_mbind result_bind]; try done; try lia.
  rewrite fH_slice, !fh_slice by lia. cbn [Nat.add].
  destruct ((2 <=? Struct.fH 0 table) && Nat.leb 88 (length table)); [|done].
  destruct (decide (90 ≤ length table)%nat) as [H90|H90];
    cbn [mbind result_mbind result_bind]; done.
Qed.

(** X2.  When [_parse_os2] returns and the table's version is below 2, or
    the table is shorter than 88 bytes, the cap height it returns is the
    typographic ascender. *)
Theorem parse_os2_cap_height_fallback (data : bytes) (tables : gmap pystr (N * N))
    (entry : N * N) (asc desc cap : Z) :
  tables !! lit "OS/2" = Some entry →
  Struct.fH 0 (TrueTypeFont.table_bytes data entry) < 2 ∨
    (length (TrueTypeFont.table_bytes data entry) < 88)%nat →
  TrueTypeFont._parse_os2 data tables = Ok (asc, desc, cap) →
  cap = asc.
Proof.
  intros Hentry Hold. rewrite parse_os2_eq, Hentry. cbv zeta.
  destruct (decide (72 ≤ _)%nat); [|done].
  replace ((2 <=? _) && Nat.leb 88 _) with false.
  - intros H. by simplify_eq.
  - symmetry. apply andb_false_iff. destruct Hold as [Hv|Hl].
    + left. by apply N.leb_gt.
    + right. apply Nat.leb_gt. lia.
Qed.

(** A version 1 table of 90 bytes: the field at offset 88 is not read. *)
Lemma parse_os2_cap_height_fallback_witness :
  let data := Fixture.os2_table 1 800 (-200) 700 in
  let tables : gmap pystr (N * N) := {[ lit "OS/2" := (0, 90) ]} in
  ∃ asc desc cap,
    TrueTypeFont._parse_os2 data tables = Ok (asc, desc, cap) ∧ cap = asc.
Proof.
  intros data tables. exists 800%Z, (-200)%Z, 800%Z.
  split; [vm_compute; reflexivity|].
  apply (parse_os2_cap_height_fallback data tables (0, 90) 800 (-200) 800).
  - vm_compute. reflexivity.
  - left. vm_compute. reflexivity.
  - vm_compute. reflexivity.
Defined.

(** X3.  The guard [len(table) >= 88] of [_parse_os2] lets a version 2
    table of 88 or 89 bytes through, although the cap height occupies the
    bytes 88 and 89: on such a table the method raises [struct.error]. *)
Theorem parse_os2_guard_gap (data : bytes) (tables : gmap pystr (N * N))
    (entry : N * N) :
  tables !! lit "OS/2" = Some entry →
  2 ≤ Struct.fH 0 (TrueTypeFont.table_bytes data entry) →
  (88 ≤ length (TrueTypeFont.table_bytes data entry) < 90)%nat →
  TrueTypeFont._parse_os2 data tables = Raise StructError.
Proof.
  intros Hentry Hv Hl. rewrite parse_os2_eq, Hentry. cbv zeta.
  rewrite decide_True by lia.
  replace ((2 <=? _) && Nat.leb 88 _) with true.
  - by rewrite decide_False by lia.
  - symmetry. apply andb_true_iff. split; [by apply N.leb_le | apply Nat.leb_le; lia].
Qed.

Lemma parse_os2_guard_gap_witness :
  TrueTypeFont._parse_os2 (Fixture.u16 2 ++ Fixture.zeros 86) {[ lit "OS/2" := (0, 88) ]}
  = Raise StructError.
Proof.
  apply (parse_os2_guard_gap _ _ (0, 88)).
  - vm_compute. reflexivity.
  - vm_compute. discriminate.
  - vm_compute. lia.
Defined.

(** ** hmtx without long metrics *)

(** X4.  With [numHMetrics = 0] and at least one glyph, [_parse_hmtx]
    reads no metric and then evaluates [widths[-1]] on the empty list: it
    raises [IndexError], whatever the hmtx table holds. *)
Theorem parse_hmtx_no_long_metrics (data : bytes) (tables : gmap pystr (N * N))
    (num_glyphs : N) :
  is_Some (tables !! lit "hmtx") →
  0 < num_glyphs →
  TrueTypeFont._parse_hmtx data tables 0 num_glyphs = Raise IndexError.
Proof.
  intros [entry Hentry] Hpos. unfold TrueTypeFont._parse_hmtx, getitem.
  rewrite Hentry. cbn [mbind result_mbind result_bind]. cbv zeta.
  cbn [N.to_nat TrueTypeFont.hmtx_loop result_bind].
  by rewrite (proj2 (N.ltb_lt 0 num_glyphs) Hpos).
Qed.

Lemma parse_hmtx_no_long_metrics_witness :
  TrueTypeFont._parse_hmtx (Fixture.hmtx_table [500]) {[ lit "hmtx" := (0, 4) ]} 0 1
  = Raise IndexError.
Proof.
  apply parse_hmtx_no_long_metrics.
  - eexists. vm_compute. reflexivity.
  - lia.
Defined.

(** ** Ranges of the character maps *)

(** Where an entry of the map a loop builds comes from. *)
Lemma for_each_origin {A} (body : gmap N N → A → result (gmap N N))
    (assign : A → N → option N) (k : N) :
  (∀ m x m', body m x = Ok m' →
     m' !! k = match assign x k with Some g => Some g | None => m !! k end) →
  ∀ xs m m' g, for_each body xs m = Ok m' → m' !! k = Some g →
    m !! k = Some g ∨ ∃ x, x ∈ xs ∧ assign x k = Some g.
Proof.
  intros Hbody. induction xs as [|x xs IH]; intros m m' g H Hg; simpl in H.
  - simplify_eq. by left.
  - inv_bind H as m1 Hm1. destruct (IH m1 m' g H Hg) as [H1 | (y & Hy & Hay)].
    + rewrite (Hbody _ _ _ Hm1) in H1.
      destruct (assign x k) as [g'|] eqn:Hax.
      * right. exists x. split; [apply elem_of_cons; by left|]. by rewrite Hax.
      * by left.
    + right. exists y. split; [apply elem_of_cons; by right | done].
Qed.

Lemma land_0xFFFF_bound (z : Z) : Z.to_N (Z.land z 0xFFFF) < 65536.
Proof.
  rewrite land_0xFFFF. pose proof (Z.mod_pos_bound z (2 ^ 16) ltac:(lia)). lia.
Qed.

(** X5.  A format 4 subtable maps only code points of the Basic
    Multilingual Plane, and only to 16 bit glyph ids: every key and every
    value of the map [_parse_cmap_format4] returns is below 65536. *)
Theorem cmap_format4_16bit (data : bytes) (offset : N) (cmap : gmap N N)
    (code glyph : N) :
  TrueTypeFont._parse_cmap_format4 data offset = Ok cmap →
  cmap !! code = Some glyph →
  code < 65536 ∧ glyph < 65536.
Proof.
  intros H Hcode. apply parse_cmap_format4_Ok in H as (body & Hloop & Hbody).
  destruct (for_each_origin body (format4_assign_at data offset) code
              (fun m x m' => Hbody code m x m') _ _ _ _ Hloop Hcode)
    as [Hempty | (i & _ & Hi)]; [done|].
  unfold format4_assign_at in Hi.
  destruct (format4_segments data offset !! i) as [[[[start end_] delta] ro]|] eqn:Hseg;
    [|done].
  assert (Hend : end_ < 65536).
  { unfold format4_segments in Hseg. cbv zeta in Hseg.
    apply lookup_map_seq in Hseg as [_ Hseg]. simplify_eq. apply fH_bound. }
  unfold format4_assign in Hi.
  destruct ((start <=? code) && (code <=? end_)) eqn:Hin; [|done].
  apply andb_true_iff in Hin as [_ Hle]. apply N.leb_le in Hle.
  split; [lia|].
  destruct (ro =? 0).
  - simplify_eq. apply land_0xFFFF_bound.
  - destruct (_ <=? _); [done|]. simplify_eq.
    destruct (_ =? 0); [lia | apply land_0xFFFF_bound].
Qed.

Lemma cmap_format4_16bit_witness :
  ∃ cmap,
    TrueTypeFont._parse_cmap_format4 Fixture.latin_subtable 0 = Ok cmap ∧
    cmap !! 0x42 = Some 0x42 ∧ 0x42 < 65536 ∧ 0x42 < 65536.
Proof.
  eexists. split; [vm_compute; reflexivity|]. split; [vm_compute; reflexivity|].
  refine (cmap_format4_16bit Fixture.latin_subtable 0 _ 0x42 0x42 _ _).
  - vm_compute. reflexivity.
  - vm_compute. reflexivity.
Defined.

Lemma apply_groups_origin (groups : list (N * N * N)) (m : gmap N N) (code : N) :
  is_Some (apply_groups groups m !! code) ↔
  is_Some (m !! code) ∨
  ∃ j s e g, groups !! j = Some (s, e, g) ∧ s ≤ code ≤ e.
Proof.
  revert m. induction groups as [|[[s0 e0] g0] groups IH]; intros m.
  - unfold apply_groups. simpl. split; [by left|].
    intros [?|(j & s & e & g & Hj & _)]; done.
  - unfold apply_groups. simpl. fold (apply_groups groups).
    rewrite IH. rewrite format12_group_lookup. split.
    + intros [Hm | (j & s & e & g & Hj & Hin)].
      * destruct (decide (s0 ≤ code ≤ e0)) as [Hin|Hout]; [|by left].
        right. by exists 0%nat, s0, e0, g0.
      * right. by exists (S j), s, e, g.
    + intros [Hm | (j & s & e & g & Hj & Hin)].
      * left. by destruct (decide (s0 ≤ code ≤ e0)).
      * destruct j as [|j]; simpl in Hj.
        -- simplify_eq. left. by rewrite decide_True.
        -- right. by exists j, s, e, g.
Qed.

(** X6.  The map of a format 12 subtable has an entry for a code point
    exactly when some group of the subtable covers it. *)
Theorem cmap_format12_domain (data : bytes) (offset : N) (cmap : gmap N N) (code : N) :
  TrueTypeFont._parse_cmap_format12 data offset = Ok cmap →
  is_Some (cmap !! code) ↔
  ∃ j start_char end_char start_glyph,
    format12_groups data offset !! j = Some (start_char, end_char, start_glyph) ∧
    start_char ≤ code ≤ end_char.
Proof.
  intros H. apply parse_cmap_format12_Ok in H as ->.
  rewrite apply_groups_origin, lookup_empty. split.
  - intros [[? ?]|?]; done.
  - by right.
Qed.

Lemma cmap_format12_domain_witness :
  ∃ cmap,
    TrueTypeFont._parse_cmap_format12
      (Fixture.format12_subtable [(0x10000, 0x10002, 500)]) 0 = Ok cmap ∧
    cmap !! 0x10003 = None.
Proof.
  eexists. split; [vm_compute; reflexivity|].
  apply eq_None_not_Some.
  rewrite (cmap_format12_domain (Fixture.format12_subtable [(0x10000, 0x10002, 500)]) 0
             _ 0x10003 ltac:(vm_compute; reflexivity)).
  intros (j & s & e & g & Hj & Hin).
  destruct j as [|[|j]]; vm_compute in Hj; [|done|done].
  injection Hj as <- <- <-. lia.
Defined.

(** ** Field ranges of a parsed font *)

Lemma parsed_font_fields (data : bytes) (ft : TrueTypeFont.t) :
  TrueTypeFont.__init__ data = Ok ft →
  TrueTypeFont.units_per_em ft < 65536 ∧
  TrueTypeFont.num_h_metrics ft < 65536 ∧
  TrueTypeFont.num_glyphs ft < 65536 ∧
  Forall (fun w => w < 65536) (TrueTypeFont.advance_widths ft) ∧
  N.of_nat (length (TrueTypeFont.advance_widths ft)) < 65536.
Proof.
  intros H. apply init_Ok in H as (_ & _ & Hhead & Hhhea & Hmaxp & Hhmtx & _).
  rewrite parse_head_eq in Hhead. rewrite parse_hhea_eq in Hhhea.
  rewrite parse_maxp_eq in Hmaxp.
  destruct (TrueTypeFont.tables ft !! lit "head") as [head|]; [|done].
  destruct (TrueTypeFont.tables ft !! lit "hhea") as [hhea|]; [|done].
  destruct (TrueTypeFont.tables ft !! lit "maxp") as [maxp|]; [|done].
  cbv zeta in *.
  destruct (decide (44 ≤ _)%nat); [|done]. destruct (decide (36 ≤ _)%nat); [|done].
  destruct (decide (6 ≤ _)%nat); [|done].
  assert (Hupm : TrueTypeFont.units_per_em ft < 65536).
  { injection Hhead as <- _ _ _ _. apply fH_bound. }
  assert (Hnhm : TrueTypeFont.num_h_metrics ft < 65536).
  { injection Hhhea as _ _ _ <-. apply fH_bound. }
  assert (Hng : TrueTypeFont.num_glyphs ft < 65536).
  { injection Hmaxp as <-. apply fH_bound. }
  split; [done|]. split; [done|]. split; [done|].
  apply parse_hmtx_Ok in Hhmtx as (entry & explicit & _ & Hexp & Hws).
  assert (Hall : Forall (fun w => w < 65536) explicit).
  { subst explicit. apply Forall_forall. intros w Hw.
    apply list_elem_of_fmap in Hw as (k & -> & _). apply fH_bound. }
  assert (Hlen : length explicit = N.to_nat (TrueTypeFont.num_h_metrics ft)).
  { subst explicit. by rewrite length_map, length_seq. }
  destruct Hws as [[Hle ->] | (Hlt & lw & Hlast & ->)].
  - split; [done | lia].
  - split.
    + apply Forall_app. split; [done|]. apply Forall_replicate.
      rewrite Forall_forall in Hall. apply Hall.
      apply last_Some in Hlast as [l' ->]. apply elem_of_app. right.
      by apply list_elem_of_singleton.
    + rewrite length_app, length_replicate. lia.
Qed.


(** * Further properties of the encoder *)

(** ** Registration *)

Lemma ensure_char_char_set (self : FontEncoder.t) (ch c : N) :
  c ∈ FontEncoder.char_set (FontEncoder.ensure_char self ch)
  ↔ c = ch ∨ c ∈ FontEncoder.char_set self.
Proof.
  unfold FontEncoder.ensure_char. case_decide as Hin; simpl.
  - split; [by right|]. by intros [->|?].
  - rewrite elem_of_union, elem_of_singleton. tauto.
Qed.

Lemma ensure_text_char_set (text : pystr) (self : FontEncoder.t) (c : N) :
  c ∈ FontEncoder.char_set (FontEncoder.ensure_text text self)
  ↔ c ∈ text ∨ c ∈ FontEncoder.char_set self.
Proof.
  unfold FontEncoder.ensure_text. revert self.
  induction text as [|ch text IH]; intros self; simpl.
  - rewrite elem_of_nil. tauto.
  - rewrite IH, ensure_char_char_set, elem_of_cons. tauto.
Qed.

Lemma ensure_text_known (text : pystr) (self : FontEncoder.t) :
  (∀ ch, ch ∈ text → ch ∈ FontEncoder.char_set self) →
  FontEncoder.ensure_text text self = self.
Proof.
  unfold FontEncoder.ensure_text. induction text as [|ch text IH]; intros H; simpl.
  - done.
  - rewrite ensure_char_known by (apply H, elem_of_cons; by left).
    apply IH. intros c Hc. apply H, elem_of_cons. by right.
Qed.

(** X7.  Registration is idempotent: once [ensure_text(text1)] has run,
    [ensure_text(text2)] for a text made of characters of [text1] changes
    nothing, whatever the encoder held before; in particular a second
    [ensure_text(text1)] is without effect. *)
Theorem ensure_text_registered (text1 text2 : pystr) (self : FontEncoder.t) :
  text2 ⊆ text1 →
  FontEncoder.ensure_text text2 (FontEncoder.ensure_text text1 self)
  = FontEncoder.ensure_text text1 self.
Proof.
  intros Hsub. apply ensure_text_known. intros ch Hch.
  apply ensure_text_char_set. left. by apply Hsub.
Qed.

Lemma ensure_text_registered_witness :
  let self := FontEncoder.__init__ (Fixture.parsed Fixture.sample_font) in
  FontEncoder.ensure_text (lit "BAB") (FontEncoder.ensure_text (lit "AB") self)
  = FontEncoder.ensure_text (lit "AB") self.
Proof.
  intros self. apply ensure_text_registered.
  intros ch Hch. change (lit "BAB") with [66; 65; 66] in Hch.
  change (lit "AB") with [65; 66].
  rewrite !elem_of_cons, elem_of_nil in Hch. rewrite !elem_of_cons. tauto.
Defined.

(** ** Encoding *)

Lemma tracked_lookup (font : TrueTypeFont.t) (trace : pystr) (self : FontEncoder.t)
    (ch : N) :
  tracked font trace self → ch ∈ trace →
  FontEncoder.char_to_gid self !! ch = Some (default 0 (TrueTypeFont.cmap font !! ch)).
Proof.
  intros Htr Hch.
  assert (Hdom : ch ∈ dom (FontEncoder.char_to_gid self)).
  { rewrite (tracked_dom _ _ _ Htr), (tracked_set _ _ _ Htr).
    by apply elem_of_list_to_set. }
  apply elem_of_dom in Hdom as [g Hg]. rewrite Hg.
  by destruct (tracked_gid _ _ _ Htr ch g Hg) as [-> _].
Qed.

Lemma map_each_Ok_map {A B} (f : A → result B) (g : A → B) (xs : list A) :
  (∀ x, x ∈ xs → f x = Ok (g x)) → map_each f xs = Ok (map g xs).
Proof.
  induction xs as [|x xs IH]; intros H; simpl; [done|].
  rewrite (H x) by (apply elem_of_cons; by left). simpl.
  rewrite IH; [done|]. intros y Hy. apply H, elem_of_cons. by right.
Qed.

Lemma encode_text_unfold (text : pystr) (self : FontEncoder.t) :
  (FontEncoder.encode_text text self).1
  = hex_buffer ←
      map_each (fun ch => gid ← getitem_char
                                  (FontEncoder.char_to_gid (FontEncoder.ensure_text text self))
                                  ch;
                          Ok (fmt_04X gid)) text;
    Ok (lit "<" ++ concat hex_buffer ++ lit ">").
Proof.
  unfold FontEncoder.encode_text, mbind at 1 2 3, M_mbind, M_bind, get, modify, lift,
    mret, M_mret, M_ret.
  destruct text as [|c text]; [done|].
  cbn [fst snd]. by destruct (map_each _ _).
Qed.

Lemma encode_text_run (font : TrueTypeFont.t) (calls : list call) (text : pystr) :
  (FontEncoder.encode_text text (run_calls calls (FontEncoder.__init__ font))).1
  = Ok (lit "<"
        ++ concat (map (fun ch => fmt_04X (default 0 (TrueTypeFont.cmap font !! ch))) text)
        ++ lit ">").
Proof.
  pose proof (tracked_run_calls font calls [] _ (tracked_init font)) as Htr.
  set (self := run_calls calls (FontEncoder.__init__ font)) in *.
  pose proof (tracked_ensure_text font text _ self Htr) as Htr'.
  assert (Hmap :
    map_each (fun ch => gid ← getitem_char
                                (FontEncoder.char_to_gid (FontEncoder.ensure_text text self)) ch;
                        Ok (fmt_04X gid)) text
    = Ok (map (fun ch => fmt_04X (default 0 (TrueTypeFont.cmap font !! ch))) text)).
  { apply map_each_Ok_map. intros ch Hch. unfold getitem_char.
    rewrite (tracked_lookup font _ _ ch Htr'); [done|].
    apply elem_of_app. by right. }
  by rewrite encode_text_unfold, Hmap.
Qed.

(** X8.  [encode_text] never raises on an encoder reached by text calls
    from a new one: it returns the string of the four-digit (or longer)
    upper case hexadecimal glyph ids of the characters of the text, in
    order, between angle brackets; a character the font does not map takes
    glyph 0.  The result does not depend on what was registered before. *)
Theorem encode_text_value (font : TrueTypeFont.t) (calls : list call) (text : pystr) :
  (FontEncoder.encode_text text (run_calls calls (FontEncoder.__init__ font))).1
  = Ok (lit "<"
        ++ concat (map (fun ch => fmt_04X (default 0 (TrueTypeFont.cmap font !! ch))) text)
        ++ lit ">").
Proof. apply encode_text_run. Qed.

(** A check of all numbers below [n], by computation. *)
Lemma forall_below (P : N → bool) (n : N) :
  N.recursion true (fun k acc => acc && P k) n = true → ∀ k, k < n → P k = true.
Proof.
  induction n as [|n IH] using N.peano_ind; intros H k Hk; [lia|].
  rewrite (N.recursion_succ eq) in H; [|done|by intros ? ? -> ? ? ->].
  apply andb_true_iff in H as [Hrec Hn].
  destruct (decide (k = n)) as [->|Hne]; [done|]. apply IH; [done | lia].
Qed.

Lemma hex_digits_16bit (n : N) :
  n < 65536 → (length (hex_chars (N.to_hex_uint n)) ≤ 4)%nat.
Proof.
  intros Hn. apply Nat.leb_le.
  apply (forall_below (fun k => Nat.leb (length (hex_chars (N.to_hex_uint k))) 4) 65536);
    [vm_compute; reflexivity | done].
Qed.

Lemma fmt_04X_length (n : N) : n < 65536 → length (fmt_04X n) = 4%nat.
Proof.
  intros Hn. unfold fmt_04X, zfill. rewrite length_app, length_replicate.
  pose proof (hex_digits_16bit n Hn). lia.
Qed.

(** X9.  When the glyph ids of the characters of [text] all fit in 16
    bits, the string [encode_text] returns has four hexadecimal digits per
    character: its length is [2 + 4 * len(text)]. *)
Theorem encode_text_length (font : TrueTypeFont.t) (calls : list call) (text : pystr) :
  Forall (fun ch => default 0 (TrueTypeFont.cmap font !! ch) < 65536) text →
  ∃ s,
    (FontEncoder.encode_text text (run_calls calls (FontEncoder.__init__ font))).1 = Ok s ∧
    length s = (2 + 4 * length text)%nat.
Proof.
  intros Hall. eexists. split; [apply encode_text_run|].
  rewrite !length_app. change (length (lit "<")) with 1%nat.
  change (length (lit ">")) with 1%nat.
  enough (length (concat (map (fun ch => fmt_04X (default 0 (TrueTypeFont.cmap font !! ch)))
                           text)) = (4 * length text)%nat) by lia.
  induction Hall as [|ch text Hch Hall IH]; [done|].
  cbn [map concat length]. rewrite length_app, IH, fmt_04X_length by done. lia.
Qed.

Lemma encode_text_length_witness :
  ∃ s,
    (FontEncoder.encode_text (lit "CAB")
       (run_calls [] (FontEncoder.__init__ (Fixture.parsed Fixture.sample_font)))).1 = Ok s ∧
    length s = (2 + 4 * length (lit "CAB"))%nat.
Proof.
  apply encode_text_length.
  repeat constructor; vm_compute; reflexivity.
Defined.

(** ** Measuring *)

Lemma measure_text_run (font : TrueTypeFont.t) (calls : list call) (text : pystr)
    (font_size : float) :
  (FontEncoder.measure_text text font_size (run_calls calls (FontEncoder.__init__ font))).1
  = match text_units font text with
    | None => Raise IndexError
    | Some total =>
        if TrueTypeFont.units_per_em font =? 0 then Raise ZeroDivisionError
        else
          quotient ← int_truediv total (TrueTypeFont.units_per_em font);
          Ok (quotient * font_size)%float
    end.
Proof.
  pose proof (tracked_run_calls font calls [] _ (tracked_init font)) as Htr.
  destruct (measure_text_spec font text _ _ font_size Htr) as [_ ->].
  destruct (text_units font text) as [total|]; [|done].
  unfold FontEncoder.scale. by destruct (TrueTypeFont.units_per_em font).
Qed.

(** X10.  What [measure_text] returns on an encoder reached by text calls
    from a new one depends on the font, the text and the size only, not on
    what was registered before: it is the float product of the size with
    the float quotient of the sum of the advance widths of the glyphs of the
    text by [units_per_em]; it raises [IndexError] when the glyph of a
    character has no advance width, otherwise [ZeroDivisionError] when
    [units_per_em] is 0, even for the empty text, otherwise
    [OverflowError] when the quotient is too large for a float; it never
    raises [KeyError]. *)
Theorem measure_text_value (font : TrueTypeFont.t) (calls : list call) (text : pystr)
    (font_size : float) :
  (FontEncoder.measure_text text font_size (run_calls calls (FontEncoder.__init__ font))).1
  = match text_units font text with
    | None => Raise IndexError
    | Some total =>
        if TrueTypeFont.units_per_em font =? 0 then Raise ZeroDivisionError
        else
          quotient ← int_truediv total (TrueTypeFont.units_per_em font);
          Ok (quotient * font_size)%float
    end.
Proof. apply measure_text_run. Qed.

Lemma text_units_app (font : TrueTypeFont.t) (s1 s2 : pystr) :
  text_units font (s1 ++ s2)
  = match text_units font s1, text_units font s2 with
    | Some u1, Some u2 => Some (u1 + u2)
    | _, _ => None
    end.
Proof.
  induction s1 as [|c s1 IH]; simpl.
  - by destruct (text_units font s2).
  - rewrite IH. destruct (char_units font c) as [w|]; [|done].
    destruct (text_units font s1) as [u1|]; [|done].
    destruct (text_units font s2) as [u2|]; [|done].
    f_equal. lia.
Qed.

(** ** The CIDToGIDMap stream *)

Lemma byte_of_N_to_N (n : N) : n < 256 → Byte.to_N (byte_of_N n) = n.
Proof.
  intros Hn. unfold byte_of_N. destruct (Byte.of_N n) as [b|] eqn:Hb.
  - simpl. by apply Byte.to_of_N.
  - apply Byte.of_N_None_iff in Hb. lia.
Qed.

Lemma pack_H_Ok (v : N) (b : bytes) :
  pack_H v = Ok b ↔ v < 65536 ∧ b = [byte_of_N (v / 256); byte_of_N (v mod 256)].
Proof.
  unfold pack_H. destruct (N.ltb_spec v 65536); split.
  - intros H'. by simplify_eq.
  - by intros [_ ->].
  - done.
  - intros [? _]. lia.
Qed.

Lemma be_pack_H (v : N) :
  v < 65536 → Struct.be [byte_of_N (v / 256); byte_of_N (v mod 256)] = v.
Proof.
  intros Hv. unfold Struct.be. cbn [fold_left].
  rewrite !byte_of_N_to_N.
  - rewrite N.mul_0_r, N.add_0_l. symmetry. apply N.div_mod'.
  - apply N.mod_lt. lia.
  - apply N.Div0.div_lt_upper_bound. lia.
Qed.

Lemma map_each_Ok {A B} (f : A → result B) (xs : list A) (ys : list B) :
  map_each f xs = Ok ys ↔ Forall2 (fun x y => f x = Ok y) xs ys.
Proof.
  revert ys. induction xs as [|x xs IH]; intros ys; simpl.
  - split; [intros H; simplify_eq; constructor | by inversion 1].
  - split.
    + intros H. inv_bind H as y Hy. inv_bind H as ys' Hys. simplify_eq.
      constructor; [done|]. by apply IH.
    + inversion 1 as [|? y ? ys' Hy Hys]; subst. rewrite Hy. simpl.
      apply IH in Hys. by rewrite Hys.
Qed.

Lemma map_each_is_ok {A B} (f : A → result B) (xs : list A) :
  is_ok (map_each f xs) ↔ ∀ x, x ∈ xs → is_ok (f x).
Proof.
  induction xs as [|x xs IH]; simpl.
  - split; [intros _ x Hx; by apply elem_of_nil in Hx | intros _; by eexists].
  - split.
    + intros [ys H] z Hz. inv_bind H as y Hy. inv_bind H as ys' Hys.
      apply elem_of_cons in Hz as [->|Hz]; [by eexists|].
      apply IH; [by eexists | done].
    + intros H. destruct (H x) as [y Hy]; [apply elem_of_cons; by left|].
      rewrite Hy. simpl.
      destruct (proj2 IH) as [ys Hys].
      { intros z Hz. apply H, elem_of_cons. by right. }
      rewrite Hys. by eexists.
Qed.

Lemma slice_concat_pairs (chunks : list bytes) (i : nat) (c : bytes) :
  Forall (fun c => length c = 2%nat) chunks →
  chunks !! i = Some c →
  slice (2 * i) (2 * i + 2) (concat chunks) = c.
Proof.
  intros Hall. revert i. induction Hall as [|c0 chunks Hc0 Hall IH]; intros i Hi; [done|].
  destruct i as [|i]; simpl in Hi.
  - simplify_eq. unfold slice. simpl. rewrite drop_0.
    rewrite take_app_length' by done. done.
  - unfold slice in *. cbn [concat].
    replace (2 * S i)%nat with (length c0 + 2 * i)%nat by lia.
    rewrite drop_app_add'  by done.
    replace (length c0 + 2 * i + 2 - (length c0 + 2 * i))%nat with (2 * i + 2 - 2 * i)%nat
      by lia.
    by apply IH.
Qed.

Lemma range_lookup (lo hi : N) (i : nat) :
  N.of_nat i < hi - lo → range lo hi !! i = Some (lo + N.of_nat i).
Proof.
  intros Hi. unfold range.
  change (map ?f ?l) with (f <$> l). rewrite list_lookup_fmap.
  rewrite lookup_seq_lt by lia. done.
Qed.

(** X12.  The CIDToGIDMap stream holds one big-endian 16 bit entry per
    glyph id from 0 to [max_gid]: reading entry [g] back gives [g] when the
    glyph is used and 0 when it is not. *)
Theorem cid_to_gid_entries (self : FontEncoder.t) (max_gid : N) (b : bytes) (g : N) :
  FontEncoder.cid_to_gid_of self max_gid = Ok b →
  g ≤ max_gid →
  length b = (2 * (N.to_nat max_gid + 1))%nat ∧
  Struct.fH (2 * N.to_nat g) b
  = if decide (g ∈ FontEncoder.used_glyphs self) then g else 0.
Proof.
  unfold FontEncoder.cid_to_gid_of. intros H Hg.
  inv_bind H as packed Hpacked. simplify_eq.
  apply map_each_Ok in Hpacked.
  assert (Hall : Forall (fun c => length c = 2%nat) packed).
  { apply Forall_forall. intros c Hc.
    apply list_elem_of_lookup in Hc as [i Hi].
    destruct (Forall2_lookup_r _ _ _ _ _ Hpacked Hi) as (x & _ & Hx).
    apply pack_H_Ok in Hx as [_ ->]. done. }
  assert (Hlen : length packed = (N.to_nat max_gid + 1)%nat).
  { rewrite <- (Forall2_length _ _ _ Hpacked). unfold range.
    rewrite length_map, length_seq. lia. }
  split.
  - clear Hpacked Hg. revert Hlen. generalize (N.to_nat max_gid + 1)%nat.
    induction Hall as [|c packed Hc Hall IH]; intros n Hn; simpl in *; [lia|].
    rewrite length_app, Hc. destruct n as [|n]; [lia|].
    rewrite (IH n) by lia. lia.
  - assert (Hr : range 0 (max_gid + 1) !! N.to_nat g = Some g).
    { rewrite range_lookup by lia. f_equal. lia. }
    destruct (Forall2_lookup_l _ _ _ _ _ Hpacked Hr) as (c & Hc & Hx).
    apply pack_H_Ok in Hx as [Hv ->].
    unfold Struct.fH. rewrite (slice_concat_pairs packed _ _ Hall Hc).
    by apply be_pack_H.
Qed.

Lemma cid_to_gid_entries_witness :
  let self := FontEncoder.ensure_text (lit "C")
                (FontEncoder.__init__ (Fixture.parsed Fixture.sample_font)) in
  ∃ b,
    FontEncoder.cid_to_gid_of self 3 = Ok b ∧
    length b = 8%nat ∧ Struct.fH 6 b = 3 ∧ Struct.fH 4 b = 0.
Proof.
  intros self. eexists. split; [vm_compute; reflexivity|].
  split; [|split].
  - refine (proj1 (cid_to_gid_entries self 3 _ 3 _ _)); [vm_compute; reflexivity | lia].
  - refine (proj2 (cid_to_gid_entries self 3 _ 3 _ _)); [vm_compute; reflexivity | lia].
  - refine (proj2 (cid_to_gid_entries self 3 _ 2 _ _)); [vm_compute; reflexivity | lia].
Defined.

Lemma map_each_Raise {A B} (f : A → result B) (xs : list A) (e : exn) :
  map_each f xs = Raise e → ∃ x, x ∈ xs ∧ f x = Raise e.
Proof.
  induction xs as [|x xs IH]; simpl; [done|].
  destruct (f x) as [y|e'] eqn:Hx; simpl.
  - destruct (map_each f xs) as [ys|e'] eqn:Hxs; simpl; [done|].
    intros H. simplify_eq. destruct (IH eq_refl) as (z & Hz & Hfz).
    exists z. split; [apply elem_of_cons; by right | done].
  - intros H. simplify_eq. exists x. split; [apply elem_of_cons; by left | done].
Qed.

Lemma widths_1000_used (self : FontEncoder.t) (widths : gmap N Z) (g : N) :
  FontEncoder._widths_1000 self = Ok widths →
  g ∈ FontEncoder.used_glyphs self →
  (N.to_nat g < length (TrueTypeFont.advance_widths (FontEncoder.font self)))%nat.
Proof.
  intros H Hg. destruct (widths_loop _ _ _ _ H g) as [Hdom Hval].
  destruct (proj2 Hdom (or_introl Hg)) as [w Hw].
  destruct (Hval w Hw) as [Hempty | (units & Hunits & _)]; [done|].
  by apply lookup_lt_Some in Hunits.
Qed.

(** X13.  In [build_pdf_objects] on a font that the parser has returned,
    the CIDToGIDMap is always built: once [_widths_1000] has returned,
    every used glyph id has an advance width, there are fewer than 65536 of
    these, so every entry fits its 16 bits and [struct.pack_into] does not
    raise [struct.error].  (A glyph id that does not fit, which a format 12
    subtable can assign, has made [_widths_1000] raise [IndexError]
    before.) *)
Theorem cid_to_gid_parsed_font (data : bytes) (self : FontEncoder.t)
    (widths : gmap N Z) (max_gid : N) :
  TrueTypeFont.__init__ data = Ok (FontEncoder.font self) →
  FontEncoder._widths_1000 self = Ok widths →
  is_ok (FontEncoder.cid_to_gid_of self max_gid).
Proof.
  intros Hfont Hwidths. apply parsed_font_fields in Hfont as (_ & _ & _ & _ & Hlen).
  unfold FontEncoder.cid_to_gid_of.
  destruct (proj2 (map_each_is_ok
              (fun glyph => pack_H (if decide (glyph ∈ FontEncoder.used_glyphs self)
                                    then glyph else 0))
              (range 0 (max_gid + 1)))) as [packed ->]; [|by eexists].
  intros g _. unfold pack_H. case_decide as Hg; [|by eexists].
  pose proof (widths_1000_used self widths g Hwidths Hg) as Hlt.
  destruct (N.ltb_spec g 65536); [by eexists | lia].
Qed.

Lemma cid_to_gid_parsed_font_witness :
  let self := FontEncoder.ensure_text (lit "C")
                (FontEncoder.__init__ (Fixture.parsed Fixture.sample_font)) in
  is_ok (FontEncoder.cid_to_gid_of self 3).
Proof.
  intros self.
  assert (H : ∃ widths, FontEncoder._widths_1000 self = Ok widths)
    by (eexists; vm_compute; reflexivity).
  destruct H as [widths H].
  refine (cid_to_gid_parsed_font Fixture.sample_font self widths 3 _ H).
  vm_compute. reflexivity.
Defined.

(** ** The ToUnicode entries *)

Lemma utf16be_hex_outcome (ch : N) :
  match utf16be_hex ch with
  | Ok _ => ¬ (0xD800 ≤ ch ≤ 0xDFFF)
  | Raise e => e = UnicodeEncodeError ∧ 0xD800 ≤ ch ≤ 0xDFFF
  end.
Proof.
  unfold utf16be_hex. destruct (N.ltb_spec ch 0x10000) as [Hlt|Hge]; [|lia].
  destruct (N.leb_spec 0xD800 ch), (N.leb_spec ch 0xDFFF); simpl; try lia.
  split; [done | lia].
Qed.

(** X14.  On an encoder reached by text calls from a new one,
    [build_pdf_objects] computes one ToUnicode entry per registered
    character; the only way this fails is a registered lone surrogate, whose
    UTF-16 encoding raises [UnicodeEncodeError]; the lookup of the glyph id
    never raises [KeyError]. *)
Theorem to_unicode_entries_outcome (font : TrueTypeFont.t) (calls : list call) :
  let self := run_calls calls (FontEncoder.__init__ font) in
  match FontEncoder.to_unicode_entries self with
  | Ok entries =>
      length entries = length (FontEncoder.used_chars self) ∧
      ∀ ch, ch ∈ FontEncoder.used_chars self → ¬ (0xD800 ≤ ch ≤ 0xDFFF)
  | Raise e =>
      e = UnicodeEncodeError ∧
      ∃ ch, ch ∈ FontEncoder.used_chars self ∧ 0xD800 ≤ ch ≤ 0xDFFF
  end.
Proof.
  intros self.
  pose proof (tracked_run_calls font calls [] _ (tracked_init font)) as Htr.
  fold self in Htr. simpl in Htr.
  assert (Hgid : ∀ ch, ch ∈ FontEncoder.used_chars self →
            getitem_char (FontEncoder.char_to_gid self) ch
            = Ok (default 0 (TrueTypeFont.cmap font !! ch))).
  { intros ch Hch. unfold getitem_char.
    rewrite (tracked_lookup font _ _ ch Htr); [done|].
    apply first_seen_elem. by rewrite <- (tracked_chars _ _ _ Htr). }
  unfold FontEncoder.to_unicode_entries.
  pose proof (merge_sort_Permutation N.le (FontEncoder.used_chars self)) as Hperm.
  destruct (map_each _ _) as [entries|e] eqn:Hm.
  - split.
    + apply map_each_Ok in Hm. rewrite <- (Forall2_length _ _ _ Hm).
      by apply Permutation_length.
    + intros ch Hch.
      assert (Hok : is_ok (gid ← getitem_char (FontEncoder.char_to_gid self) ch;
                           unicode_hex ← utf16be_hex ch;
                           Ok (lit "<" ++ fmt_04X gid ++ lit "> <" ++ unicode_hex
                               ++ lit ">"))).
      { apply (proj1 (map_each_is_ok _ _) (ex_intro _ entries Hm)).
        by rewrite Hperm. }
      rewrite Hgid in Hok by done. simpl in Hok.
      pose proof (utf16be_hex_outcome ch) as Hu.
      destruct (utf16be_hex ch); [done|]. by destruct Hok.
  - apply map_each_Raise in Hm as (ch & Hch & Hf).
    rewrite Hperm in Hch. rewrite Hgid in Hf by done. simpl in Hf.
    pose proof (utf16be_hex_outcome ch) as Hu.
    destruct (utf16be_hex ch) as [u|e']; [done|]. simpl in Hf. simplify_eq.
    destruct Hu as [-> Hs]. split; [done|]. by exists ch.
Qed.

Lemma chunks_of_cover {A} (fuel n : nat) (l : list A) :
  (length l ≤ fuel)%nat → (0 < n)%nat →
  concat (chunks_of fuel n l) = l ∧
  Forall (fun c => (0 < length c ≤ n)%nat) (chunks_of fuel n l).
Proof.
  intros Hfuel Hn. revert l Hfuel.
  induction fuel as [|fuel IH]; intros l Hfuel.
  - destruct l; [done | simpl in Hfuel; lia].
  - destruct l as [|x l]; [done|].
    cbn [chunks_of concat].
    destruct (IH (drop n (x :: l))) as [Hc Hall].
    { rewrite length_drop. simpl in *. lia. }
    split.
    + rewrite Hc. apply take_drop.
    + constructor; [|done]. rewrite length_take. simpl. lia.
Qed.

(** X15.  The ToUnicode entries are cut into blocks of at most 100
    entries, none of them empty, and the blocks taken together are the
    entries in their order: no entry is lost or repeated. *)
Theorem to_unicode_blocks {A} (entries : list A) :
  concat (chunks_of (length entries) 100 entries) = entries ∧
  Forall (fun chunk => (0 < length chunk ≤ 100)%nat)
    (chunks_of (length entries) 100 entries).
Proof. apply chunks_of_cover; lia. Qed.

(** * Further properties of the document *)

Section Trailer.
Import PDFDocument.

Lemma Forall_join {A} (P : A → Prop) (sep : list A) (parts : list (list A)) :
  Forall P sep →
  Forall P (join sep parts) ↔ Forall (Forall P) parts.
Proof.
  intros Hsep. induction parts as [|p parts IH]; simpl.
  - split; constructor.
  - destruct parts as [|q parts].
    + split; [intros H; by repeat constructor | by inversion 1].
    + rewrite !Forall_app, IH, (Forall_cons _ p). tauto.
Qed.

Ltac ascii_parts :=
  repeat match goal with
  | |- Forall _ (lit _) => by apply lit_ascii
  | |- Forall _ (str_N _) => apply str_N_ascii
  | |- Forall _ (str_Z _) => apply str_Z_ascii
  | |- Forall _ (_ ++ _) => apply Forall_app; split
  | |- Forall _ (_ :: _) => constructor; [lia|]
  | |- Forall _ [] => constructor
  end.

Lemma encode_ascii_outcome (s : pystr) :
  match encode_ascii s with
  | Ok b => b = ascii_bytes s ∧ Forall (fun c => c < 128) s
  | Raise e => e = UnicodeEncodeError ∧ ¬ Forall (fun c => c < 128) s
  end.
Proof.
  unfold encode_ascii. destruct (forallb _ s) eqn:Hall.
  - split; [done|]. apply Forall_forall. intros c Hc.
    rewrite forallb_forall in Hall. apply N.ltb_lt, Hall. by apply list_elem_of_In.
  - split; [done|]. intros HF. apply not_true_iff_false in Hall. apply Hall.
    apply forallb_forall. intros c Hc. apply N.ltb_lt.
    rewrite Forall_forall in HF. apply HF. by apply list_elem_of_In.
Qed.

Lemma trailer_text_ascii (doc : t) (root_object : Z) (xref_position : N) :
  Forall (fun c => c < 128) (trailer_text doc root_object xref_position) ↔
  Forall (fun kv => Forall (fun c => c < 128) (kv.1 ++ kv.2)) (trailer_extra doc).
Proof.
  unfold trailer_text. cbv zeta.
  rewrite Forall_join by (constructor; [lia | constructor]).
  rewrite !Forall_cons, Forall_nil.
  rewrite Forall_join by (by apply lit_ascii).
  rewrite !Forall_app, !Forall_cons, Forall_nil.
  assert (Hextra :
    Forall (Forall (fun c => c < 128))
      (map (fun kv => lit "/" ++ kv.1 ++ lit " " ++ kv.2) (trailer_extra doc))
    ↔ Forall (fun kv => Forall (fun c => c < 128) (kv.1 ++ kv.2)) (trailer_extra doc)).
  { change (map ?f ?l) with (f <$> l). rewrite Forall_fmap. apply Forall_proper; [|done].
    intros [k v]. unfold compose. cbn [fst snd]. rewrite !Forall_app.
    assert (Forall (fun c => c < 128) (lit "/")) by (by apply lit_ascii).
    assert (Forall (fun c => c < 128) (lit " ")) by (by apply lit_ascii).
    tauto. }
  rewrite Hextra. split; [tauto|]. intros H.
  repeat split; try done; ascii_parts.
Qed.

(** X17.  [write] raises exactly when a trailer entry set with
    [set_trailer_entry] holds a character outside ASCII: the final
    [encode("ascii")] then raises [UnicodeEncodeError], after the header,
    the objects and the cross-reference section have been written, so the
    file is left without trailer.  With ASCII entries only, [write]
    returns. *)
Theorem write_outcome (doc : t) (root_object : Z) :
  let ascii_entries :=
    Forall (fun kv => Forall (fun c => c < 128) (kv.1 ++ kv.2)) (trailer_extra doc) in
  match (write doc root_object []).1 with
  | Ok _ => ascii_entries
  | Raise e =>
      e = UnicodeEncodeError ∧ ¬ ascii_entries ∧
      (write doc root_object []).2
      = pdf_header ++ body_bytes 1 (objects doc)
        ++ ascii_bytes (lit "xref" ++ [10] ++ lit "0 "
                        ++ str_N (N.of_nat (length (objects doc)) + 1) ++ [10])
        ++ (blit "0000000000 65535 f " ++ [x0a])
        ++ xref_records (body_offsets (length pdf_header) 1 (objects doc))
  end.
Proof.
  intros ascii_entries. rewrite write_unfold. cbv zeta.
  match goal with |- context [encode_ascii ?s] =>
    pose proof (encode_ascii_outcome s) as Henc; destruct (encode_ascii s) as [b|e]
  end; cbn [fst snd].
  - destruct Henc as [_ Hascii]. by apply trailer_text_ascii in Hascii.
  - destruct Henc as [-> Hn]. split; [done|]. split.
    + intros Hascii. apply Hn. by apply trailer_text_ascii.
    + by rewrite <- !app_assoc.
Qed.

End Trailer.

(** * Properties of the layout engine *)

(** ** Rules for specifications *)

Lemma triple_bind {S A B} (P : S → Prop) (m : M S A) (Q : A → S → Prop)
    (f : A → M S B) (R : B → S → Prop) (E : exn → S → Prop) :
  triple P m Q E → (∀ a, triple (Q a) (f a) R E) → triple P (m ≫= f) R E.
Proof.
  intros Hm Hf s Hs. specialize (Hm s Hs).
  unfold mbind, M_mbind, M_bind. destruct (m s) as [[a|e] s']; [|done].
  by apply Hf.
Qed.

Lemma triple_ret {S A} (P : S → Prop) (a : A) (Q : A → S → Prop) (E : exn → S → Prop) :
  (∀ s, P s → Q a s) → triple P (mret a) Q E.
Proof. intros H s Hs. by apply H. Qed.

Lemma triple_get {S} (P : S → Prop) (Q : S → S → Prop) (E : exn → S → Prop) :
  (∀ s, P s → Q s s) → triple P get Q E.
Proof. intros H s Hs. by apply H. Qed.

Lemma triple_modify {S} (P : S → Prop) (f : S → S) (Q : unit → S → Prop)
    (E : exn → S → Prop) :
  (∀ s, P s → Q tt (f s)) → triple P (modify f) Q E.
Proof. intros H s Hs. by apply H. Qed.

Lemma triple_weaken {S A} (P P' : S → Prop) (m : M S A) (Q Q' : A → S → Prop)
    (E E' : exn → S → Prop) :
  triple P m Q E →
  (∀ s, P' s → P s) → (∀ a s, Q a s → Q' a s) → (∀ e s, E e s → E' e s) →
  triple P' m Q' E'.
Proof.
  intros Hm HP HQ HE s Hs. specialize (Hm s (HP s Hs)).
  destruct (m s) as [[a|e] s']; [by apply HQ | by apply HE].
Qed.

Lemma keeps_bind {S A B} (I : S → Prop) (m : M S A) (f : A → M S B) :
  keeps I m → (∀ a, keeps I (f a)) → keeps I (m ≫= f).
Proof. intros Hm Hf. by apply (triple_bind _ _ (fun _ s => I s)). Qed.

Lemma keeps_ret {S A} (I : S → Prop) (a : A) : keeps I (mret a : M S A).
Proof. by apply triple_ret. Qed.

Lemma keeps_for {S A} (I : S → Prop) (xs : list A) (body : A → M S unit) :
  (∀ x, x ∈ xs → keeps I (body x)) → keeps I (for_ xs body).
Proof.
  induction xs as [|x xs IH]; intros H; simpl.
  - apply keeps_ret.
  - apply keeps_bind; [apply H, elem_of_cons; by left|].
    intros _. apply IH. intros y Hy. apply H, elem_of_cons. by right.
Qed.

(** ** What the text methods of the encoder raise *)

Lemma measure_loop_no_assert (text : pystr) (total : N) (f : FontEncoder.t) :
  (FontEncoder.measure_loop text total f).1 ≠ Raise AssertionError.
Proof.
  revert total f. induction text as [|ch text IH]; intros total f; [done|].
  cbn [FontEncoder.measure_loop]. unfold mbind at 1, M_mbind, M_bind.
  destruct (FontEncoder.measure_char total ch f) as [[total'|e] f'] eqn:Hstep.
  - apply IH.
  - simpl. intros He. simplify_eq. revert Hstep.
    unfold FontEncoder.measure_char, mbind, M_mbind, M_bind, get, modify, lift,
      mret, M_mret, M_ret, getitem_char, item.
    repeat (match goal with
            | |- context [match ?x !! ?k with _ => _ end] => destruct (x !! k)
            end; simpl); done.
Qed.

Lemma int_truediv_no_assert (a b : N) : int_truediv a b ≠ Raise AssertionError.
Proof.
  unfold int_truediv. destruct b as [|b]; [done|]. destruct a as [|a]; [done|].
  destruct (SFdiv_core_binary _ _ _ _ _ _) as [[m e] l].
  by destruct (binary_round_aux _ _ _ _ _ _).
Qed.

Lemma measure_text_no_assert (text : pystr) (font_size : float) (f : FontEncoder.t) :
  (FontEncoder.measure_text text font_size f).1 ≠ Raise AssertionError.
Proof.
  unfold FontEncoder.measure_text, mbind, M_mbind, M_bind, get, lift.
  pose proof (measure_loop_no_assert text 0 f) as H.
  destruct (FontEncoder.measure_loop text 0 f) as [[total|e] f']; cbn [fst snd] in *;
    [|intros He; apply H; by simplify_eq].
  unfold FontEncoder.scale.
  pose proof (int_truediv_no_assert total
                (TrueTypeFont.units_per_em (FontEncoder.font f'))) as Hq.
  destruct (int_truediv _ _) as [q|e]; simpl; [done | congruence].
Qed.

Lemma encode_text_no_assert (text : pystr) (f : FontEncoder.t) :
  (FontEncoder.encode_text text f).1 ≠ Raise AssertionError.
Proof.
  rewrite encode_text_unfold. intros H.
  apply bind_Raise in H as [H | (? & _ & H)]; [|done].
  apply map_each_Raise in H as (ch & _ & H). unfold getitem_char in H.
  by destruct (_ !! ch).
Qed.

(** ** The page invariants, method by method *)

Section Layout.
Import LayoutEngine.

Lemma extends_refl (a : list (list command)) : extends a a.
Proof. intros i cmds Hi. exists []. by rewrite app_nil_r. Qed.

Lemma extends_snoc (a b : list (list command)) (page : list command) :
  extends a b → extends a (b ++ [page]).
Proof.
  intros H i cmds Hi. destruct (H i cmds Hi) as [more Hmore].
  exists more. by apply lookup_app_l_Some.
Qed.

Lemma extends_alter (a b : list (list command)) (i : nat) (c : command) :
  extends a b → extends a (alter (fun cmds => cmds ++ [c]) i b).
Proof.
  intros H j cmds Hj. destruct (H j cmds Hj) as [more Hmore].
  destruct (decide (i = j)) as [->|Hne].
  - exists (more ++ [c]). rewrite list_lookup_alter, Hmore. simpl.
    rewrite decide_True by done. by rewrite <- app_assoc.
  - exists more. rewrite list_lookup_alter, Hmore. simpl.
    by rewrite decide_False by done.
Qed.

Lemma extends_trans (a b c : list (list command)) :
  extends a b → extends b c → extends a c.
Proof.
  intros Hab Hbc i cmds Hi. destruct (Hab i cmds Hi) as [more Hmore].
  destruct (Hbc i _ Hmore) as [more' Hmore'].
  exists (more ++ more'). by rewrite app_assoc.
Qed.

Lemma laid_out_same (G : Prop) (s0 s s' : t) :
  pages s' = pages s → current_page s' = current_page s →
  laid_out G s0 s → laid_out G s0 s'.
Proof.
  intros Hp Hc ((Hok & Hext & Hm) & Hcur).
  unfold laid_out, engine_ok, page_ok. by rewrite Hp, Hc.
Qed.

Lemma keeps_move_down (G : Prop) (s0 : t) (amount : float) :
  keeps (laid_out G s0) (move_down amount).
Proof. apply triple_modify. intros s Hs. by apply (laid_out_same G s0 s). Qed.

Lemma keeps_move_up (G : Prop) (s0 : t) (amount : float) :
  keeps (laid_out G s0) (move_up amount).
Proof. apply triple_modify. intros s Hs. by apply (laid_out_same G s0 s). Qed.

Lemma keeps_on_font {A} (G : Prop) (s0 : t) (m : M FontEncoder.t A) :
  (∀ f, (m f).1 ≠ Raise AssertionError) → keeps (laid_out G s0) (on_font m).
Proof.
  intros Hm s Hs. unfold on_font. specialize (Hm (font s)).
  destruct (m (font s)) as [[a|e] f']; simpl in *.
  - by apply (laid_out_same G s0 s).
  - split; [congruence|]. by apply (laid_out_same G s0 s).
Qed.

Lemma new_page_laid_out (G : Prop) (s0 s : t) :
  engine_ok G s0 s →
  laid_out G s0 (mk (font s) (pages s ++ [[]]) (Some (length (pages s)))
                   (PAGE_HEIGHT - MARGIN_TOP)%float).
Proof.
  intros (Hok & Hext & Hm). unfold laid_out, engine_ok, page_ok. simpl.
  split; [|by eexists]. split; [rewrite length_app; simpl; lia|].
  split; [by apply extends_snoc|].
  intros HG. apply Forall_app. split; [by apply Hm|]. by repeat constructor.
Qed.

Lemma keeps_new_page (G : Prop) (s0 : t) : keeps (laid_out G s0) _new_page.
Proof. apply triple_modify. intros s [Hs _]. by apply new_page_laid_out. Qed.

Lemma keeps_append_command (G : Prop) (s0 : t) (c : command) :
  (G → above_margin c) → keeps (laid_out G s0) (_append_command c).
Proof.
  intros Hc s ((Hok & Hext & Hm) & [i Hi]).
  unfold _append_command, mbind, M_mbind, M_bind, get, put. rewrite Hi.
  unfold laid_out, engine_ok, page_ok in *. rewrite Hi in Hok. simpl.
  split; [|by eexists]. split; [by rewrite length_alter|].
  split; [by apply extends_alter|].
  intros HG. apply Forall_alter; [by apply Hm|].
  intros cmds _ Hcmds. apply Forall_app. split; [done|].
  constructor; [by apply Hc | constructor].
Qed.

Lemma keeps_set_color (G : Prop) (s0 : t) (color : option (float * float * float)) :
  keeps (laid_out G s0) (_set_color color).
Proof.
  destruct color as [[[r g] b]|]; simpl; [by apply keeps_append_command | apply keeps_ret].
Qed.

(** [_ensure_page] gives the engine a current page and does not raise. *)
Lemma ensure_page_laid_out (G : Prop) (s0 : t) :
  triple (engine_ok G s0) _ensure_page (fun _ s => laid_out G s0 s)
    (fun e s => e ≠ AssertionError ∧ laid_out G s0 s).
Proof.
  intros s Hs. unfold _ensure_page, mbind, M_mbind, M_bind, get.
  destruct (current_page s) as [i|] eqn:Hi; simpl.
  - split; [done|]. rewrite Hi. by eexists.
  - by apply new_page_laid_out.
Qed.

Lemma triple_pure {S A} (φ : Prop) (P : S → Prop) (m : M S A) (Q : A → S → Prop)
    (E : exn → S → Prop) :
  (φ → triple P m Q E) → triple (fun s => P s ∧ φ) m Q E.
Proof. intros H s [Hs Hφ]. by apply H. Qed.

Lemma keeps_draw_line (G : Prop) (s0 : t) (paragraph : Paragraph) (leading : float)
    (l : float * pystr) :
  (G → size_fits (size paragraph)) →
  keeps (laid_out G s0) (draw_line paragraph leading l).
Proof.
  intros Hfit. destruct l as [indent line]. unfold draw_line.
  (* the page break, and the baseline read after it *)
  apply (triple_bind _ _ (fun a s => laid_out G s0 s ∧ a = s));
    [by apply triple_get|]. intros s1.
  apply (triple_bind _ _
           (fun _ s => laid_out G s0 s ∧
                       (G → (cursor_y s <? MARGIN_BOTTOM + size paragraph)%float = false))).
  { intros s [Hs ->]. destruct (cursor_y s <? _)%float eqn:Hlt; simpl.
    - split; [apply new_page_laid_out, Hs|]. simpl. intros HG. by apply Hfit.
    - split; [done|]. by intros _. }
  intros _.
  apply (triple_bind _ _
           (fun a s => laid_out G s0 s ∧
                       (G → (cursor_y a <? MARGIN_BOTTOM + size paragraph)%float = false))).
  { apply triple_get. intros s [Hs Hy]. done. }
  intros s2. apply triple_pure. intros Hy.
  apply keeps_bind; [apply keeps_set_color|]. intros _.
  apply keeps_bind; [apply keeps_on_font, encode_text_no_assert|]. intros encoded.
  apply keeps_bind; [by apply keeps_append_command|]. intros _.
  apply keeps_bind; [|intros _; apply keeps_move_down].
  destruct (color paragraph); [by apply keeps_append_command | apply keeps_ret].
Qed.

Lemma keeps_wrap_words (G : Prop) (s0 : t) (paragraph : Paragraph) (space_width : float)
    (words : list pystr) (w : wrap) :
  keeps (laid_out G s0) (wrap_words paragraph space_width words w).
Proof.
  revert w. induction words as [|word words IH]; intros w; simpl.
  - apply keeps_ret.
  - apply keeps_bind; [apply keeps_on_font, measure_text_no_assert|].
    intros word_width. apply IH.
Qed.

Lemma keeps_paragraph_lines (G : Prop) (s0 : t) (paragraph : Paragraph) (text : pystr) :
  keeps (laid_out G s0) (paragraph_lines paragraph text).
Proof.
  unfold paragraph_lines. cbv zeta.
  apply keeps_bind.
  { destruct (bullet paragraph); [|apply keeps_ret].
    apply keeps_bind; [|intros _; apply keeps_ret].
    apply keeps_on_font. by intros f. }
  intros prefix. apply keeps_bind; [apply keeps_move_down|]. intros _.
  apply keeps_bind; [apply keeps_on_font, measure_text_no_assert|]. intros space_width.
  apply keeps_bind.
  { destruct (nonempty prefix); [apply keeps_on_font, measure_text_no_assert|].
    apply keeps_ret. }
  intros line_width.
  apply keeps_bind; [apply keeps_wrap_words|]. intros w. apply keeps_ret.
Qed.

Lemma laid_out_engine_ok (G : Prop) (s0 s : t) : laid_out G s0 s → engine_ok G s0 s.
Proof. by intros [? _]. Qed.

(** [add_paragraph] on an engine in order leaves it in order, with a
    current page. *)
Lemma add_paragraph_laid_out (G : Prop) (s0 : t) (paragraph : Paragraph) :
  (G → size_fits (size paragraph)) →
  triple (engine_ok G s0) (add_paragraph paragraph) (fun _ s => laid_out G s0 s)
    (fun e s => e ≠ AssertionError ∧ laid_out G s0 s).
Proof.
  intros Hfit. unfold add_paragraph.
  apply (triple_bind _ _ (fun _ s => laid_out G s0 s)); [apply ensure_page_laid_out|].
  intros _. cbv zeta. destruct (nonempty _).
  - apply keeps_bind; [apply keeps_paragraph_lines|]. intros lines.
    apply keeps_bind; [apply keeps_for; intros l _; by apply keeps_draw_line|].
    intros _. apply keeps_bind; [apply keeps_move_up|]. intros _. apply keeps_move_down.
  - apply keeps_move_down.
Qed.

Lemma keeps_add_paragraph (G : Prop) (s0 : t) (paragraph : Paragraph) :
  (G → size_fits (size paragraph)) →
  keeps (engine_ok G s0) (add_paragraph paragraph).
Proof.
  intros Hfit. eapply triple_weaken; [by apply add_paragraph_laid_out|done| |].
  - intros a s Hs. by apply laid_out_engine_ok.
  - intros e s [He Hs]. split; [done|]. by apply laid_out_engine_ok.
Qed.

Lemma engine_ok_same (G : Prop) (s0 s s' : t) :
  pages s' = pages s → current_page s' = current_page s →
  engine_ok G s0 s → engine_ok G s0 s'.
Proof.
  intros Hp Hc (Hok & Hext & Hm). unfold engine_ok, page_ok. by rewrite Hp, Hc.
Qed.

Lemma keeps_add_spacing (G : Prop) (s0 : t) (amount : float) :
  keeps (engine_ok G s0) (move_down amount).
Proof. apply triple_modify. intros s Hs. by apply (engine_ok_same G s0 s). Qed.

Lemma keeps_add_heading (G : Prop) (s0 : t) (text : pystr) (level : Z) :
  keeps (engine_ok G s0) (add_heading text level).
Proof.
  unfold add_heading.
  apply (triple_bind _ _ (fun _ s => engine_ok G s0 s)); [by apply triple_get|].
  intros s. cbv zeta. apply keeps_add_paragraph. intros _. simpl.
  destruct (level =? 1)%Z; [|destruct (level =? 2)%Z]; reflexivity.
Qed.

Lemma keeps_add_bullet_list (G : Prop) (s0 : t) (items : list pystr) :
  keeps (engine_ok G s0) (add_bullet_list items).
Proof.
  unfold add_bullet_list. apply keeps_bind.
  - apply keeps_for. intros item _. apply keeps_add_paragraph. intros _. reflexivity.
  - intros _. destruct (nonempty items); [apply keeps_add_spacing | apply keeps_ret].
Qed.

Lemma keeps_run_layout (G : Prop) (s0 : t) (calls : list layout_call) :
  (G → Forall call_fits calls) →
  keeps (engine_ok G s0) (run_layout calls).
Proof.
  intros Hfit. apply keeps_for. intros c Hc.
  assert (Hc' : G → call_fits c).
  { intros HG. specialize (Hfit HG). rewrite Forall_forall in Hfit. by apply Hfit. }
  destruct c as [text level|paragraph|items|amount]; simpl.
  - apply keeps_add_heading.
  - by apply keeps_add_paragraph.
  - apply keeps_add_bullet_list.
  - apply keeps_add_spacing.
Qed.

(** X18.  On an engine whose current page, if any, is the last page (as
    it is on a new engine), no sequence of [add_heading], [add_paragraph],
    [add_bullet_list] and [add_spacing] calls makes the assertion of
    [_append_command] fail; afterwards the current page is again the last
    page, and every page that was there before is still there, at its
    position and with its commands, possibly followed by more commands:
    pages and commands are only ever appended. *)
Theorem layout_only_appends (calls : list layout_call) (s : t) :
  page_ok s →
  (run_layout calls s).1 ≠ Raise AssertionError ∧
  page_ok (run_layout calls s).2 ∧
  extends (pages s) (pages (run_layout calls s).2).
Proof.
  intros Hok.
  assert (H0 : engine_ok False s s).
  { split; [done|]. split; [apply extends_refl | done]. }
  pose proof (keeps_run_layout False s calls ltac:(done) s H0) as H.
  destruct (run_layout calls s) as [[[]|e] s']; simpl in *.
  - by destruct H as (? & ? & _).
  - destruct H as (He & ? & ? & _). split; [congruence | done].
Qed.

Lemma layout_only_appends_witness :
  let s := __init__ (FontEncoder.__init__ (Fixture.parsed Fixture.sample_font)) in
  let calls := [AddHeading (lit "ABC") 1; AddBulletList [lit "A B"; lit "C"]] in
  (run_layout calls s).1 ≠ Raise AssertionError ∧
  page_ok (run_layout calls s).2 ∧
  extends (pages s) (pages (run_layout calls s).2).
Proof. intros s calls. apply layout_only_appends. reflexivity. Defined.

(** X19.  The layout draws no line at a height for which its page break
    test holds: when every paragraph passed to [add_paragraph] has a font
    size for which the test [y < MARGIN_BOTTOM + size] is false at the top of
    a page, [y = PAGE_HEIGHT - MARGIN_TOP] (the sizes of headings and list
    items are such sizes), then for every text command that the calls add,
    drawn at height [y] with size [size], the comparison
    [y < MARGIN_BOTTOM + size] of the two floats is false, on whichever page
    the command lands.  (The comparison is also false for a height that is
    not a number.) *)
Theorem layout_above_margin (calls : list layout_call) (s : t) :
  page_ok s →
  margin_ok (pages s) →
  Forall call_fits calls →
  margin_ok (pages (run_layout calls s).2).
Proof.
  intros Hok Hm Hfit.
  assert (H0 : engine_ok True s s).
  { split; [done|]. split; [apply extends_refl | done]. }
  pose proof (keeps_run_layout True s calls ltac:(done) s H0) as H.
  destruct (run_layout calls s) as [[[]|e] s']; simpl in *.
  - destruct H as (_ & _ & H). by apply H.
  - destruct H as (_ & _ & _ & H). by apply H.
Qed.

Lemma layout_above_margin_witness :
  let s := __init__ (FontEncoder.__init__ (Fixture.parsed Fixture.sample_font)) in
  let calls :=
    [AddHeading (lit "ABC") 2;
     AddParagraph (mkParagraph (lit "A B C") (lit "body") 700 0 0 None false 0)%float] in
  margin_ok (pages (run_layout calls s).2).
Proof.
  intros s calls. apply layout_above_margin.
  - reflexivity.
  - constructor.
  - repeat constructor.
Defined.

(** X20.  A paragraph with empty text draws nothing and registers no
    character, but it does open the first page when there is none; the
    cursor then moves down by [space_before + space_after]. *)
Theorem add_paragraph_empty (paragraph : Paragraph) (s : t) :
  text paragraph = [] →
  add_paragraph paragraph s
  = (Ok tt,
     match current_page s with
     | Some _ =>
         mk (font s) (pages s) (current_page s)
           (cursor_y s - (space_before paragraph + space_after paragraph))%float
     | None =>
         mk (font s) (pages s ++ [[]]) (Some (length (pages s)))
           (PAGE_HEIGHT - MARGIN_TOP
            - (space_before paragraph + space_after paragraph))%float
     end).
Proof.
  intros Htext. unfold add_paragraph, _ensure_page, mbind, M_mbind, M_bind, get.
  rewrite Htext. cbn [replace_nbsp map nonempty].
  destruct (current_page s) eqn:Hc; unfold move_down, modify; cbn; by rewrite ?Hc.
Qed.

Lemma add_paragraph_empty_witness :
  let s := __init__ (FontEncoder.__init__ (Fixture.parsed Fixture.sample_font)) in
  (add_paragraph (mkParagraph [] (lit "body") 12 3 4 None false 0)%float s).1 = Ok tt.
Proof.
  intros s.
  by rewrite (add_paragraph_empty (mkParagraph [] (lit "body") 12 3 4 None false 0)%float s
                eq_refl).
Defined.

End Layout.

(** ** Line breaking keeps the words *)

Lemma split_from_word (w s cur : pystr) :
  Forall (fun c => isspace c = false) w →
  split_from (w ++ s) cur = split_from s (cur ++ w).
Proof.
  intros Hw. revert cur. induction Hw as [|c w Hc Hw IH]; intros cur; simpl.
  - by rewrite app_nil_r.
  - rewrite Hc, IH. by rewrite <- app_assoc.
Qed.

Lemma split_from_space (s1 s2 cur : pystr) (c : N) :
  isspace c = true →
  split_from (s1 ++ c :: s2) cur = split_from s1 cur ++ split s2.
Proof.
  intros Hc. revert cur. induction s1 as [|a s1 IH]; intros cur; simpl.
  - rewrite Hc. by destruct (nonempty cur).
  - destruct (isspace a); [|apply IH].
    destruct (nonempty cur); simpl; by rewrite IH.
Qed.

Lemma split_space (s1 s2 : pystr) (c : N) :
  isspace c = true → split (s1 ++ c :: s2) = split s1 ++ split s2.
Proof. apply split_from_space. Qed.

Lemma split_word (w : pystr) : is_word w → split w = [w].
Proof.
  intros [Hne Hw]. unfold split.
  rewrite <- (app_nil_r w) at 1. rewrite split_from_word by done. simpl.
  by destruct w.
Qed.

Lemma split_blank_prefix (s1 s2 : pystr) :
  Forall (fun c => isspace c = true) s1 → split (s1 ++ s2) = split s2.
Proof.
  unfold split. induction 1 as [|c s1 Hc Hs1 IH]; simpl; [done|]. by rewrite Hc.
Qed.

Lemma split_blank (s : pystr) : Forall (fun c => isspace c = true) s → split s = [].
Proof. intros H. rewrite <- (app_nil_r s). by rewrite split_blank_prefix. Qed.

Lemma lstrip_nil (s : pystr) : lstrip s = [] → Forall (fun c => isspace c = true) s.
Proof.
  induction s as [|c s IH]; simpl; [constructor|].
  destruct (isspace c) eqn:Hc; [|done]. intros H. constructor; [done | by apply IH].
Qed.

Lemma lstrip_cons (s : pystr) (c : N) (r : pystr) :
  lstrip s = c :: r → isspace c = false.
Proof.
  induction s as [|a s IH]; simpl; [done|].
  destruct (isspace a) eqn:Ha; [done|]. intros H. by simplify_eq.
Qed.

Lemma strip_empty (s : pystr) :
  nonempty (strip s) = false → Forall (fun c => isspace c = true) s.
Proof.
  unfold strip. intros H. apply lstrip_nil.
  destruct (lstrip s) as [|c r] eqn:Hs; [done|]. exfalso.
  apply lstrip_cons in Hs.
  assert (Hr : lstrip (reverse (c :: r)) ≠ []).
  { intros Hnil. apply lstrip_nil in Hnil.
    rewrite Forall_forall in Hnil. specialize (Hnil c).
    rewrite Hnil in Hs; [done|]. apply elem_of_reverse, elem_of_cons. by left. }
  destruct (lstrip (reverse (c :: r))) as [|a l]; [done|].
  rewrite reverse_cons in H. by destruct (reverse l).
Qed.

Lemma split_from_words (s cur : pystr) :
  Forall (fun c => isspace c = false) cur →
  Forall is_word (split_from s cur).
Proof.
  revert cur. induction s as [|c s IH]; intros cur Hcur; simpl.
  - destruct cur as [|a cur]; simpl; [constructor|].
    constructor; [|constructor]. by split.
  - destruct (isspace c) eqn:Hc.
    + destruct cur as [|a cur]; simpl; [by apply IH|].
      constructor; [by split | by apply IH].
    + apply IH. apply Forall_app. split; [done|]. by constructor.
Qed.

Lemma split_words (s : pystr) : Forall is_word (split s).
Proof. by apply split_from_words. Qed.

Section Wrap.
Import LayoutEngine.

Lemma line_words_snoc (lines : list (float * pystr)) (indent : float) (line : pystr) :
  line_words (lines ++ [(indent, line)]) = line_words lines ++ split line.
Proof.
  unfold line_words. rewrite map_app, concat_app. simpl. by rewrite app_nil_r.
Qed.

(** Placing a word adds it behind the words placed so far. *)
Lemma place_word_words (paragraph : Paragraph) (space_width : float) (w : wrap)
    (word : pystr) (word_width : float) :
  is_word word →
  placed_words (place_word paragraph space_width w word word_width)
  = placed_words w ++ [word].
Proof.
  intros Hword. unfold place_word, placed_words. cbv zeta.
  destruct (_ || negb (nonempty (strip (line_text w)))) eqn:Hfit;
    cbn [lines line_text].
  - rewrite <- app_assoc. f_equal.
    destruct (nonempty (strip (line_text w))) eqn:Hblank.
    + rewrite <- app_assoc. change (lit " " ++ word) with (32 :: word).
      rewrite (split_space _ _ 32) by reflexivity. by rewrite (split_word word).
    + apply strip_empty in Hblank.
      by rewrite split_blank_prefix, (split_blank (line_text w)), (split_word word).
  - by rewrite line_words_snoc, (split_word word).
Qed.

Lemma wrap_words_words (paragraph : Paragraph) (space_width : float) (words : list pystr)
    (w w' : wrap) (s s' : t) :
  Forall is_word words →
  wrap_words paragraph space_width words w s = (Ok w', s') →
  placed_words w' = placed_words w ++ words.
Proof.
  intros Hwords. revert w s. induction Hwords as [|word words Hword Hwords IH];
    intros w s; simpl.
  - intros H. unfold mret, M_mret, M_ret in H. simplify_eq. by rewrite app_nil_r.
  - unfold mbind, M_mbind, M_bind.
    destruct (on_font _ s) as [[word_width|e] s1]; [|done].
    intros H. apply IH in H. rewrite H, place_word_words by done.
    by rewrite <- app_assoc.
Qed.

Lemma finished_lines_words (w : wrap) : line_words (finished_lines w) = placed_words w.
Proof.
  unfold finished_lines, placed_words. destruct (line_text w) as [|c l] eqn:Hl; simpl.
  - by rewrite app_nil_r.
  - by rewrite line_words_snoc.
Qed.

Lemma paragraph_lines_words_all (paragraph : Paragraph) (text : pystr)
    (lines : list (float * pystr)) (s s' : t) :
  paragraph_lines paragraph text s = (Ok lines, s') →
  line_words lines
  = (if bullet paragraph then [[0x2022]] else []) ++ split text.
Proof.
  unfold paragraph_lines. cbv zeta. unfold mbind, M_mbind, M_bind.
  destruct (bullet paragraph).
  - destruct (on_font _ s) as [[[]|e] s1]; [|done]. cbn [mret M_mret M_ret].
    destruct (move_down _ s1) as [[[]|e] s2]; [|done].
    destruct (on_font _ s2) as [[space_width|e] s3]; [|done].
    cbn [nonempty bullet_prefix].
    destruct (on_font _ s3) as [[line_width|e] s4]; [|done].
    destruct (wrap_words _ _ _ _ s4) as [[w|e] s5] eqn:Hw; [|done].
    apply wrap_words_words in Hw; [|apply split_words].
    unfold mret, M_mret, M_ret. intros H. simplify_eq.
    rewrite finished_lines_words, Hw. f_equal.
  - cbn [mret M_mret M_ret].
    destruct (move_down _ s) as [[[]|e] s2]; [|done].
    destruct (on_font _ s2) as [[space_width|e] s3]; [|done].
    cbn [nonempty mret M_mret M_ret].
    destruct (wrap_words _ _ _ _ s3) as [[w|e] s5] eqn:Hw; [|done].
    apply wrap_words_words in Hw; [|apply split_words].
    unfold mret, M_mret, M_ret. intros H. simplify_eq.
    by rewrite finished_lines_words, Hw.
Qed.

(** X21.  Line breaking loses no word and keeps their order: when the
    part of [add_paragraph] that computes the lines returns, the words of
    the lines, read line by line, are the bullet (for a bullet paragraph)
    followed by the words of the text, whatever the widths. *)
Theorem paragraph_lines_words (paragraph : Paragraph) (text : pystr)
    (lines : list (float * pystr)) (s s' : t) :
  paragraph_lines paragraph text s = (Ok lines, s') →
  line_words lines
  = (if bullet paragraph then [[0x2022]] else []) ++ split text.
Proof. apply paragraph_lines_words_all. Qed.

Lemma paragraph_lines_words_witness :
  let s := __init__ (FontEncoder.__init__ (Fixture.parsed Fixture.sample_font)) in
  let paragraph := mkParagraph (lit "AB  C") (lit "body") 400 0 0 None true 0 in
  ∃ lines s',
    paragraph_lines paragraph (lit "AB  C") s = (Ok lines, s') ∧
    line_words lines = [[0x2022]; lit "AB"; lit "C"].
Proof.
  intros s paragraph. eexists _, _. split; [vm_compute; reflexivity|].
  refine (paragraph_lines_words paragraph (lit "AB  C") _ s _ _).
  vm_compute. reflexivity.
Defined.

End Wrap.

(** * The objects of the document *)

Lemma M_bind_Ok {S A B} (m : M S A) (f : A → M S B) (s s' : S) (b : B) :
  (m ≫= f) s = (Ok b, s') → ∃ a s1, m s = (Ok a, s1) ∧ f a s1 = (Ok b, s').
Proof.
  unfold mbind, M_mbind, M_bind. destruct (m s) as [[a|e] s1]; [|done].
  intros H. by exists a, s1.
Qed.

Lemma lift_Ok {S A} (r : result A) (s s' : S) (a : A) :
  lift r s = (Ok a, s') → r = Ok a ∧ s' = s.
Proof. unfold lift. intros H. by simplify_eq. Qed.

Tactic Notation "run_bind" hyp(H) "as" ident(a) ident(s) ident(Ha) :=
  apply M_bind_Ok in H; destruct H as (a & s & Ha & H).

Tactic Notation "run_lift" hyp(H) "as" ident(a) ident(Ha) :=
  let s := fresh "s" in
  apply M_bind_Ok in H; destruct H as (a & s & Ha & H);
  apply lift_Ok in Ha; destruct Ha as [Ha ->].

Section Objects.
Import PDFDocument.

Variable zlib_compress : bytes → bytes.
Variable str_float : Q → pystr.

Lemma add_object_of_Ok (d : pydict) (e e' : FontEncoder.t) (w w' : world) (r : nat) :
  FontEncoder.add_object_of d (e, w) = (Ok r, (e', w')) →
  ∃ b, encode_utf8 (dict_text d) = Ok b ∧
       r = S (length (objects (self w))) ∧
       objects (self w') = objects (self w) ++ [b] ∧
       trailer_extra (self w') = trailer_extra (self w) ∧
       e' = e.
Proof.
  unfold FontEncoder.add_object_of, FontEncoder.on_pdf, add_object, dict_new,
    mbind, M_mbind, M_bind, deref, lift, objects_append, objects_len.
  destruct w as [h doc]. cbn [heap self fst snd].
  rewrite lookup_snoc. cbn [default from_option id].
  destruct (encode_utf8 (dict_text d)) as [b|x];
    cbn [heap self objects trailer_extra fst snd]; [|done].
  intros H. simplify_eq. exists b. cbn [heap self objects trailer_extra].
  repeat split. rewrite length_app. simpl. lia.
Qed.

Lemma add_stream_of_Ok (d : pydict) (data : bytes) (e e' : FontEncoder.t)
    (w w' : world) (r : nat) :
  FontEncoder.add_stream_of zlib_compress d data (e, w) = (Ok r, (e', w')) →
  ∃ b, compressed_stream zlib_compress d data = Ok b ∧
       r = S (length (objects (self w))) ∧
       objects (self w') = objects (self w) ++ [b] ∧
       trailer_extra (self w') = trailer_extra (self w) ∧
       e' = e.
Proof.
  unfold FontEncoder.add_stream_of, FontEncoder.on_pdf, add_stream, dict_new,
    compressed_stream, stream_object,
    mbind, M_mbind, M_bind, dict_copy, dict_setitem, deref, lift, objects_append,
    objects_len, mret, M_mret, M_ret.
  destruct w as [h doc]. cbn [heap self fst snd].
  repeat (first [rewrite lookup_snoc | rewrite insert_snoc];
          cbn [default from_option id heap self fst snd length]).
  match goal with |- context [encode_utf8 ?t] => destruct (encode_utf8 t) as [header|x] end;
    cbn [heap self objects trailer_extra fst snd result_bind result_mbind]; [|done].
  intros H. simplify_eq. eexists. cbn [heap self objects trailer_extra].
  split; [done|]. split; [|done]. rewrite length_app. simpl. lia.
Qed.

Lemma on_self_get_Ok (s s' : FontEncoder.t * world) (a : FontEncoder.t) :
  FontEncoder.on_self get s = (Ok a, s') → a = s.1 ∧ s' = s.
Proof.
  unfold FontEncoder.on_self, get. destruct s as [e w]. simpl.
  intros H. by simplify_eq.
Qed.

Lemma font_objects_six (self0 : FontEncoder.t) (n : nat) (objs : list bytes) :
  font_objects zlib_compress str_float self0 n = Ok objs →
  ∃ c1 c2 c3 c4 c5 c6, objs = [c1; c2; c3; c4; c5; c6].
Proof.
  unfold font_objects. cbv zeta. intros H.
  repeat (let x := fresh "x" in let Hx := fresh "Hx" in inv_bind H as x Hx).
  simplify_eq. by eexists _, _, _, _, _, _.
Qed.

Lemma build_pdf_objects_run (e e' : FontEncoder.t) (w w' : world) (font_obj : nat) :
  FontEncoder.build_pdf_objects zlib_compress str_float (e, w) = (Ok font_obj, (e', w')) →
  let n := length (objects (self w)) in
  e' = match FontEncoder.used_chars e with
       | [] => FontEncoder.ensure_text (lit " ") e
       | _ => e
       end ∧
  ∃ objs,
    font_objects zlib_compress str_float e' n = Ok objs ∧
    objects (self w') = objects (self w) ++ objs ∧
    font_obj = (n + 6)%nat ∧
    trailer_extra (self w') = trailer_extra (self w).
Proof.
  intros H n. unfold FontEncoder.build_pdf_objects in H.
  run_bind H as self0 s0 H0. apply on_self_get_Ok in H0 as [-> ->]. cbn [fst] in H.
  run_bind H as u s1 H1.
  assert (Hs1 : s1 = (match FontEncoder.used_chars e with
                      | [] => FontEncoder.ensure_text (lit " ") e
                      | _ => e
                      end, w)).
  { destruct (FontEncoder.used_chars e); [|by apply lift_Ok in H1 as [_ ->]].
    unfold FontEncoder.on_self, modify in H1. simpl in H1. by simplify_eq. }
  subst s1. clear H1.
  run_bind H as self1 s2 H2. apply on_self_get_Ok in H2 as [-> ->]. cbn [fst] in H.
  cbv zeta in H.
  set (e1 := match FontEncoder.used_chars e with
             | [] => FontEncoder.ensure_text (lit " ") e
             | _ => e
             end) in *.
  run_lift H as widths Hwidths. run_lift H as cid Hcid.
  run_bind H as cid_map_obj s3 H3. destruct s3 as [e3 w3].
  apply add_stream_of_Ok in H3 as (cid_map & Hb3 & -> & Ho3 & Ht3 & ->).
  run_lift H as entries Hentries. run_lift H as cmap_bytes Hcmap.
  run_bind H as to_unicode_obj s4 H4. destruct s4 as [e4 w4].
  apply add_stream_of_Ok in H4 as (to_unicode & Hb4 & -> & Ho4 & Ht4 & ->).
  run_bind H as font_file_obj s5 H5. destruct s5 as [e5 w5].
  apply add_stream_of_Ok in H5 as (font_file & Hb5 & -> & Ho5 & Ht5 & ->).
  run_lift H as ascent Hascent. run_lift H as descent Hdescent.
  run_lift H as cap_height Hcap.
  run_lift H as bx0 Hbx0. run_lift H as by0 Hby0.
  run_lift H as bx1 Hbx1. run_lift H as by1 Hby1.
  run_bind H as descriptor_obj s6 H6. destruct s6 as [e6 w6].
  apply add_object_of_Ok in H6 as (descriptor & Hb6 & -> & Ho6 & Ht6 & ->).
  run_bind H as descendant_obj s7 H7. destruct s7 as [e7 w7].
  apply add_object_of_Ok in H7 as (descendant & Hb7 & -> & Ho7 & Ht7 & ->).
  apply add_object_of_Ok in H as (type0 & Hb8 & -> & Ho8 & Ht8 & ->).
  assert (L3 : length (objects (self w3)) = (n + 1)%nat)
    by (rewrite Ho3, length_app; simpl; lia).
  assert (L4 : length (objects (self w4)) = (n + 2)%nat)
    by (rewrite Ho4, length_app; simpl; lia).
  assert (L5 : length (objects (self w5)) = (n + 3)%nat)
    by (rewrite Ho5, length_app; simpl; lia).
  assert (L6 : length (objects (self w6)) = (n + 4)%nat)
    by (rewrite Ho6, length_app; simpl; lia).
  assert (L7 : length (objects (self w7)) = (n + 5)%nat)
    by (rewrite Ho7, length_app; simpl; lia).
  fold n in Hb6, Hb7, Hb8.
  rewrite L4 in Hb6. rewrite L5 in Hb7. rewrite L3, L6 in Hb8. rewrite L7.
  replace (S (n + 2)) with (n + 3)%nat in Hb6 by lia.
  replace (S (n + 3)) with (n + 4)%nat in Hb7 by lia.
  replace (S n) with (n + 1)%nat in Hb7 by lia.
  replace (S (n + 4)) with (n + 5)%nat in Hb8 by lia.
  replace (S (n + 1)) with (n + 2)%nat in Hb8 by lia.
  split; [done|].
  exists [cid_map; to_unicode; font_file; descriptor; descendant; type0].
  split; [|split; [|split; [lia | congruence]]].
  - unfold font_objects. cbv zeta.
    rewrite Hwidths. cbn [mbind result_mbind result_bind].
    rewrite Hcid. cbn [mbind result_mbind result_bind].
    rewrite Hb3. cbn [mbind result_mbind result_bind].
    rewrite Hentries. cbn [mbind result_mbind result_bind].
    rewrite Hcmap. cbn [mbind result_mbind result_bind].
    rewrite Hb4. cbn [mbind result_mbind result_bind].
    rewrite Hb5. cbn [mbind result_mbind result_bind].
    rewrite Hascent. cbn [mbind result_mbind result_bind].
    rewrite Hdescent. cbn [mbind result_mbind result_bind].
    rewrite Hcap. cbn [mbind result_mbind result_bind].
    rewrite Hbx0. cbn [mbind result_mbind result_bind].
    rewrite Hby0. cbn [mbind result_mbind result_bind].
    rewrite Hbx1. cbn [mbind result_mbind result_bind].
    rewrite Hby1. cbn [mbind result_mbind result_bind].
    unfold font_descriptor_dict. rewrite Hb6. cbn [mbind result_mbind result_bind].
    unfold descendant_font_dict. rewrite Hb7. cbn [mbind result_mbind result_bind].
    unfold type0_font_dict. rewrite Hb8. done.
  - rewrite Ho8, Ho7, Ho6, Ho5, Ho4, Ho3. by rewrite <- !app_assoc.
Qed.

(** X22.  When [build_pdf_objects] returns, it has appended exactly six
    objects to the document, in this order: the CIDToGIDMap stream (the
    packed glyph ids, compressed), the ToUnicode stream (the CMap text,
    compressed), the font file stream (the font data, compressed, with its
    [Length1]), the font descriptor, which refers to the font file by its
    number, the descendant CID font, which refers to the descriptor and to
    the CIDToGIDMap by their numbers and holds [DW] and [W], and the Type 0
    font, which refers to the descendant font and to the ToUnicode stream;
    it returns the number of the last one.  The objects that were there
    before and the trailer entries are untouched, and the encoder changes
    only by the registration of a space when no character was
    registered. *)
Theorem build_pdf_objects_appends (e e' : FontEncoder.t) (w w' : world) (font_obj : nat) :
  FontEncoder.build_pdf_objects zlib_compress str_float (e, w) = (Ok font_obj, (e', w')) →
  let n := length (objects (self w)) in
  e' = match FontEncoder.used_chars e with
       | [] => FontEncoder.ensure_text (lit " ") e
       | _ => e
       end ∧
  ∃ objs,
    font_objects zlib_compress str_float e' n = Ok objs ∧
    objects (self w') = objects (self w) ++ objs ∧
    font_obj = (n + 6)%nat ∧
    trailer_extra (self w') = trailer_extra (self w).
Proof. apply build_pdf_objects_run. Qed.

Local Open Scope nat_scope.

Lemma add_pages_Ok (pages : list (list pystr)) (font_obj : nat) (acc : list nat)
    (e e' : FontEncoder.t) (w w' : world) (r : list nat) :
  add_pages zlib_compress pages font_obj acc (e, w) = (Ok r, (e', w')) →
  let len := length (objects (self w)) in
  length (objects (self w')) = len + 2 * length pages ∧
  r = acc ++ map (fun k => len + 2 * k + 2) (seq 0 (length pages)) ∧
  (∀ i b, objects (self w) !! i = Some b → objects (self w') !! i = Some b) ∧
  (∀ k, k < length pages →
     ∃ b, objects (self w') !! (len + 2 * k + 1) = Some b ∧
          encode_utf8 (dict_text (page_dict (len + 2 * k + 1) font_obj)) = Ok b) ∧
  trailer_extra (self w') = trailer_extra (self w) ∧
  e' = e.
Proof.
  revert acc e w. induction pages as [|commands pages IH]; intros acc e w H len.
  - cbn [add_pages] in H. unfold mret, M_mret, M_ret in H. simplify_eq.
    cbn [length seq map]. rewrite app_nil_r. repeat split; try done; try lia.
  - cbn [add_pages] in H.
    run_lift H as content Hcontent.
    run_bind H as content_obj s1 H1. destruct s1 as [e1 w1].
    apply add_stream_of_Ok in H1 as (stream & _ & -> & Ho1 & Ht1 & ->).
    run_bind H as page_obj s2 H2. destruct s2 as [e2 w2].
    apply add_object_of_Ok in H2 as (page & Hpage & -> & Ho2 & Ht2 & ->).
    apply IH in H as (Hlen & -> & Hkeep & Hpages & Htr & ->).
    assert (L1 : length (objects (self w1)) = len + 1)
      by (rewrite Ho1, length_app; simpl; lia).
    assert (L2 : length (objects (self w2)) = len + 2)
      by (rewrite Ho2, length_app; simpl; lia).
    rewrite L1 in *. rewrite L2 in *. fold len in Hpage.
    split; [cbn [length]; lia|]. split; [|split; [|split; [|split; [congruence | done]]]].
    + rewrite <- app_assoc. f_equal. cbn [length seq map app]. f_equal; [lia|].
      rewrite <- seq_shift, map_map. apply map_ext. intros k. lia.
    + intros i b Hb. apply Hkeep. rewrite Ho2, Ho1.
      by do 2 apply lookup_app_l_Some.
    + intros [|k] Hk.
      * exists page. split.
        -- apply Hkeep. rewrite Ho2. replace (len + 2 * 0 + 1) with (length (objects (self w1)))
             by lia. apply lookup_snoc.
        -- by replace (len + 2 * 0 + 1) with (S len) by lia.
      * destruct (Hpages k) as (b & Hb & Henc); [cbn [length] in Hk; lia|].
        exists b. split.
        -- by replace (len + 2 * S k + 1) with (len + 2 + 2 * k + 1) by lia.
        -- by replace (len + 2 * S k + 1) with (len + 2 + 2 * k + 1) by lia.
Qed.

Lemma build_document_run (pages : list (list pystr)) (e e' : FontEncoder.t)
    (w w' : world) (pages_obj catalog_obj : nat) :
  objects (self w) = [] →
  build_document zlib_compress str_float pages (e, w)
  = (Ok (pages_obj, catalog_obj), (e', w')) →
  let n := length pages in
  pages_obj = 2 * n + 7 ∧
  catalog_obj = 2 * n + 8 ∧
  length (objects (self w')) = 2 * n + 8 ∧
  (∀ k, k < n →
     ∃ b, objects (self w') !! (2 * k + 7) = Some b ∧
          encode_utf8 (dict_text (page_dict (2 * k + 7) 6)) = Ok b) ∧
  (∃ b, objects (self w') !! (2 * n + 6) = Some b ∧
        encode_utf8 (dict_text (pages_dict (map (fun k => 2 * k + 8) (seq 0 n)))) = Ok b).
Proof.
  intros Hnew H n. unfold build_document in H.
  run_bind H as font_obj s1 H1. destruct s1 as [e1 w1].
  apply build_pdf_objects_run in H1 as (_ & objs & Hobjs & Ho1 & -> & _).
  apply font_objects_six in Hobjs as (c1 & c2 & c3 & c4 & c5 & c6 & ->).
  rewrite Hnew in Ho1. rewrite Hnew in H. cbn [app length Nat.add] in Ho1, H.
  run_bind H as pages_objects s2 H2. destruct s2 as [e2 w2].
  apply add_pages_Ok in H2 as (Hlen & -> & Hkeep & Hpages & _ & ->).
  rewrite Ho1 in Hlen, Hpages. cbn [length app] in Hlen, Hpages. fold n in Hlen, Hpages.
  run_bind H as pages_obj' s3 H3. destruct s3 as [e3 w3].
  apply add_object_of_Ok in H3 as (pages_bytes & Hpb & -> & Ho3 & _ & ->).
  run_bind H as catalog_obj' s4 H4. destruct s4 as [e4 w4].
  apply add_object_of_Ok in H4 as (catalog_bytes & _ & -> & Ho4 & _ & ->).
  unfold mret, M_mret, M_ret in H. simplify_eq.
  rewrite Ho3, length_app, Hlen. cbn [length].
  split; [lia|]. split; [lia|]. rewrite Ho4, length_app, Ho3, length_app, Hlen.
  cbn [length]. split; [lia|]. split.
  - intros k Hk. destruct (Hpages k Hk) as (b & Hb & Henc). exists b. split.
    + do 2 apply lookup_app_l_Some. by replace (2 * k + 7) with (6 + 2 * k + 1) by lia.
    + by replace (2 * k + 7) with (6 + 2 * k + 1) by lia.
  - exists pages_bytes. split.
    + apply lookup_app_l_Some.
      replace (2 * n + 6) with (6 + 2 * n) by lia. rewrite <- Hlen. apply lookup_snoc.
    + rewrite <- Hpb, Ho1. cbn [app length]. do 3 f_equal.
      apply map_ext. intros k. lia.
Qed.

(** X23.  In the document [build_pdf] assembles (a new document, the six
    font objects first), page [k] of [n] (counted from 0) is object
    [2k + 8] with its content stream in object [2k + 7], the page tree
    root is object [2n + 7] and lists exactly these page objects as its
    kids, and the catalog is object [2n + 8], the last one.  Every page
    dictionary names ["2 0 R"] as its parent: that is the ToUnicode stream
    of the font, never the page tree root. *)
Theorem build_document_page_tree (pages : list (list pystr)) (e e' : FontEncoder.t)
    (w w' : world) (pages_obj catalog_obj : nat) :
  objects (self w) = [] →
  build_document zlib_compress str_float pages (e, w)
  = (Ok (pages_obj, catalog_obj), (e', w')) →
  let n := length pages in
  pages_obj = 2 * n + 7 ∧
  catalog_obj = 2 * n + 8 ∧
  length (objects (self w')) = 2 * n + 8 ∧
  (∀ k, k < n →
     ∃ b, objects (self w') !! (2 * k + 7) = Some b ∧
          encode_utf8 (dict_text (page_dict (2 * k + 7) 6)) = Ok b) ∧
  (∃ b, objects (self w') !! (2 * n + 6) = Some b ∧
        encode_utf8 (dict_text (pages_dict (map (fun k => 2 * k + 8) (seq 0 n)))) = Ok b).
Proof. apply build_document_run. Qed.

End Objects.

Lemma build_pdf_objects_appends_witness :
  let e := FontEncoder.__init__ (Fixture.parsed Fixture.sample_font) in
  let w := PDFDocument.World [] PDFDocument.__init__ in
  ∃ e' w',
    FontEncoder.build_pdf_objects (fun b => b) (fun _ => lit "0.0") (e, w)
    = (Ok 6%nat, (e', w')) ∧
    length (PDFDocument.objects (PDFDocument.self w')) = 6%nat.
Proof.
  intros e w.
  assert (H : ∃ e' w',
            FontEncoder.build_pdf_objects (fun b => b) (fun _ => lit "0.0") (e, w)
            = (Ok 6%nat, (e', w')))
    by (eexists _, _; vm_compute; reflexivity).
  destruct H as (e' & w' & H). exists e', w'. split; [exact H|].
  destruct (build_pdf_objects_appends (fun b => b) (fun _ => lit "0.0") e e' w w' 6%nat H)
    as (_ & objs & Hobjs & Hobj & _).
  rewrite Hobj. cbn [app].
  apply font_objects_six in Hobjs as (c1 & c2 & c3 & c4 & c5 & c6 & ->). done.
Defined.

Lemma build_document_page_tree_witness :
  let e := FontEncoder.__init__ (Fixture.parsed Fixture.sample_font) in
  let w := PDFDocument.World [] PDFDocument.__init__ in
  ∃ e' w',
    build_document (fun b => b) (fun _ => lit "0.0") [[lit "0 0 0 rg"]] (e, w)
    = (Ok (9%nat, 10%nat), (e', w')) ∧
    length (PDFDocument.objects (PDFDocument.self w')) = 10%nat.
Proof.
  intros e w.
  assert (H : ∃ e' w',
            build_document (fun b => b) (fun _ => lit "0.0") [[lit "0 0 0 rg"]] (e, w)
            = (Ok (9%nat, 10%nat), (e', w')))
    by (eexists _, _; vm_compute; reflexivity).
  destruct H as (e' & w' & H). exists e', w'. split; [exact H|].
  destruct (build_document_page_tree (fun b => b) (fun _ => lit "0.0") [[lit "0 0 0 rg"]]
              e e' w w' 9%nat 10%nat eq_refl H) as (_ & _ & Hlen & _).
  exact Hlen.
Defined.

(** ** Line breaking: widths and indents *)

Section Fit.
Import LayoutEngine.

Variable fnt : TrueTypeFont.t.

(** [measure_text] on the engine's encoder returns or raises what the
    font alone determines, and leaves the pages and the cursor alone. *)
Lemma text_width_measure (text : pystr) (font_size : float) (s : t) :
  encoder_of fnt s →
  ∃ f', on_font (FontEncoder.measure_text text font_size) s
        = (text_width fnt font_size text,
           mk f' (pages s) (current_page s) (cursor_y s)) ∧
        ∃ trace, tracked fnt trace f'.
Proof.
  intros [trace Htr]. unfold on_font.
  destruct (measure_text_spec fnt text trace (font s) font_size Htr) as [Htr' Hres].
  destruct (FontEncoder.measure_text text font_size (font s)) as [r f'].
  cbn [fst snd] in *. subst r. exists f'. split; [|by eexists].
  unfold text_width. by destruct (text_units fnt text).
Qed.

Lemma measure_on_font (text : pystr) (font_size v : float) (s s1 : t) :
  encoder_of fnt s →
  on_font (FontEncoder.measure_text text font_size) s = (Ok v, s1) →
  text_width fnt font_size text = Ok v ∧ encoder_of fnt s1.
Proof.
  intros Henc H. destruct (text_width_measure text font_size s Henc) as (f' & Heq & Htr).
  rewrite Heq in H. by simplify_eq.
Qed.

Lemma text_width_Ok (font_size : float) (text : pystr) (v : float) :
  text_width fnt font_size text = Ok v →
  ∃ total, text_units fnt text = Some total ∧
           FontEncoder.scale total (TrueTypeFont.units_per_em fnt) font_size = Ok v.
Proof.
  unfold text_width. destruct (text_units fnt text) as [total|]; [|done].
  intros H. by exists total.
Qed.

Section Size.

Variable font_size : float.
Hypothesis size_nonneg : (0 <=? font_size)%float = true.
Hypothesis size_finite : (font_size <? infinity)%float = true.

Lemma text_width_nonneg (text : pystr) (v : float) :
  text_width fnt font_size text = Ok v → (0 <=? v)%float = true.
Proof.
  intros (total & _ & H)%text_width_Ok.
  apply scale_Ok in H as (_ & q & Hq & ->).
  apply Binary64Facts.int_truediv_Ok in Hq as [_ Hq].
  apply Binary64Facts.mul_nonneg; [done|].
  rewrite <- Binary64Facts.finite_nonneg_prim. by rewrite size_nonneg, size_finite.
Qed.

(** A part of a text is measured when the text is, and is not wider. *)
Lemma text_width_substring (pre w post : pystr) (wd : float) :
  text_width fnt font_size (pre ++ w ++ post) = Ok wd →
  ∃ ww, text_width fnt font_size w = Ok ww ∧ (ww <=? wd)%float = true.
Proof.
  intros (u & Hu & H)%text_width_Ok. rewrite !text_units_app in Hu.
  destruct (text_units fnt pre) as [upre|]; [|done].
  destruct (text_units fnt w) as [uw|] eqn:Huw; [|done].
  destruct (text_units fnt post) as [upost|]; [|done]. simplify_eq.
  unfold text_width. rewrite Huw.
  apply (scale_monotone uw (upre + (uw + upost))); [lia | done..].
Qed.

Lemma old_line_ok (w : wrap) :
  wrap_ok fnt font_size w →
  words_fit fnt font_size (line_indent w, line_text w)
  ∨ single_word (line_indent w, line_text w).
Proof.
  intros [Hav Hnn Hcur Hfit _]. destruct Hfit as [Hle|Hone]; [left | by right].
  intros word Hword. destruct (Hcur word Hword) as (width & Hwidth & Hw).
  exists width. split; [done|]. unfold line_available. cbn [fst]. rewrite <- Hav.
  apply (Binary64Facts.leb_trans _ (line_width w)); [|done..].
  by apply (text_width_nonneg word).
Qed.

(** Placing a word keeps the state of the loop in order. *)
Lemma place_word_ok (paragraph : Paragraph) (w : wrap) (word : pystr)
    (space_width word_width : float) :
  wrap_ok fnt font_size w →
  is_word word →
  text_width fnt font_size (lit " ") = Ok space_width →
  text_width fnt font_size word = Ok word_width →
  wrap_ok fnt font_size (place_word paragraph space_width w word word_width).
Proof.
  intros Hw Hword Hspace Hwidth.
  pose proof (old_line_ok _ Hw) as Hold.
  pose proof (text_width_nonneg _ _ Hspace) as Hsp0.
  pose proof (text_width_nonneg _ _ Hwidth) as Hww0.
  destruct Hw as [Hav Hnn Hcur Hfits Hlines].
  unfold place_word. cbv zeta.
  destruct (nonempty (strip (line_text w))) eqn:Hblank; cbn [negb orb].
  - rewrite orb_false_r.
    destruct (Binary64Facts.add_nonneg _ _ Hnn Hsp0) as (Hls0 & Hls1 & _).
    destruct (Binary64Facts.add_nonneg _ _ Hls0 Hww0) as (Hp0 & Hp1 & Hp2).
    destruct (line_width w + space_width + word_width <=? available_width w)%float eqn:Hfit.
    + split; cbn [LayoutEngine.lines LayoutEngine.line_indent LayoutEngine.line_text
                  LayoutEngine.line_width LayoutEngine.available_width].
      * done.
      * done.
      * intros word0. rewrite <- app_assoc. change (lit " " ++ word) with (32 :: word).
        rewrite (split_space _ _ 32) by reflexivity. rewrite (split_word word) by done.
        intros [Hold0 | ->%list_elem_of_singleton]%elem_of_app.
        -- destruct (Hcur word0 Hold0) as (width & Hwd & Hle). exists width.
           split; [done|].
           pose proof (text_width_nonneg _ _ Hwd) as Hwd0.
           apply (Binary64Facts.leb_trans _ (line_width w + space_width)%float);
             [done | | done].
           by apply (Binary64Facts.leb_trans _ (line_width w)).
        -- by exists word_width.
      * by left.
      * done.
    + split; cbn [LayoutEngine.lines LayoutEngine.line_indent LayoutEngine.line_text
                  LayoutEngine.line_width LayoutEngine.available_width].
      * done.
      * done.
      * rewrite (split_word word) by done. intros word0 ->%list_elem_of_singleton.
        exists word_width. split; [done|]. by apply Binary64Facts.leb_refl.
      * right. unfold single_word. cbn [snd]. by rewrite split_word.
      * apply Forall_app. split; [done|]. by constructor.
  - rewrite orb_true_r.
    destruct (Binary64Facts.add_nonneg _ _ Hnn Hww0) as (Hp0 & Hp1 & Hp2).
    apply strip_empty in Hblank.
    split; cbn [LayoutEngine.lines LayoutEngine.line_indent LayoutEngine.line_text
                LayoutEngine.line_width LayoutEngine.available_width].
    + done.
    + done.
    + rewrite split_blank_prefix, (split_word word) by done.
      intros word0 ->%list_elem_of_singleton. by exists word_width.
    + right. unfold single_word. cbn [snd].
      by rewrite split_blank_prefix, (split_word word).
    + done.
Qed.

End Size.

Lemma wrap_words_ok (paragraph : Paragraph) (space_width : float) (words : list pystr)
    (w w' : wrap) (s s' : t) :
  (0 <=? size paragraph)%float = true →
  (size paragraph <? infinity)%float = true →
  encoder_of fnt s →
  Forall is_word words →
  text_width fnt (size paragraph) (lit " ") = Ok space_width →
  wrap_ok fnt (size paragraph) w →
  wrap_words paragraph space_width words w s = (Ok w', s') →
  wrap_ok fnt (size paragraph) w'.
Proof.
  intros Hnn Hfin Henc Hwords Hspace. revert w s Henc.
  induction Hwords as [|word words Hword Hwords IH]; intros w s Henc Hw; simpl.
  - unfold mret, M_mret, M_ret. intros H. by simplify_eq.
  - intros H. run_bind H as word_width s1 H1.
    apply measure_on_font in H1 as [Hwidth Henc1]; [|done].
    apply (IH _ s1 Henc1) in H; [done|]. by apply place_word_ok.
Qed.

Lemma paragraph_lines_fit_all (paragraph : Paragraph) (text : pystr)
    (lines : list (float * pystr)) (s s' : t) :
  (0 <=? size paragraph)%float = true →
  (size paragraph <? infinity)%float = true →
  encoder_of fnt s →
  paragraph_lines paragraph text s = (Ok lines, s') →
  Forall (fun l => words_fit fnt (size paragraph) l ∨ single_word l) lines.
Proof.
  intros Hnn Hfin Henc H.
  unfold paragraph_lines in H. cbv zeta in H.
  run_bind H as prefix s1 H1.
  assert (Hs1 : encoder_of fnt s1 ∧ (prefix = [] ∨ prefix = bullet_prefix)).
  { destruct (bullet paragraph).
    - run_bind H1 as u s0 H0. unfold mret, M_mret, M_ret in H1. simplify_eq.
      split; [|by right].
      destruct Henc as [trace Htr]. unfold on_font, modify in H0. simplify_eq.
      eexists. cbn [font]. by apply tracked_ensure_text.
    - unfold mret, M_mret, M_ret in H1. simplify_eq. split; [done | by left]. }
  destruct Hs1 as (Henc1 & Hprefix). clear H1.
  run_bind H as u s2 H2.
  assert (Henc2 : encoder_of fnt s2).
  { unfold move_down, modify in H2. simplify_eq. exact Henc1. }
  clear H2. run_bind H as space_width s3 H3.
  apply measure_on_font in H3 as [Hspace Henc3]; [|done].
  run_bind H as line_width s4 H4.
  assert (Hinit : encoder_of fnt s4 ∧
            wrap_ok fnt (size paragraph)
              (mkWrap [] (indent paragraph) prefix line_width
                 (max_width - indent paragraph)%float)).
  { destruct Hprefix as [-> | ->]; cbn [nonempty bullet_prefix] in H4.
    - unfold mret, M_mret, M_ret in H4. simplify_eq. split; [done|].
      split; cbn [LayoutEngine.lines LayoutEngine.line_indent LayoutEngine.line_text
                  LayoutEngine.line_width LayoutEngine.available_width].
      + done.
      + reflexivity.
      + intros word Hword. by apply elem_of_nil in Hword.
      + right. unfold single_word. cbn [snd split split_from nonempty length]. lia.
      + constructor.
    - apply measure_on_font in H4 as [Hwidth Henc4]; [|done]. split; [done|].
      split; cbn [LayoutEngine.lines LayoutEngine.line_indent LayoutEngine.line_text
                  LayoutEngine.line_width LayoutEngine.available_width].
      + done.
      + by apply (text_width_nonneg (size paragraph) Hnn Hfin [0x2022; 32]).
      + change (split [0x2022; 32]) with [[0x2022]].
        intros word ->%list_elem_of_singleton.
        by apply (text_width_substring (size paragraph) Hnn Hfin [] [0x2022] [32]).
      + right. unfold single_word. cbn [snd]. by vm_compute.
      + constructor. }
  destruct Hinit as [Henc4 Hinit]. clear H4.
  run_bind H as w s5 H5.
  apply (wrap_words_ok _ _ _ _ _ _ _ Hnn Hfin Henc4 (split_words text) Hspace Hinit) in H5.
  unfold mret, M_mret, M_ret in H. simplify_eq.
  unfold finished_lines. destruct (nonempty (line_text w)); [|by destruct H5].
  apply Forall_app. split; [by destruct H5|].
  constructor; [by apply old_line_ok | constructor].
Qed.

Lemma split_from_substring (s cur w : pystr) :
  w ∈ split_from s cur → ∃ pre post, cur ++ s = pre ++ w ++ post.
Proof.
  revert cur. induction s as [|c s IH]; intros cur; simpl.
  - destruct cur as [|a cur]; simpl; [by intros ?%elem_of_nil|].
    intros ->%list_elem_of_singleton. exists [], []. by rewrite !app_nil_r.
  - destruct (isspace c).
    + assert (Hrest : w ∈ split_from s [] → ∃ pre post, cur ++ c :: s = pre ++ w ++ post).
      { intros (pre & post & Hs)%IH. exists (cur ++ c :: pre), post.
        simpl in Hs. rewrite Hs. by rewrite <- app_assoc. }
      destruct cur as [|a cur]; simpl; [exact Hrest|].
      intros [->|Hw]%elem_of_cons; [|by apply Hrest].
      exists [], (c :: s). done.
    + intros (pre & post & Hs)%IH. exists pre, post.
      rewrite <- Hs. by rewrite <- app_assoc.
Qed.

(** *** The methods return *)

Lemma returns_bind {A B} (I : t → Prop) (m : M t A) (f : A → M t B) :
  returns I m → (∀ a, returns I (f a)) → returns I (m ≫= f).
Proof. intros Hm Hf. by apply (triple_bind _ _ (fun _ s => I s)). Qed.

Lemma returns_ret {A} (I : t → Prop) (a : A) : returns I (mret a : M t A).
Proof. by apply triple_ret. Qed.

Lemma returns_for {A} (I : t → Prop) (xs : list A) (body : A → M t unit) :
  (∀ x, x ∈ xs → returns I (body x)) → returns I (for_ xs body).
Proof.
  induction xs as [|x xs IH]; intros H; simpl.
  - apply returns_ret.
  - apply returns_bind; [apply H, elem_of_cons; by left|].
    intros _. apply IH. intros y Hy. apply H, elem_of_cons. by right.
Qed.

Lemma ready_same (s s' : t) :
  font s' = font s → current_page s' = current_page s → ready fnt s → ready fnt s'.
Proof. intros Hf Hc [Hp He]. unfold ready, encoder_of. by rewrite Hf, Hc. Qed.

Lemma returns_move_down (amount : float) : returns (ready fnt) (move_down amount).
Proof. apply triple_modify. intros s Hs. by apply (ready_same s). Qed.

Lemma returns_move_up (amount : float) : returns (ready fnt) (move_up amount).
Proof. apply triple_modify. intros s Hs. by apply (ready_same s). Qed.

Lemma returns_new_page : returns (ready fnt) _new_page.
Proof. apply triple_modify. intros s [_ Hs]. split; [by eexists | done]. Qed.

Lemma returns_append_command (c : command) : returns (ready fnt) (_append_command c).
Proof.
  intros s [[i Hi] He].
  unfold _append_command, mbind, M_mbind, M_bind, get, put. rewrite Hi. cbn.
  split; [by eexists | done].
Qed.

Lemma returns_set_color (color : option (float * float * float)) :
  returns (ready fnt) (_set_color color).
Proof.
  destruct color as [[[r g] b]|]; simpl; [apply returns_append_command | apply returns_ret].
Qed.

Lemma returns_measure (text : pystr) (font_size : float) :
  is_ok (text_width fnt font_size text) →
  returns (ready fnt) (on_font (FontEncoder.measure_text text font_size)).
Proof.
  intros [v Hv] s [Hp He].
  destruct (text_width_measure text font_size s He) as (f' & -> & Htr).
  rewrite Hv. by split.
Qed.

Lemma encode_text_tracked (trace text : pystr) (self : FontEncoder.t) :
  tracked fnt trace self →
  is_ok (FontEncoder.encode_text text self).1.
Proof.
  intros Htr. pose proof (tracked_ensure_text fnt text _ self Htr) as Htr'.
  rewrite encode_text_unfold.
  rewrite (map_each_Ok_map _
             (fun ch => fmt_04X (default 0 (TrueTypeFont.cmap fnt !! ch)))).
  - by eexists.
  - intros ch Hch. unfold getitem_char.
    rewrite (tracked_lookup fnt _ _ ch Htr'); [done|]. apply elem_of_app. by right.
Qed.

Lemma returns_encode (line : pystr) :
  returns (ready fnt) (on_font (FontEncoder.encode_text line)).
Proof.
  intros s [Hp [trace Htr]]. unfold on_font.
  destruct (encode_text_tracked trace line (font s) Htr) as [enc Henc].
  pose proof (encode_text_state line (font s)) as Hst.
  destruct (FontEncoder.encode_text line (font s)) as [r f']. cbn [fst snd] in *.
  subst r f'. split; [done|]. eexists. cbn [font]. by apply tracked_ensure_text.
Qed.

Lemma returns_draw_line (paragraph : Paragraph) (leading : float) (l : float * pystr) :
  returns (ready fnt) (draw_line paragraph leading l).
Proof.
  destruct l as [indent line]. unfold draw_line.
  apply (triple_bind _ _ (fun _ s => ready fnt s)); [by apply triple_get|]. intros s1.
  apply returns_bind.
  { destruct (_ <? _)%float; [apply returns_new_page | apply returns_ret]. }
  intros _.
  apply (triple_bind _ _ (fun _ s => ready fnt s)); [by apply triple_get|]. intros s2.
  apply returns_bind; [apply returns_set_color|]. intros _.
  apply returns_bind; [apply returns_encode|]. intros encoded.
  apply returns_bind; [apply returns_append_command|]. intros _.
  apply returns_bind; [|intros _; apply returns_move_down].
  destruct (color paragraph); [apply returns_append_command | apply returns_ret].
Qed.

Lemma returns_wrap_words (paragraph : Paragraph) (space_width : float)
    (words : list pystr) (w : wrap) :
  Forall (fun word => is_ok (text_width fnt (size paragraph) word)) words →
  returns (ready fnt) (wrap_words paragraph space_width words w).
Proof.
  intros Hwords. revert w. induction Hwords as [|word words Hword Hwords IH];
    intros w; simpl.
  - apply returns_ret.
  - apply returns_bind; [by apply returns_measure|]. intros word_width. apply IH.
Qed.

Lemma returns_register (text : pystr) :
  returns (ready fnt) (on_font (modify (FontEncoder.ensure_text text))).
Proof.
  intros s [Hp [trace Htr]]. unfold on_font, modify. split; [done|].
  eexists. cbn [font]. by apply tracked_ensure_text.
Qed.

Lemma returns_paragraph_lines (paragraph : Paragraph) :
  (0 <=? size paragraph)%float = true →
  (size paragraph <? infinity)%float = true →
  is_ok (text_width fnt (size paragraph) (measured_text paragraph)) →
  returns (ready fnt) (paragraph_lines paragraph (replace_nbsp (text paragraph))).
Proof.
  intros Hnn Hfin [wd Hwd]. unfold measured_text in Hwd.
  set (txt := replace_nbsp (text paragraph)) in *.
  assert (Hspace : is_ok (text_width fnt (size paragraph) (lit " "))).
  { destruct (text_width_substring _ Hnn Hfin _ (lit " ") txt wd Hwd) as (ww & Hww & _).
    by exists ww. }
  assert (Hwords : Forall (fun word => is_ok (text_width fnt (size paragraph) word))
                     (split txt)).
  { apply Forall_forall. intros word Hword.
    apply split_from_substring in Hword as (pre & post & Htext). cbn [app] in Htext.
    rewrite Htext in Hwd.
    replace ((if bullet paragraph then bullet_prefix else []) ++ lit " " ++ pre ++ word ++ post)
      with (((if bullet paragraph then bullet_prefix else []) ++ lit " " ++ pre)
            ++ word ++ post) in Hwd by (by rewrite <- !app_assoc).
    destruct (text_width_substring _ Hnn Hfin _ word post wd Hwd) as (ww & Hww & _).
    by exists ww. }
  unfold paragraph_lines. cbv zeta. fold txt.
  destruct (bullet paragraph).
  - assert (Hprefix : is_ok (text_width fnt (size paragraph) bullet_prefix)).
    { rewrite <- (app_nil_l (bullet_prefix ++ _)) in Hwd.
      destruct (text_width_substring _ Hnn Hfin [] bullet_prefix _ wd Hwd) as (ww & Hww & _).
      by exists ww. }
    apply (triple_bind _ _ (fun a s => ready fnt s ∧ a = bullet_prefix)).
    { apply (triple_bind _ _ (fun _ s => ready fnt s)); [apply returns_register|].
      intros _. by apply triple_ret. }
    intros prefix. apply triple_pure. intros ->.
    apply returns_bind; [apply returns_move_down|]. intros _.
    apply returns_bind; [by apply returns_measure|]. intros space_width.
    cbn [nonempty bullet_prefix].
    apply returns_bind; [by apply returns_measure|]. intros line_width.
    apply returns_bind; [by apply returns_wrap_words|]. intros w. apply returns_ret.
  - apply (triple_bind _ _ (fun a s => ready fnt s ∧ a = [])).
    { by apply triple_ret. }
    intros prefix. apply triple_pure. intros ->.
    apply returns_bind; [apply returns_move_down|]. intros _.
    apply returns_bind; [by apply returns_measure|]. intros space_width.
    cbn [nonempty].
    apply returns_bind; [apply returns_ret|]. intros line_width.
    apply returns_bind; [by apply returns_wrap_words|]. intros w. apply returns_ret.
Qed.

Lemma ensure_page_ready :
  triple (encoder_of fnt) _ensure_page (fun _ s => ready fnt s) (fun _ _ => False).
Proof.
  intros s Hs. unfold _ensure_page, mbind, M_mbind, M_bind, get.
  destruct (current_page s) as [i|] eqn:Hi; simpl.
  - split; [|done]. rewrite Hi. by eexists.
  - split; [by eexists | done].
Qed.

Lemma add_paragraph_returns (paragraph : Paragraph) :
  (0 <=? size paragraph)%float = true →
  (size paragraph <? infinity)%float = true →
  is_ok (text_width fnt (size paragraph) (measured_text paragraph)) →
  triple (encoder_of fnt) (add_paragraph paragraph) (fun _ s => ready fnt s)
    (fun _ _ => False).
Proof.
  intros Hnn Hfin Hok. unfold add_paragraph.
  apply (triple_bind _ _ (fun _ s => ready fnt s)); [apply ensure_page_ready|].
  intros _. cbv zeta. destruct (nonempty _).
  - apply returns_bind; [by apply returns_paragraph_lines|]. intros lines.
    apply returns_bind; [apply returns_for; intros l _; apply returns_draw_line|].
    intros _. apply returns_bind; [apply returns_move_up|]. intros _.
    apply returns_move_down.
  - apply returns_move_down.
Qed.

(** C8, as amended.  On an engine whose encoder was reached by text
    calls from a new one, for a paragraph whose font size is finite and not
    negative and whose text [measure_text] measures (every glyph has an
    advance width, [units_per_em] is not 0, the width is in range):
    [add_paragraph] returns, it raises no error; the word loop returns its
    lines; every word of the text is a word of these lines, whole and in
    order (after the bullet of a bullet paragraph); and a line that holds a
    word whose measured width exceeds the space available to the line,
    [max_width - line_indent], in the comparison of the two floats, holds
    this word alone. *)
Theorem overlong_word_alone (calls : list call) (paragraph : Paragraph) (s : t) :
  font s = run_calls calls (FontEncoder.__init__ fnt) →
  (0 <=? size paragraph)%float = true →
  (size paragraph <? infinity)%float = true →
  is_ok (text_width fnt (size paragraph) (measured_text paragraph)) →
  ∃ lines s1 s',
    paragraph_lines paragraph (replace_nbsp (text paragraph)) (_ensure_page s).2
    = (Ok lines, s1) ∧
    add_paragraph paragraph s = (Ok tt, s') ∧
    line_words lines
    = (if bullet paragraph then [[0x2022]] else [])
      ++ split (replace_nbsp (text paragraph)) ∧
    ∀ l word width,
      l ∈ lines → word ∈ split l.2 →
      text_width fnt (size paragraph) word = Ok width →
      (line_available l <? width)%float = true →
      split l.2 = [word].
Proof.
  intros Hfont Hnn Hfin Hok.
  assert (Henc : encoder_of fnt s).
  { eexists. rewrite Hfont. apply tracked_run_calls, tracked_init. }
  pose proof (ensure_page_ready s Henc) as Hready.
  pose proof (add_paragraph_returns paragraph Hnn Hfin Hok s Henc) as Hret.
  destruct (_ensure_page s) as [[[]|e] s0]; [|done]. cbn [snd].
  pose proof (returns_paragraph_lines paragraph Hnn Hfin Hok s0 Hready) as Hlines.
  destruct (paragraph_lines paragraph _ s0) as [[lines|e] s1] eqn:Hl; [|done].
  destruct (add_paragraph paragraph s) as [[[]|e] s']; [|done].
  exists lines, s1, s'. split; [done|]. split; [done|].
  split; [by apply (paragraph_lines_words_all _ _ _ _ _ Hl)|].
  intros l word width Hin Hword Hwidth Hwide.
  destruct Hready as [_ Henc0].
  pose proof (paragraph_lines_fit_all paragraph _ lines s0 s1 Hnn Hfin Henc0 Hl) as Hall.
  rewrite Forall_forall in Hall. destruct (Hall l Hin) as [Hfit | Hone].
  - exfalso. destruct (Hfit word Hword) as (width' & Hwidth' & Hle).
    rewrite Hwidth in Hwidth'. simplify_eq.
    pose proof (text_width_nonneg _ Hnn Hfin _ _ Hwidth) as Hw0.
    by rewrite (Binary64Facts.leb_not_ltb _ _ Hw0 Hle) in Hwide.
  - unfold single_word in Hone. destruct (split l.2) as [|w0 [|w1 rest]]; simpl in Hone.
    + by apply elem_of_nil in Hword.
    + by apply list_elem_of_singleton in Hword as ->.
    + lia.
Qed.

End Fit.

(** In the sample font at size 400, "AB" is 520 points wide, more than
    the 483.28 points between the margins: it stands alone on its line. *)
Lemma overlong_word_alone_witness :
  let fnt := Fixture.parsed Fixture.sample_font in
  let s := LayoutEngine.__init__ (FontEncoder.__init__ fnt) in
  let paragraph := mkParagraph (lit "AB  C") (lit "body") 400 0 0 None false 0 in
  ∃ s1 s',
    LayoutEngine.paragraph_lines paragraph (lit "AB  C") (LayoutEngine._ensure_page s).2
    = (Ok [(0%float, lit "AB"); (0%float, lit "C")], s1) ∧
    LayoutEngine.add_paragraph paragraph s = (Ok tt, s') ∧
    split (lit "AB") = [lit "AB"].
Proof.
  intros fnt s paragraph.
  destruct (overlong_word_alone fnt [] paragraph s) as (lines & s1 & s' & Hl & Hadd & _ & Hwide).
  - reflexivity.
  - vm_compute. reflexivity.
  - vm_compute. reflexivity.
  - eexists. vm_compute. reflexivity.
  - assert (Hlines : ∃ s2,
      LayoutEngine.paragraph_lines paragraph (lit "AB  C") (LayoutEngine._ensure_page s).2
      = (Ok [(0%float, lit "AB"); (0%float, lit "C")], s2))
      by (eexists; vm_compute; reflexivity).
    destruct Hlines as [s2 Hlines].
    change (replace_nbsp (text paragraph)) with (lit "AB  C") in Hl.
    rewrite Hlines in Hl. injection Hl as <- <-.
    exists s2, s'. split; [done|]. split; [done|].
    apply (Hwide (0%float, lit "AB") (lit "AB") 520%float).
    + apply elem_of_cons. by left.
    + vm_compute. apply elem_of_cons. by left.
    + vm_compute. reflexivity.
    + vm_compute. reflexivity.
Defined.

(** C8 as stated fails for a negative font size, and its "raises no
    error" fails for a text that cannot be measured.  In the sample font at
    size -1 with indent 484, the space available to the line is about
    -0.72 and the word "A" measures -0.6, which is more: yet the two words
    of "A A" share one line, because the width projected for the line,
    -1.7, is below -0.72.  In a font with three glyphs where "C" is glyph
    3, at size 1000, the word "A" measures 600 points, more than the line
    has, and [add_paragraph] raises [IndexError] on "A C". *)
Lemma overlong_word_counterexample :
  (let fnt := Fixture.parsed Fixture.sample_font in
   let s := LayoutEngine.__init__ (FontEncoder.__init__ fnt) in
   let paragraph := mkParagraph (lit "A A") (lit "body") (-1) 0 0 None false 484 in
   ∃ s1 width,
     LayoutEngine.paragraph_lines paragraph (lit "A A") (LayoutEngine._ensure_page s).2
     = (Ok [(484%float, lit "A A")], s1) ∧
     text_width fnt (-1)%float (lit "A") = Ok width ∧
     (line_available (484%float, lit "A A") <? width)%float = true ∧
     split (lit "A A") = [lit "A"; lit "A"]) ∧
  (let fnt := Fixture.parsed
                (Fixture.font_with 3 3 [500; 600; 700]
                   (Fixture.format4_subtable [(0x41, 0x43, (-64)%Z, 0)] [])) in
   let s := LayoutEngine.__init__ (FontEncoder.__init__ fnt) in
   let paragraph := mkParagraph (lit "A C") (lit "body") 1000 0 0 None false 0 in
   text_width fnt 1000%float (lit "A") = Ok 600%float ∧
   (line_available (0%float, lit "A") <? 600)%float = true ∧
   (LayoutEngine.add_paragraph paragraph s).1 = Raise IndexError).
Proof.
  split.
  - intros fnt s paragraph. eexists _, _.
    split; [vm_compute; reflexivity|]. split; [vm_compute; reflexivity|].
    split; vm_compute; reflexivity.
  - intros fnt s paragraph.
    split; [vm_compute; reflexivity|]. split; vm_compute; reflexivity.
Qed.

Section Indents.
Import LayoutEngine.

Lemma place_word_indents (paragraph : Paragraph) (space_width : float) (w : wrap)
    (word : pystr) (word_width : float) :
  indents_ok paragraph (lines w ++ [(line_indent w, line_text w)]) →
  let w' := place_word paragraph space_width w word word_width in
  indents_ok paragraph (lines w' ++ [(line_indent w', line_text w')]).
Proof.
  intros Hw. unfold place_word. cbv zeta.
  destruct (_ || _); cbn [LayoutEngine.lines line_indent line_text].
  - destruct (lines w) as [|l rest]; [done|]. cbn [app indents_ok] in *.
    destruct Hw as [Hl Hrest]. split; [done|].
    apply Forall_app in Hrest as [Hrest Hlast]. apply Forall_app. split; [done|].
    apply Forall_inv in Hlast. constructor; [exact Hlast | constructor].
  - destruct (lines w) as [|l rest]; cbn [app indents_ok] in *.
    + destruct Hw as [Hl _]. split; [done|]. by repeat constructor.
    + destruct Hw as [Hl Hrest]. split; [done|].
      rewrite <- app_assoc. apply Forall_app. split.
      * by apply Forall_app in Hrest as [Hrest _].
      * apply Forall_app. split; [by apply Forall_app in Hrest as [_ ?]|].
        by repeat constructor.
Qed.

Lemma wrap_words_indents (paragraph : Paragraph) (space_width : float)
    (words : list pystr) (w w' : wrap) (s s' : t) :
  indents_ok paragraph (lines w ++ [(line_indent w, line_text w)]) →
  wrap_words paragraph space_width words w s = (Ok w', s') →
  indents_ok paragraph (lines w' ++ [(line_indent w', line_text w')]).
Proof.
  revert w s. induction words as [|word words IH]; intros w s Hw; simpl.
  - unfold mret, M_mret, M_ret. intros H. by simplify_eq.
  - intros H. run_bind H as word_width s1 H1. apply IH in H; [done|].
    by apply place_word_indents.
Qed.

(** X26.  The first line of a paragraph is indented by the paragraph's
    [indent], every further line by the continuation indent, which is the
    paragraph's indent plus 14 points for a bullet paragraph (and plus 0.0
    otherwise). *)
Theorem paragraph_lines_indents (paragraph : Paragraph) (text : pystr)
    (lines : list (float * pystr)) (s s' : t) :
  paragraph_lines paragraph text s = (Ok lines, s') →
  indents_ok paragraph lines.
Proof.
  intros H. unfold paragraph_lines in H. cbv zeta in H.
  run_bind H as prefix s1 H1. run_bind H as u s2 H2.
  run_bind H as space_width s3 H3. run_bind H as line_width s4 H4.
  run_bind H as w s5 H5.
  apply wrap_words_indents in H5; [|by cbn].
  unfold mret, M_mret, M_ret in H. simplify_eq.
  unfold finished_lines. destruct (nonempty (line_text w)); [done|].
  destruct (LayoutEngine.lines w) as [|l rest]; [done|]. cbn [app indents_ok] in *.
  destruct H5 as [Hl Hrest]. split; [done|]. by apply Forall_app in Hrest as [? _].
Qed.

End Indents.

Lemma paragraph_lines_indents_witness :
  let s := LayoutEngine.__init__ (FontEncoder.__init__ (Fixture.parsed Fixture.sample_font)) in
  let paragraph := mkParagraph (lit "AB  C") (lit "body") 400 0 0 None true 6 in
  ∃ lines s',
    LayoutEngine.paragraph_lines paragraph (lit "AB  C") s = (Ok lines, s') ∧
    indents_ok paragraph lines.
Proof.
  intros s paragraph.
  assert (H : ∃ lines s',
            LayoutEngine.paragraph_lines paragraph (lit "AB  C") s = (Ok lines, s'))
    by (eexists _, _; vm_compute; reflexivity).
  destruct H as (lines & s' & H). exists lines, s'. split; [exact H|].
  exact (paragraph_lines_indents paragraph (lit "AB  C") lines s s' H).
Defined.

(** * The parsed font *)

(** ** The table directory *)

Lemma unpack_4sIII_Ok (b tag : bytes) (check off len : N) :
  Struct.unpack_4sIII b = Ok (tag, check, off, len) →
  tag = slice 0 4 b ∧ off = Struct.fI 8 b ∧ len = Struct.fI 12 b.
Proof.
  unfold Struct.unpack_4sIII. intros H. inv_bind H as [] Hs. by simplify_eq.
Qed.

Lemma decode_ascii_Ok (b : bytes) (s : pystr) :
  decode_ascii b = Ok s → s = map Byte.to_N b.
Proof. unfold decode_ascii. destruct (forallb _ b); intros H; by simplify_eq. Qed.

(** The loop of [_parse_offset_table] from record [first] on: the entry
    of a key is the one of the last of the [n] records that bears the key,
    and the entry it had before when none does. *)
Lemma offset_table_loop_lookup (data : bytes) (n : nat) (first : N)
    (tables tables' : gmap pystr (N * N)) (key : pystr) :
  TrueTypeFont.offset_table_loop data n (12 + 16 * first) tables = Ok tables' →
  (∀ i, first ≤ i < first + N.of_nat n →
     directory_tag data i = key →
     (∀ j, i < j < first + N.of_nat n → directory_tag data j ≠ key) →
     tables' !! key = Some (directory_entry data i)) ∧
  ((∀ j, first ≤ j < first + N.of_nat n → directory_tag data j ≠ key) →
   tables' !! key = tables !! key).
Proof.
  revert first tables. induction n as [|n IH]; intros first tables H;
    cbn [TrueTypeFont.offset_table_loop] in H.
  - simplify_eq. split; [intros i Hi; lia | done].
  - inv_bind H as [[[tag check] off] len] Hrec.
    apply unpack_4sIII_Ok in Hrec as (-> & -> & ->).
    inv_bind H as k Hk. apply decode_ascii_Ok in Hk as ->.
    fold (directory_record data first) in H.
    fold (directory_tag data first) in H.
    change (Struct.fI 8 (directory_record data first),
            Struct.fI 12 (directory_record data first))
      with (directory_entry data first) in H.
    replace (12 + 16 * first + 16) with (12 + 16 * (first + 1)) in H by lia.
    destruct (IH _ _ H) as [Hlast Hsame]. split.
    + intros i Hi Htag Hlater. destruct (decide (i = first)) as [->|Hne].
      * rewrite Hsame.
        -- rewrite <- Htag. apply lookup_insert_eq.
        -- intros j Hj. apply Hlater. lia.
      * apply Hlast; [lia | done |]. intros j Hj. apply Hlater. lia.
    + intros Hnone. rewrite Hsame.
      * apply lookup_insert_ne. apply Hnone. lia.
      * intros j Hj. apply Hnone. lia.
Qed.

(** X27.  When the table directory parses, a tag is a key of the table
    map exactly when a record of the directory bears it, and its entry
    (offset and length) is that of the last such record: a later record with
    the same tag replaces an earlier one. *)
Theorem offset_table_last_record (data : bytes) (tables : gmap pystr (N * N))
    (key : pystr) :
  TrueTypeFont._parse_offset_table data = Ok tables →
  (∀ i, i < directory_count data →
     directory_tag data i = key →
     (∀ j, i < j < directory_count data → directory_tag data j ≠ key) →
     tables !! key = Some (directory_entry data i)) ∧
  ((∀ j, j < directory_count data → directory_tag data j ≠ key) →
   tables !! key = None).
Proof.
  unfold TrueTypeFont._parse_offset_table. intros H.
  inv_bind H as [[[[scaler num_tables] a] b] c] Hhead.
  assert (Hnum : num_tables = directory_count data).
  { unfold Struct.unpack_IHHHH in Hhead. inv_bind Hhead as [] Hs. by simplify_eq. }
  subst num_tables.
  change 12 with (12 + 16 * 0) in H.
  destruct (offset_table_loop_lookup data _ 0 ∅ tables key H) as [Hlast Hnone].
  rewrite N2Nat.id, N.add_0_l in Hlast, Hnone. split.
  - intros i Hi Htag Hlater. apply Hlast; [lia | done |]. intros j Hj. apply Hlater. lia.
  - intros Hno. rewrite Hnone; [done|]. intros j Hj. apply Hno. lia.
Qed.

Lemma offset_table_last_record_witness :
  let data := Fixture.sfnt [("head"%string, Fixture.zeros 2);
                            ("head"%string, Fixture.zeros 3)] in
  ∃ tables,
    TrueTypeFont._parse_offset_table data = Ok tables ∧
    tables !! lit "head" = Some (46, 3) ∧
    tables !! lit "hhea" = None.
Proof.
  intros data. eexists. split; [vm_compute; reflexivity|].
  assert (Hcount : directory_count data = 2) by (vm_compute; reflexivity).
  split.
  - refine (proj1 (offset_table_last_record data _ (lit "head") _) 1 _ _ _).
    + vm_compute. reflexivity.
    + rewrite Hcount. lia.
    + vm_compute. reflexivity.
    + intros j Hj. rewrite Hcount in Hj. lia.
  - refine (proj2 (offset_table_last_record data _ (lit "hhea") _) _).
    + vm_compute. reflexivity.
    + intros j Hj. rewrite Hcount in Hj.
      assert (Hj' : j = 0 ∨ j = 1) by lia.
      destruct Hj' as [-> | ->]; vm_compute; discriminate.
Defined.

(** X28.  The metrics of a parsed font are unsigned 16 bit values:
    [units_per_em], [num_h_metrics], [num_glyphs] and every advance width
    are below 65536 (so that no advance width is negative), and there are
    fewer than 65536 advance widths. *)
Theorem parsed_font_uint16 (data : bytes) (ft : TrueTypeFont.t) :
  TrueTypeFont.__init__ data = Ok ft →
  TrueTypeFont.units_per_em ft < 65536 ∧
  TrueTypeFont.num_h_metrics ft < 65536 ∧
  TrueTypeFont.num_glyphs ft < 65536 ∧
  Forall (fun w => w < 65536) (TrueTypeFont.advance_widths ft) ∧
  N.of_nat (length (TrueTypeFont.advance_widths ft)) < 65536.
Proof. apply parsed_font_fields. Qed.

Lemma parsed_font_uint16_witness :
  ∃ ft,
    TrueTypeFont.__init__ Fixture.sample_font = Ok ft ∧
    TrueTypeFont.units_per_em ft < 65536 ∧
    Forall (fun w => w < 65536) (TrueTypeFont.advance_widths ft).
Proof.
  assert (H : ∃ ft, TrueTypeFont.__init__ Fixture.sample_font = Ok ft)
    by (eexists; vm_compute; reflexivity).
  destruct H as [ft H]. exists ft. split; [exact H|].
  destruct (parsed_font_uint16 Fixture.sample_font ft H) as (Hupm & _ & _ & Hall & _).
  by split.
Defined.
